(** * Shallow embedding of selected modules of the computer-algebra library

    The development follows the Python sources module by module:
    - [GraphPath]      : sage/combinat/graph_path.py
    - [FilteredModules]: sage/categories/filtered_modules_with_basis.py
    - [LieAlgebra]     : sage/algebras/lie_algebras/structure_coefficients.py
    - [Weyl]           : sage/algebras/weyl_algebra.py
    - [Transducers]    : sage/combinat/finite_state_machine_generators.py
                         ([CountSubblockOccurrences], [Wait], [GrayCode])
    - [Recursion]      : sage/combinat/finite_state_machine_generators.py
                         ([Recursion])
*)

From Stdlib Require Import ZArith QArith Qcanon Lia.
From stdpp Require Import base option list gmap strings fin_maps.

(** A Python [for] loop whose body may fail: the accumulator is threaded
    through the iterations, and the first failure aborts the loop. *)
Fixpoint for_each {A S : Type} (body : A → S → option S) (l : list A) (s : S)
  : option S :=
  match l with
  | [] => Some s
  | a :: l' =>
      match body a s with
      | None => None
      | Some s' => for_each body l' s'
      end
  end.

(** A loop that appends [h t] for the result [t] of each call [f a] returns
    the concatenation of all of them, provided every call returns. *)
Lemma for_each_append {A B C : Type} (f : A → option B) (h : B → list C)
  (l : list A) (acc : list C) :
  for_each (λ a s, match f a with
                   | None => None
                   | Some t => Some (s ++ h t)
                   end) l acc
  = (λ ts, acc ++ concat (map h ts)) <$> mapM f l.
Proof.
  revert acc. induction l as [|a l IH]; intros acc; simpl.
  - by rewrite app_nil_r.
  - destruct (f a) as [t|]; simpl; [|done].
    rewrite IH. destruct (mapM f l) as [ts|]; simpl; [|done].
    by rewrite app_assoc.
Qed.

Lemma for_each_app {A S : Type} (body : A → S → option S) (l1 l2 : list A)
  (s : S) :
  for_each body (l1 ++ l2) s
  = match for_each body l1 s with
    | None => None
    | Some s' => for_each body l2 s'
    end.
Proof.
  revert s. induction l1 as [|a l1 IH]; intros s; simpl; [done|].
  destruct (body a s); [apply IH|done].
Qed.

Lemma elem_of_concat {A : Type} (x : A) (ls : list (list A)) :
  x ∈ concat ls ↔ ∃ l, x ∈ l ∧ l ∈ ls.
Proof.
  induction ls as [|l ls IH]; simpl.
  - rewrite elem_of_nil. split; [done|]. intros (l & _ & Hl).
    by apply elem_of_nil in Hl.
  - rewrite elem_of_app, IH. split.
    + intros [Hx|(l' & Hx & Hl')]; [exists l|exists l'];
        rewrite elem_of_cons; auto.
    + intros (l' & Hx & Hl'). apply elem_of_cons in Hl' as [->|Hl']; eauto.
Qed.

Lemma filter_map_comm {A B : Type} (f : B → bool) (h : A → B) (l : list A) :
  List.filter f (map h l) = map h (List.filter (λ a, f (h a)) l).
Proof.
  induction l as [|a l IH]; [done|].
  simpl. destruct (f (h a)); simpl; by rewrite IH.
Qed.

(** Positions paired with elements: [indexed_from k l] is
    [[(k, l0); (k+1, l1); ...]]. *)
Fixpoint indexed_from {A : Type} (k : nat) (l : list A) : list (nat * A) :=
  match l with
  | [] => []
  | a :: l' => (k, a) :: indexed_from (S k) l'
  end.

Lemma elem_of_indexed_from {A : Type} (k : nat) (l : list A) i a :
  (i, a) ∈ indexed_from k l ↔ k ≤ i ∧ l !! (i - k) = Some a.
Proof.
  revert k. induction l as [|b l IH]; intros k; simpl.
  - rewrite elem_of_nil. split; [done|]. intros [_ Hl]. by rewrite lookup_nil in Hl.
  - rewrite elem_of_cons, IH. split.
    + intros [[= -> ->]|[Hle Hl]].
      * split; [lia|]. by replace (k - k) with 0 by lia.
      * split; [lia|]. by replace (i - k) with (S (i - S k)) by lia.
    + intros [Hle Hl]. destruct (decide (i = k)) as [->|Hne].
      * left. replace (k - k) with 0 in Hl by lia. simpl in Hl. congruence.
      * right. split; [lia|].
        by replace (i - k) with (S (i - S k)) in Hl by lia.
Qed.

Lemma indexed_from_app {A : Type} (k : nat) (l1 l2 : list A) :
  indexed_from k (l1 ++ l2)
  = indexed_from k l1 ++ indexed_from (k + length l1) l2.
Proof.
  revert k. induction l1 as [|a l1 IH]; intros k; simpl.
  - by rewrite Nat.add_0_r.
  - rewrite IH. do 3 f_equal. lia.
Qed.

Lemma indexed_from_snd {A : Type} (k : nat) (l : list A) :
  map snd (indexed_from k l) = l.
Proof. revert k. induction l; intros; simpl; f_equal; auto. Qed.

Lemma indexed_from_NoDup_fst {A : Type} (k : nat) (l : list A) :
  NoDup (map fst (indexed_from k l)).
Proof.
  revert k. induction l as [|a l IH]; intros k; simpl; constructor; auto.
  rewrite list_elem_of_fmap. intros [[i b] [-> Hin]]. simpl in Hin.
  apply elem_of_indexed_from in Hin. lia.
Qed.

(** Storing the items of a dictionary one after the other, in any order,
    rebuilds the dictionary. *)
Lemma foldl_insert_items `{Countable K} {A : Type} (m : gmap K A)
  (l : list (K * A)) :
  l ≡ₚ map_to_list m →
  foldl (λ d kv, <[kv.1 := kv.2]> d) ∅ l = m.
Proof.
  intros Hl.
  assert (Hgen : ∀ (l : list (K * A)) (acc : gmap K A),
            foldl (λ d kv, <[kv.1 := kv.2]> d) acc l
            = list_to_map (reverse l) ∪ acc).
  { clear. induction l as [|kv l IH]; intros acc; simpl.
    - by rewrite (left_id_L ∅ (∪)).
    - rewrite IH, reverse_cons, list_to_map_app. simpl.
      rewrite insert_empty, <- (assoc_L (∪)). f_equal.
      by rewrite insert_union_singleton_l. }
  rewrite Hgen, (right_id_L ∅ (∪)). symmetry. apply list_to_map_flip.
  by rewrite reverse_Permutation, Hl.
Qed.

(* ===================================================================== *)
(** * sage/combinat/graph_path.py *)
(* ===================================================================== *)

Module GraphPath.

Section Paths.

Context {V : Type} `{EqDecision V}.

(** A multi-digraph: its vertices and its edges [(u, v)]; parallel edges
    are repeated entries of [edges] (all labels are [None] in the source's
    examples and are never inspected by the path code). An edge is
    identified by its position in [edges]. *)
Record DiGraph := mkDiGraph {
  vertices : list V;
  edges : list (V * V)
}.

(** The first argument of [GraphPaths]: Python is untyped, so [g] may be
    any object. *)
Inductive pyobject :=
| IsDiGraph (g : DiGraph)
| OtherObject.

Inductive exception :=
| TypeError (msg : string)
| ValueError (msg : string).

(** The four classes of paths. *)
Inductive paths_class :=
| GraphPaths_all (g : DiGraph)
| GraphPaths_s (g : DiGraph) (source : V)
| GraphPaths_t (g : DiGraph) (target : V)
| GraphPaths_st (g : DiGraph) (source target : V).

(** [v in g] *)
Definition has_vertex (g : DiGraph) (v : V) : bool :=
  bool_decide (v ∈ vertices g).

Definition GraphPaths (g : pyobject) (source target : option V)
  : exception + paths_class :=
  match g with
  | OtherObject => inl (TypeError "g must be a DiGraph")
  | IsDiGraph g =>
      match source, target with
      | None, None => inr (GraphPaths_all g)
      | Some s, None =>
          if negb (has_vertex g s) then inl (ValueError "source must be in g")
          else inr (GraphPaths_s g s)
      | None, Some t =>
          if negb (has_vertex g t) then inl (ValueError "target must be in g")
          else inr (GraphPaths_t g t)
      | Some s, Some t =>
          if negb (has_vertex g s) then inl (ValueError "source must be in g")
          else if negb (has_vertex g t)
               then inl (ValueError "target must be in g")
               else inr (GraphPaths_st g s t)
      end
  end.

(** Attributes of the returned object; a class that does not store an
    attribute answers [None]. *)
Definition attr_graph (p : paths_class) : DiGraph :=
  match p with
  | GraphPaths_all g | GraphPaths_s g _ | GraphPaths_t g _
  | GraphPaths_st g _ _ => g
  end.

Definition attr_source (p : paths_class) : option V :=
  match p with
  | GraphPaths_s _ s | GraphPaths_st _ s _ => Some s
  | _ => None
  end.

Definition attr_target (p : paths_class) : option V :=
  match p with
  | GraphPaths_t _ t | GraphPaths_st _ _ t => Some t
  | _ => None
  end.

(** ** GraphPaths_common *)

Definition outgoing_edges (g : DiGraph) (v : V) : list (V * V) :=
  filter (λ e, e.1 = v) (edges g).

Definition incoming_edges (g : DiGraph) (v : V) : list (V * V) :=
  filter (λ e, e.2 = v) (edges g).

(** [outgoing_paths] recurses along edges; the recursion depth is bounded
    by [fuel], and [None] stands for a call that has not returned within
    that depth. *)
Fixpoint outgoing_paths (fuel : nat) (g : DiGraph) (v : V)
  : option (list (list V)) :=
  match fuel with
  | O => None
  | S fuel' =>
      for_each
        (λ e source_paths,
           match outgoing_paths fuel' g e.2 with
           | None => None
           | Some target_paths =>
               Some (source_paths ++ map (λ path, [v] ++ path) target_paths)
           end)
        (outgoing_edges g v) [[v]]
  end.

Fixpoint incoming_paths (fuel : nat) (g : DiGraph) (v : V)
  : option (list (list V)) :=
  match fuel with
  | O => None
  | S fuel' =>
      for_each
        (λ e target_paths,
           match incoming_paths fuel' g e.1 with
           | None => None
           | Some source_paths =>
               Some (target_paths ++ map (λ path, path ++ [v]) source_paths)
           end)
        (incoming_edges g v) [[v]]
  end.

(** [path[-1] == target] *)
Definition ends_at (target : V) (path : list V) : bool :=
  match last path with
  | Some w => bool_decide (w = target)
  | None => false
  end.

Definition paths_from_source_to_target (fuel : nat) (g : DiGraph)
  (source target : V) : option (list (list V)) :=
  match outgoing_paths fuel g source with
  | None => None
  | Some source_paths => Some (List.filter (ends_at target) source_paths)
  end.

Definition paths (fuel : nat) (g : DiGraph) : option (list (list V)) :=
  for_each
    (λ source acc,
       match outgoing_paths fuel g source with
       | None => None
       | Some ps => Some (acc ++ ps)
       end)
    (vertices g) [].

(** [list()] of each class, and [count()], which the base class
    [CombinatorialClass] computes as the length of [list()]. *)
Definition list_ (fuel : nat) (p : paths_class) : option (list (list V)) :=
  match p with
  | GraphPaths_all g => paths fuel g
  | GraphPaths_t g t => incoming_paths fuel g t
  | GraphPaths_s g s => outgoing_paths fuel g s
  | GraphPaths_st g s t => paths_from_source_to_target fuel g s t
  end.

Definition count (fuel : nat) (p : paths_class) : option nat :=
  match list_ fuel p with
  | None => None
  | Some l => Some (length l)
  end.

(** ** Walks: the mathematical side *)

(** [walk g s es t]: the edge positions [es] form a directed walk of [g]
    from [s] to [t]. *)
Inductive walk (g : DiGraph) : V → list nat → V → Prop :=
| walk_nil v : walk g v [] v
| walk_cons i u w es t :
    edges g !! i = Some (u, w) → walk g w es t → walk g u (i :: es) t.

(** No directed cycle: every closed walk is trivial. *)
Definition acyclic (g : DiGraph) : Prop :=
  ∀ v es, walk g v es v → es = [].

(** The vertex sequence visited by an edge sequence starting at [s]. *)
Fixpoint trace (g : DiGraph) (s : V) (es : list nat) : list V :=
  match es with
  | [] => [s]
  | i :: es' =>
      match edges g !! i with
      | Some (_, w) => s :: trace g w es'
      | None => [s]
      end
  end.

(** The graph with every edge reversed. *)
Definition transpose (g : DiGraph) : DiGraph :=
  mkDiGraph (vertices g) (map (λ e, (e.2, e.1)) (edges g)).

(** The edges leaving [v], with their positions; enumerating walks by
    edge positions mirrors the recursion of [outgoing_paths]. *)
Definition outgoing_ids (g : DiGraph) (v : V) : list (nat * (V * V)) :=
  filter (λ ie, ie.2.1 = v) (indexed_from 0 (edges g)).

Fixpoint walks_from (n : nat) (g : DiGraph) (v : V) : list (list nat) :=
  match n with
  | O => []
  | S n' =>
      [] :: concat (map (λ ie, map (cons ie.1) (walks_from n' g ie.2.2))
                        (outgoing_ids g v))
  end.

(** ** Basic facts on walks *)

Lemma walk_app g a b c es1 es2 :
  walk g a es1 b → walk g b es2 c → walk g a (es1 ++ es2) c.
Proof. induction 1; simpl; eauto using walk. Qed.

Lemma walk_app_inv g a c es1 es2 :
  walk g a (es1 ++ es2) c → ∃ b, walk g a es1 b ∧ walk g b es2 c.
Proof.
  revert a. induction es1 as [|i es1 IH]; simpl; intros a Hw.
  - exists a. split; [constructor|done].
  - inversion Hw as [|? ? w ? ? Hi Hw']; subst.
    destruct (IH _ Hw') as (b & H1 & H2).
    exists b. split; [econstructor; eauto|done].
Qed.

Lemma walk_index_lt g a b es i :
  walk g a es b → i ∈ es → i < length (edges g).
Proof.
  induction 1 as [|j u w es t Hj _ IH]; [by rewrite elem_of_nil|].
  rewrite elem_of_cons. intros [->|Hin]; [|auto].
  by eapply lookup_lt_Some.
Qed.

(** In an acyclic graph no walk uses an edge twice. *)
Lemma acyclic_walk_NoDup g a b es :
  acyclic g → walk g a es b → NoDup es.
Proof.
  intros Hac. induction 1 as [|i u w es t Hi Hw IH]; constructor; [|done].
  intros Hin. apply list_elem_of_split in Hin as (es1 & es2 & ->).
  apply walk_app_inv in Hw as (x & Hw1 & Hw2).
  inversion Hw2 as [|? ? ? ? ? Hi' _]; subst.
  rewrite Hi in Hi'. injection Hi' as <- <-.
  assert (Hc : walk g u (i :: es1) u) by (econstructor; eauto).
  by apply Hac in Hc.
Qed.

Lemma acyclic_walk_length g a b es :
  acyclic g → walk g a es b → length es ≤ length (edges g).
Proof.
  intros Hac Hw.
  assert (Hsub : es ⊆+ seq 0 (length (edges g))).
  { apply NoDup_submseteq; [by eapply acyclic_walk_NoDup|].
    intros i Hi. apply elem_of_seq.
    pose proof (walk_index_lt _ _ _ _ _ Hw Hi). lia. }
  apply submseteq_length in Hsub. by rewrite length_seq in Hsub.
Qed.

(** ** The edges leaving a vertex *)

Lemma elem_of_outgoing_ids g v i e :
  (i, e) ∈ outgoing_ids g v ↔ edges g !! i = Some e ∧ e.1 = v.
Proof.
  unfold outgoing_ids. rewrite list_elem_of_filter, elem_of_indexed_from.
  simpl. replace (i - 0) with i by lia. intuition lia.
Qed.

Lemma outgoing_edges_ids g v :
  outgoing_edges g v = map snd (outgoing_ids g v).
Proof.
  unfold outgoing_edges, outgoing_ids.
  generalize 0. induction (edges g) as [|e l IH]; intros k; [done|].
  simpl. rewrite !filter_cons. simpl.
  destruct (decide (e.1 = v)); simpl; by rewrite (IH (S k)).
Qed.

Lemma outgoing_ids_NoDup g v : NoDup (map fst (outgoing_ids g v)).
Proof.
  unfold outgoing_ids. generalize (indexed_from_NoDup_fst 0 (edges g)).
  induction (indexed_from 0 (edges g)) as [|ie l IH]; [done|].
  simpl. rewrite filter_cons, NoDup_cons. intros [Hni Hnd].
  destruct (decide (ie.2.1 = v)); [|auto].
  simpl. constructor; [|auto].
  intros Hin. apply Hni. apply list_elem_of_fmap in Hin as (y & -> & Hy).
  apply list_elem_of_fmap. exists y. split; [done|].
  by apply list_elem_of_filter in Hy as [_ ?].
Qed.

(** ** The recursion of [outgoing_paths], one step unfolded *)

Lemma outgoing_paths_step n g v :
  outgoing_paths (S n) g v
  = (λ ts, [[v]] ++ concat (map (map (λ path, [v] ++ path)) ts))
      <$> mapM (λ e, outgoing_paths n g e.2) (outgoing_edges g v).
Proof.
  simpl outgoing_paths.
  apply (for_each_append (λ e : V * V, outgoing_paths n g e.2)
           (map (λ path, [v] ++ path))).
Qed.

(** More fuel never changes a result that has been reached. *)
Lemma outgoing_paths_mono n m g v l :
  outgoing_paths n g v = Some l → n ≤ m → outgoing_paths m g v = Some l.
Proof.
  revert m v l. induction n as [|n IH]; intros m v l Hl Hle; [done|].
  destruct m as [|m]; [lia|].
  rewrite outgoing_paths_step in Hl. rewrite outgoing_paths_step.
  destruct (mapM (λ e, outgoing_paths n g e.2) (outgoing_edges g v))
    as [ts|] eqn:Hts; [|done].
  assert (Hts' : mapM (λ e, outgoing_paths m g e.2) (outgoing_edges g v)
                 = Some ts).
  { apply mapM_Some. apply mapM_Some in Hts.
    eapply Forall2_impl; [exact Hts|]. intros e t He. simpl in *.
    apply IH; [done|lia]. }
  by rewrite Hts'.
Qed.

(** What [outgoing_paths] returns is the list of the vertex sequences of
    the walks enumerated by [walks_from], in the same order. *)
Lemma outgoing_paths_trace n g v l :
  outgoing_paths n g v = Some l → l = map (trace g v) (walks_from n g v).
Proof.
  revert v l. induction n as [|n IH]; intros v l Hl; [done|].
  rewrite outgoing_paths_step, outgoing_edges_ids in Hl.
  destruct (mapM _ _) as [ts|] eqn:Hts; [|done].
  injection Hl as <-. simpl. f_equal.
  apply mapM_Some in Hts. rewrite concat_map, !map_map.
  f_equal.
  pose proof (λ i e, proj1 (elem_of_outgoing_ids g v i e)) as Hids.
  revert ts Hts Hids. induction (outgoing_ids g v) as [|[i [a b]] ids IHi];
    intros ts Hts Hids.
  - by inversion Hts.
  - simpl in Hts. inversion Hts as [|? t ? ts' Ht Hts']; subst.
    simpl. f_equal.
    + apply IH in Ht. rewrite Ht, !map_map. apply map_ext. intros es.
      simpl. destruct (Hids i (a, b)) as [-> _]; [left|]. done.
    + apply IHi; [done|]. intros j e Hin. apply Hids. by right.
Qed.

(** ** [walks_from] enumerates the walks, each once *)

Lemma elem_of_walks_from n g v es :
  es ∈ walks_from n g v ↔ length es < n ∧ ∃ t, walk g v es t.
Proof.
  revert v es. induction n as [|n IH]; intros v es; simpl.
  - rewrite elem_of_nil. split; [done|]. intros [? _]. lia.
  - rewrite elem_of_cons, elem_of_concat. split.
    + intros [->|(l & Hes & Hl)].
      * split; [simpl; lia|]. exists v. constructor.
      * apply list_elem_of_fmap in Hl as ([i [a b]] & -> & Hie).
        apply list_elem_of_fmap in Hes as (es' & -> & Hes'). simpl in *.
        apply IH in Hes' as (Hlen & t & Hw).
        apply elem_of_outgoing_ids in Hie as [Hi Ha]. simpl in Ha. subst a.
        split; [lia|]. exists t. econstructor; eauto.
    + intros (Hlen & t & Hw).
      inversion Hw as [|i u w es' ? Hi Hw']; subst; [by left|]. right.
      exists (map (cons i) (walks_from n g w)). split.
      * apply list_elem_of_fmap. exists es'. split; [done|].
        apply IH. simpl in Hlen. split; [lia|]. by exists t.
      * apply list_elem_of_fmap. exists (i, (v, w)). split; [done|].
        by apply elem_of_outgoing_ids.
Qed.

Lemma walks_from_NoDup n g v : NoDup (walks_from n g v).
Proof.
  revert v. induction n as [|n IH]; intros v; simpl; [constructor|].
  constructor.
  - rewrite elem_of_concat. intros (l & Hes & Hl).
    apply list_elem_of_fmap in Hl as (ie & -> & _).
    by apply list_elem_of_fmap in Hes as (es' & ? & _).
  - pose proof (outgoing_ids_NoDup g v) as Hnd.
    induction (outgoing_ids g v) as [|[i e] ids IHi]; simpl; [constructor|].
    simpl in Hnd. apply NoDup_cons in Hnd as [Hni Hnd].
    apply NoDup_app. split; [|split]; [| |auto].
    + apply NoDup_fmap_2; [|apply IH]. by intros ?? [=].
    + intros es Hes Hes'.
      apply list_elem_of_fmap in Hes as (es1 & -> & _).
      apply elem_of_concat in Hes' as (l & Hes' & Hl).
      apply list_elem_of_fmap in Hl as ([j e'] & -> & Hj).
      apply list_elem_of_fmap in Hes' as (es2 & [= -> _] & _).
      apply Hni. apply list_elem_of_fmap. by exists (j, e').
Qed.

(** ** Termination: enough fuel for the longest walk *)

Lemma outgoing_paths_returns n g v :
  (∀ es t, walk g v es t → length es < n) → is_Some (outgoing_paths n g v).
Proof.
  revert v. induction n as [|n IH]; intros v Hb.
  - specialize (Hb [] v (walk_nil g v)). simpl in Hb. lia.
  - rewrite outgoing_paths_step. apply fmap_is_Some, mapM_is_Some.
    apply Forall_forall. intros e Hin. simpl. apply IH.
    intros es t Hw.
    rewrite outgoing_edges_ids in Hin.
    apply list_elem_of_fmap in Hin as ([i [a b]] & -> & Hie). simpl in *.
    apply elem_of_outgoing_ids in Hie as [Hi He]. simpl in He. subst a.
    assert (Hw' : walk g v (i :: es) t) by (econstructor; eauto).
    apply Hb in Hw'. simpl in Hw'. lia.
Qed.

(** Conversely a call that returns within depth [n] has explored all
    walks, which are therefore shorter than [n]. *)
Lemma outgoing_paths_bound n g v l es t :
  outgoing_paths n g v = Some l → walk g v es t → length es < n.
Proof.
  revert v l es. induction n as [|n IH]; intros v l es Hl Hw; [done|].
  inversion Hw as [|i u w es' ? Hi Hw']; subst; [simpl; lia|].
  rewrite outgoing_paths_step in Hl.
  destruct (mapM _ _) as [ts|] eqn:Hts; [|done].
  assert (Hin : (v, w) ∈ outgoing_edges g v).
  { rewrite outgoing_edges_ids. apply list_elem_of_fmap.
    exists (i, (v, w)). split; [done|]. by apply elem_of_outgoing_ids. }
  assert (Hsome : is_Some (mapM (λ e : V * V, outgoing_paths n g e.2)
                             (outgoing_edges g v))) by (rewrite Hts; eauto).
  apply mapM_is_Some in Hsome.
  eapply Forall_forall in Hsome; [|exact Hin].
  destruct Hsome as [l' Hl']. simpl in Hl'.
  specialize (IH _ _ _ Hl' Hw'). simpl. lia.
Qed.

(** On a cycle the recursion never returns, whatever the depth allowed. *)
Lemma outgoing_paths_diverges_on_cycle g v es :
  walk g v es v → es ≠ [] → ∀ n, outgoing_paths n g v = None.
Proof.
  intros Hw Hne n.
  destruct (outgoing_paths n g v) as [l|] eqn:Hl; [exfalso|done].
  assert (Hrep : ∀ k, ∃ es', walk g v es' v ∧ k ≤ length es').
  { induction k as [|k [es' [Hw' Hk]]].
    - exists []. split; [constructor|simpl; lia].
    - exists (es ++ es'). split; [by eapply walk_app|].
      rewrite length_app. destruct es; [done|simpl; lia]. }
  destruct (Hrep n) as (es' & Hw' & Hk).
  pose proof (outgoing_paths_bound _ _ _ _ _ _ Hl Hw'). lia.
Qed.

(** ** The vertex sequence of a walk *)

Lemma trace_last g s es t : walk g s es t → last (trace g s es) = Some t.
Proof.
  induction 1 as [|i u w es t Hi Hw IH]; simpl; [done|].
  rewrite Hi. destruct (trace g w es) eqn:Htr; [done|].
  by rewrite <- IH.
Qed.

Lemma ends_at_trace g s es t t' :
  walk g s es t' → ends_at t (trace g s es) = true ↔ t' = t.
Proof.
  intros Hw. unfold ends_at. rewrite (trace_last _ _ _ _ Hw).
  by rewrite bool_decide_eq_true.
Qed.

Lemma walk_functional g s es t t' : walk g s es t → walk g s es t' → t = t'.
Proof.
  intros Hw. revert t'. induction Hw as [|i u w es t Hi Hw IH]; intros t' Hw'.
  - by inversion Hw'.
  - inversion Hw' as [|? ? w' ? ? Hi' Hw'']; subst.
    rewrite Hi in Hi'. injection Hi' as <-. by apply IH.
Qed.

(** ** Incoming paths are outgoing paths of the transposed graph *)

Lemma outgoing_edges_transpose g v :
  outgoing_edges (transpose g) v
  = map (λ e, (e.2, e.1)) (incoming_edges g v).
Proof.
  unfold outgoing_edges, incoming_edges, transpose. simpl.
  induction (edges g) as [|e l IH]; [done|].
  simpl. rewrite !filter_cons. simpl.
  destruct (decide (e.2 = v)); simpl; by rewrite IH.
Qed.

Lemma incoming_paths_transpose n g v :
  incoming_paths n g v = map reverse <$> outgoing_paths n (transpose g) v.
Proof.
  revert v. induction n as [|n IH]; intros v; [done|].
  rewrite outgoing_paths_step, outgoing_edges_transpose.
  simpl incoming_paths.
  rewrite (for_each_append (λ e : V * V, incoming_paths n g e.1)
             (map (λ path, path ++ [v]))).
  induction (incoming_edges g v) as [|e l IHl]; [done|].
  simpl. rewrite IH.
  destruct (outgoing_paths n (transpose g) e.1) as [t|]; [|done].
  simpl. simpl in IHl.
  destruct (mapM (λ e, incoming_paths n g e.1) l) as [ts|];
    destruct (mapM _ (map _ l)) as [ts'|]; simpl in *; try done.
  injection IHl as IHl. f_equal. f_equal.
  rewrite map_app. f_equal; [|done].
  rewrite !map_map. apply map_ext. intros path.
  by rewrite reverse_cons.
Qed.

Lemma walk_transpose g a b es :
  walk (transpose g) a es b → walk g b (reverse es) a.
Proof.
  induction 1 as [|i u w es t Hi Hw IH]; [constructor|].
  rewrite reverse_cons. eapply walk_app; [exact IH|].
  simpl in Hi. rewrite list_lookup_fmap in Hi.
  destruct (edges g !! i) as [[x y]|] eqn:He; [|done].
  injection Hi as <- <-. econstructor; [exact He|constructor].
Qed.

Lemma acyclic_transpose g : acyclic g → acyclic (transpose g).
Proof.
  intros Hac v es Hw. apply walk_transpose, Hac in Hw.
  by rewrite <- (reverse_involutive es), Hw.
Qed.

(** A graph whose edges all increase a rank has no cycle. *)
Lemma acyclic_of_rank (rank : V → nat) g :
  Forall (λ e, rank e.1 < rank e.2) (edges g) → acyclic g.
Proof.
  intros Hr.
  assert (Hle : ∀ a es b, walk g a es b →
                          rank a ≤ rank b ∧ (es ≠ [] → rank a < rank b)).
  { induction 1 as [|i u w es t Hi Hw [IH1 IH2]]; [by split|].
    eapply Forall_lookup_1 in Hr; [|exact Hi]. simpl in Hr.
    split; [lia|]. intros _. lia. }
  intros v es Hw. destruct es as [|i es]; [done|].
  destruct (Hle _ _ _ Hw) as [_ Hlt]. specialize (Hlt ltac:(done)). lia.
Qed.

Lemma paths_returns fuel g :
  (∀ v, is_Some (outgoing_paths fuel g v)) → is_Some (paths fuel g).
Proof.
  intros Hall. unfold paths. generalize (@nil (list V)).
  induction (vertices g) as [|v vs IH]; intros acc; simpl; [eauto|].
  destruct (Hall v) as [ps ->]. apply IH.
Qed.

(** ** The claims on graph paths *)

(** C9: on a finite directed graph without directed cycle,
    [outgoing_paths] and [incoming_paths] return for every vertex: a
    recursion depth above the number of edges is never exceeded. Hence
    [list()] and [count()] of each of the four classes return. *)
Theorem C9_paths_terminate (g : DiGraph) :
  acyclic g →
  ∀ fuel, length (edges g) < fuel →
    (∀ v, is_Some (outgoing_paths fuel g v)) ∧
    (∀ v, is_Some (incoming_paths fuel g v)) ∧
    (∀ p, attr_graph p = g →
          is_Some (list_ fuel p) ∧ is_Some (count fuel p)).
Proof.
  intros Hac fuel Hfuel.
  assert (Hout : ∀ g', acyclic g' → length (edges g') < fuel →
                       ∀ v, is_Some (outgoing_paths fuel g' v)).
  { intros g' Hac' Hlen v. apply outgoing_paths_returns. intros es t Hw.
    pose proof (acyclic_walk_length _ _ _ _ Hac' Hw). lia. }
  assert (Hin : ∀ v, is_Some (incoming_paths fuel g v)).
  { intros v. rewrite incoming_paths_transpose. apply fmap_is_Some.
    apply Hout; [by apply acyclic_transpose|].
    simpl. by rewrite length_map. }
  split; [by apply Hout|]. split; [done|].
  intros p <-.
  assert (Hlist : is_Some (list_ fuel p)).
  { destruct p as [g|g s|g t|g s t]; simpl in *.
    - apply paths_returns. by apply Hout.
    - by apply Hout.
    - apply Hin.
    - unfold paths_from_source_to_target.
      destruct (Hout g Hac Hfuel s) as [l ->]. eauto. }
  split; [done|]. unfold count. destruct Hlist as [l ->]. eauto.
Qed.

(** C4: on a directed acyclic multigraph [g] with vertices [s] and [t],
    [GraphPaths(g, s, t).list()] is the list of vertex sequences of a
    duplicate-free list [L] of edge sequences that contains exactly the
    directed walks from [s] to [t]: one entry per edge sequence, so that
    parallel edges give equal-looking entries; for [s = t] the only entry
    is the trivial path [[s]]. *)
Theorem C4_list_st_exactly_the_paths (g : DiGraph) (s t : V) p :
  acyclic g →
  GraphPaths (IsDiGraph g) (Some s) (Some t) = inr p →
  ∀ fuel, length (edges g) < fuel →
    ∃ L : list (list nat),
      list_ fuel p = Some (map (trace g s) L) ∧
      NoDup L ∧
      (∀ es, es ∈ L ↔ walk g s es t) ∧
      (s = t → map (trace g s) L = [[s]]).
Proof.
  intros Hac Hp fuel Hfuel.
  assert (p = GraphPaths_st g s t) as ->.
  { simpl in Hp. destruct (has_vertex g s); [|done].
    destruct (has_vertex g t); [|done]. simpl in Hp. congruence. }
  simpl. unfold paths_from_source_to_target.
  destruct (outgoing_paths_returns fuel g s) as [l Hl].
  { intros es t' Hw. pose proof (acyclic_walk_length _ _ _ _ Hac Hw). lia. }
  rewrite Hl. apply outgoing_paths_trace in Hl. subst l.
  set (keep := λ es, ends_at t (trace g s es)).
  exists (List.filter keep (walks_from fuel g s)).
  assert (Hmem : ∀ es, es ∈ List.filter keep (walks_from fuel g s)
                       ↔ walk g s es t).
  { intros es. rewrite list_elem_of_In, filter_In, <- list_elem_of_In.
    rewrite elem_of_walks_from. unfold keep. split.
    - intros [[_ [t' Hw]] He].
      apply (ends_at_trace _ _ _ t _ Hw) in He. by subst t'.
    - intros Hw. split; [split; [|by exists t]|].
      + pose proof (acyclic_walk_length _ _ _ _ Hac Hw). lia.
      + by apply (ends_at_trace _ _ _ t _ Hw). }
  assert (Hnd : NoDup (List.filter keep (walks_from fuel g s))).
  { apply NoDup_ListNoDup, List.NoDup_filter, NoDup_ListNoDup.
    apply walks_from_NoDup. }
  split; [|split; [done|split; [done|]]].
  - f_equal. apply (filter_map_comm (ends_at t) (trace g s)).
  - intros <-.
    assert (HL : List.filter keep (walks_from fuel g s) = [[]]).
    { assert (Hnil : [] ∈ List.filter keep (walks_from fuel g s))
        by (apply Hmem; constructor).
      destruct (List.filter keep (walks_from fuel g s)) as [|a [|b L]] eqn:E.
      - by apply elem_of_nil in Hnil.
      - apply list_elem_of_singleton in Hnil. by subst.
      - exfalso. apply NoDup_cons in Hnd as [Hab _].
        assert (Ha : a = []) by (apply (Hac s), Hmem; left).
        assert (Hb : b = []) by (apply (Hac s), Hmem; right; left).
        subst. apply Hab. left. }
    by rewrite HL.
Qed.

(** C10: [GraphPaths] raises [TypeError] when [g] is not a [DiGraph];
    for a [DiGraph] it raises [ValueError] when a supplied source or target
    is not a vertex; and an object that is returned stores exactly the
    arguments given (graph, source and target; an argument that was not
    supplied is not stored). *)
Theorem C10_GraphPaths_constructor (o : pyobject) (source target : option V) :
  (o = OtherObject →
     GraphPaths o source target = inl (TypeError "g must be a DiGraph")) ∧
  (∀ g, o = IsDiGraph g →
     (∃ s, source = Some s ∧ s ∉ vertices g) ∨
     (∃ t, target = Some t ∧ t ∉ vertices g) →
     ∃ msg, GraphPaths o source target = inl (ValueError msg)) ∧
  (∀ p, GraphPaths o source target = inr p →
     o = IsDiGraph (attr_graph p) ∧
     attr_source p = source ∧ attr_target p = target).
Proof.
  split; [by intros ->|]. split.
  - intros g -> Hbad. simpl. unfold has_vertex.
    destruct source as [s|], target as [t|]; simpl;
      repeat case_bool_decide; simpl; eauto;
      destruct Hbad as [(x & [= <-] & Hx)|(x & [= <-] & Hx)]; done.
  - intros p Hp. destruct o as [g|]; [|done]. simpl in Hp.
    destruct source as [s|], target as [t|]; simpl in Hp;
      repeat (destruct (has_vertex _ _); simpl in Hp; try done);
      injection Hp as <-; done.
Qed.

End Paths.

Arguments DiGraph : clear implicits.
Arguments pyobject : clear implicits.
Arguments paths_class : clear implicits.

(** ** The graph of the docstrings:
    [DiGraph({1:[2,2,3], 2:[3,4], 3:[4], 4:[5,5]}, multiedges=True)] *)
Definition example_graph : DiGraph nat :=
  mkDiGraph [1; 2; 3; 4; 5]
    [(1, 2); (1, 2); (1, 3); (2, 3); (2, 4); (3, 4); (4, 5); (4, 5)].

Lemma example_graph_acyclic : acyclic example_graph.
Proof.
  apply (acyclic_of_rank (λ v, v)). unfold example_graph. simpl.
  repeat constructor; simpl; lia.
Qed.

Example doctest_list_source_3 :
  list_ 9 (GraphPaths_s example_graph 3)
  = Some [[3]; [3; 4]; [3; 4; 5]; [3; 4; 5]].
Proof. reflexivity. Qed.

Example doctest_list_target_3 :
  list_ 9 (GraphPaths_t example_graph 3)
  = Some [[3]; [1; 3]; [2; 3]; [1; 2; 3]; [1; 2; 3]].
Proof. reflexivity. Qed.

Example doctest_list_1_3 :
  list_ 9 (GraphPaths_st example_graph 1 3)
  = Some [[1; 2; 3]; [1; 2; 3]; [1; 3]].
Proof. reflexivity. Qed.

Example doctest_count_all :
  count 9 (GraphPaths_all example_graph) = Some 37.
Proof. reflexivity. Qed.

Example doctest_count_1_5 :
  count 9 (GraphPaths_st example_graph 1 5) = Some 10.
Proof. reflexivity. Qed.

(** A two-cycle: the recursion does not return. *)
Example cycle_does_not_return n :
  outgoing_paths n (mkDiGraph [1; 2] [(1, 2); (2, 1)]) 1 = None.
Proof.
  apply (outgoing_paths_diverges_on_cycle _ 1 [0; 1]); [|done].
  repeat econstructor.
Qed.

Lemma C9_paths_terminate_witness :
  acyclic example_graph ∧
  length (edges example_graph) < 9 ∧
  (∀ v, is_Some (outgoing_paths 9 example_graph v)) ∧
  (∀ v, is_Some (incoming_paths 9 example_graph v)) ∧
  (∀ p, attr_graph p = example_graph →
        is_Some (list_ 9 p) ∧ is_Some (count 9 p)).
Proof.
  split; [exact example_graph_acyclic|].
  split; [simpl; lia|].
  apply (C9_paths_terminate example_graph example_graph_acyclic 9).
  simpl; lia.
Defined.

Lemma C4_list_st_exactly_the_paths_witness :
  ∃ L : list (list nat),
    list_ 9 (GraphPaths_st example_graph 1 3)
    = Some (map (trace example_graph 1) L) ∧
    NoDup L ∧
    (∀ es, es ∈ L ↔ walk example_graph 1 es 3) ∧
    (1 = 3 → map (trace example_graph 1) L = [[1]]).
Proof.
  apply (C4_list_st_exactly_the_paths example_graph 1 3
           (GraphPaths_st example_graph 1 3) example_graph_acyclic).
  - reflexivity.
  - simpl; lia.
Defined.

Lemma C10_GraphPaths_constructor_witness :
  (∃ msg, GraphPaths (IsDiGraph example_graph) (Some 1) (Some 7)
          = inl (ValueError msg)) ∧
  GraphPaths (@OtherObject nat) (Some 1) (Some 3)
  = inl (TypeError "g must be a DiGraph").
Proof.
  split.
  - apply (C10_GraphPaths_constructor (IsDiGraph example_graph)
             (Some 1) (Some 7)) with (g := example_graph); [reflexivity|].
    right. exists 7. split; [reflexivity|]. simpl.
    rewrite !elem_of_cons, elem_of_nil. lia.
  - by apply (C10_GraphPaths_constructor OtherObject (Some 1) (Some 3)).
Defined.

(** ** Further properties of the path classes *)

Section PathClasses.

Context {V : Type} `{EqDecision V}.

(** The vertex sequence of a walk that is continued by one edge. *)
Lemma trace_snoc (g : DiGraph V) a b es i x u :
  walk g a es b → edges g !! i = Some (x, u) →
  trace g a (es ++ [i]) = trace g a es ++ [u].
Proof.
  intros Hw Hi. induction Hw as [|j c w es t Hj Hw IH]; simpl.
  - by rewrite Hi.
  - rewrite Hj. by rewrite IH.
Qed.

Lemma transpose_transpose (g : DiGraph V) : transpose (transpose g) = g.
Proof.
  destruct g as [vs es]. unfold transpose. simpl. f_equal.
  rewrite map_map. rewrite <- (map_id es) at 2. apply map_ext.
  by intros [a b].
Qed.

Lemma walk_transpose_inv (g : DiGraph V) a b es :
  walk g a es b → walk (transpose g) b (reverse es) a.
Proof.
  intros Hw. rewrite <- (transpose_transpose g) in Hw.
  by apply walk_transpose in Hw.
Qed.

(** Read backwards, the vertices of a walk of the transposed graph are
    the vertices of the reversed walk. *)
Lemma trace_transpose (g : DiGraph V) t es s :
  walk (transpose g) t es s →
  reverse (trace (transpose g) t es) = trace g s (reverse es).
Proof.
  induction 1 as [|i u w es s Hi Hw IH]; [done|].
  cbn [trace]. rewrite Hi, reverse_cons, IH.
  simpl in Hi. rewrite list_lookup_fmap in Hi.
  destruct (edges g !! i) as [[x y]|] eqn:He; [|done].
  injection Hi as <- <-. rewrite reverse_cons.
  symmetry. eapply trace_snoc; [|exact He].
  by apply walk_transpose in Hw.
Qed.

(** The vertex at which an edge sequence starting at [s] ends. *)
Definition endpoint (g : DiGraph V) (s : V) (es : list nat) : V :=
  default s (last (trace g s es)).

Lemma endpoint_walk (g : DiGraph V) s es t :
  walk g s es t → endpoint g s es = t.
Proof. intros Hw. unfold endpoint. by rewrite (trace_last _ _ _ _ Hw). Qed.

(** What a call of [outgoing_paths] returns: the vertex sequences of the
    walks from [v], each edge sequence once. *)
Lemma outgoing_paths_walks (g : DiGraph V) v fuel l :
  outgoing_paths fuel g v = Some l →
  l = map (trace g v) (walks_from fuel g v) ∧
  ∀ es, es ∈ walks_from fuel g v ↔ ∃ t, walk g v es t.
Proof.
  intros Hl. split; [by apply outgoing_paths_trace|].
  intros es. rewrite elem_of_walks_from. split; [tauto|].
  intros [t Hw]. split; [|by exists t].
  eapply outgoing_paths_bound; eauto.
Qed.

(** The walks that end at [t], each with its first vertex. *)
Definition walks_to (fuel : nat) (g : DiGraph V) (t : V)
  : list (V * list nat) :=
  map (λ es, (endpoint (transpose g) t es, reverse es))
      (walks_from fuel (transpose g) t).

Lemma incoming_paths_walks (g : DiGraph V) t fuel l :
  incoming_paths fuel g t = Some l →
  l = map (λ ses, trace g ses.1 ses.2) (walks_to fuel g t) ∧
  NoDup (walks_to fuel g t) ∧
  ∀ s es, (s, es) ∈ walks_to fuel g t ↔ walk g s es t.
Proof.
  rewrite incoming_paths_transpose.
  destruct (outgoing_paths fuel (transpose g) t) as [l'|] eqn:Hl'; [|done].
  intros [= <-]. apply outgoing_paths_walks in Hl' as [-> Hmem].
  unfold walks_to. split; [|split].
  - rewrite !map_map. apply map_ext_in. intros es Hes. simpl.
    apply list_elem_of_In, Hmem in Hes as [s Hw].
    rewrite (endpoint_walk _ _ _ _ Hw). by apply trace_transpose.
  - apply NoDup_fmap_2_strong; [|apply walks_from_NoDup].
    intros es1 es2 _ _ [= _ Hrev].
    by apply (inj reverse) in Hrev.
  - intros s es. rewrite list_elem_of_fmap. split.
    + intros (es' & [= -> ->] & Hes'). apply Hmem in Hes' as [s' Hw].
      rewrite (endpoint_walk _ _ _ _ Hw). by apply walk_transpose.
    + intros Hw. exists (reverse es).
      apply walk_transpose_inv in Hw.
      rewrite (endpoint_walk _ _ _ _ Hw), reverse_involutive.
      split; [done|]. apply Hmem. by exists s.
Qed.

(** X1: [GraphPaths(g, source=s).list()], whenever it returns, lists the
    vertex sequences of exactly the directed walks that start at [s], one
    entry per edge sequence; the first entry is the trivial path [[s]]. *)
Theorem list_s_exactly_the_walks (g : DiGraph V) (s : V) fuel l :
  list_ fuel (GraphPaths_s g s) = Some l →
  ∃ L : list (list nat),
    l = map (trace g s) L ∧
    NoDup L ∧
    (∀ es, es ∈ L ↔ ∃ t, walk g s es t) ∧
    head l = Some [s].
Proof.
  simpl. intros Hl. exists (walks_from fuel g s).
  destruct (outgoing_paths_walks _ _ _ _ Hl) as [-> Hmem].
  split; [done|]. split; [apply walks_from_NoDup|]. split; [done|].
  destruct fuel; [done|]. done.
Qed.

(** X2: [GraphPaths(g, target=t).list()], whenever it returns, lists the
    vertex sequences of exactly the directed walks that end at [t], one
    entry per first vertex and edge sequence; the first entry is the
    trivial path [[t]]. *)
Theorem list_t_exactly_the_walks (g : DiGraph V) (t : V) fuel l :
  list_ fuel (GraphPaths_t g t) = Some l →
  ∃ L : list (V * list nat),
    l = map (λ ses, trace g ses.1 ses.2) L ∧
    NoDup L ∧
    (∀ s es, (s, es) ∈ L ↔ walk g s es t) ∧
    head l = Some [t].
Proof.
  simpl. intros Hl. exists (walks_to fuel g t).
  destruct (incoming_paths_walks _ _ _ _ Hl) as (-> & Hnd & Hmem).
  split; [done|]. split; [done|]. split; [done|].
  destruct fuel; [done|]. done.
Qed.

(** X3: [GraphPaths(g).list()], whenever it returns, lists the walks of all
    start vertices, in the order of [g.vertices()]: an entry for every
    vertex [s] of the graph and every directed walk from [s], and no
    other; [count()] is the number of these walks. *)
Theorem list_all_exactly_the_walks (g : DiGraph V) fuel l :
  list_ fuel (GraphPaths_all g) = Some l →
  ∃ L : list (V * list nat),
    l = map (λ ses, trace g ses.1 ses.2) L ∧
    (∀ s es, (s, es) ∈ L ↔ s ∈ vertices g ∧ ∃ t, walk g s es t) ∧
    (NoDup (vertices g) → NoDup L) ∧
    count fuel (GraphPaths_all g) = Some (length L).
Proof.
  unfold count. simpl. unfold paths. intros Hl.
  rewrite (for_each_append (λ v, outgoing_paths fuel g v) id) in Hl.
  destruct (mapM _ _) as [ts|] eqn:Hts; [|done].
  injection Hl as <-. simpl.
  rewrite (for_each_append (λ v, outgoing_paths fuel g v) id), Hts. simpl.
  apply mapM_Some in Hts.
  exists (concat (map (λ v, map (pair v) (walks_from fuel g v)) (vertices g))).
  assert (Heq : [] ++ concat (map id ts)
                = map (λ ses : V * list nat, trace g ses.1 ses.2)
                    (concat (map (λ v, map (pair v) (walks_from fuel g v))
                                 (vertices g)))).
  { rewrite concat_map, !map_map.
    f_equal. induction Hts as [|v ts' vs tss Hv _ IH]; [done|].
    simpl. f_equal; [|done].
    apply outgoing_paths_trace in Hv. by rewrite Hv, map_map. }
  split; [|split; [|split]].
  - done.
  - intros s es. rewrite elem_of_concat. split.
    + intros (l' & Hin & Hl'). apply list_elem_of_fmap in Hl' as (v & -> & Hv).
      apply list_elem_of_fmap in Hin as (es' & [= -> ->] & Hes).
      split; [done|]. by apply elem_of_walks_from in Hes as [_ ?].
    + intros (Hs & t & Hw). exists (map (pair s) (walks_from fuel g s)).
      split; [|apply list_elem_of_fmap; by exists s].
      apply list_elem_of_fmap. exists es. split; [done|].
      apply elem_of_walks_from. split; [|by exists t].
      apply list_elem_of_lookup in Hs as [i Hi].
      destruct (Forall2_lookup_l _ _ _ _ _ Hts Hi) as (ps & _ & Hps).
      eapply outgoing_paths_bound; eauto.
  - clear Hts Heq. induction (vertices g) as [|v vs IH]; [constructor|].
    rewrite NoDup_cons. intros [Hv Hvs]. simpl.
    apply NoDup_app. split; [|split; [|by apply IH]].
    + apply NoDup_fmap_2; [by intros ?? [=]|apply walks_from_NoDup].
    + intros [s es] Hin Hin'.
      apply list_elem_of_fmap in Hin as (? & [= -> ->] & _).
      apply elem_of_concat in Hin' as (l' & Hin' & Hl').
      apply list_elem_of_fmap in Hl' as (v' & -> & Hv').
      apply list_elem_of_fmap in Hin' as (? & [= -> ->] & _). done.
  - simpl in Heq. by rewrite Heq, length_map.
Qed.

(** X4: The paths from [s] to [t] are found among the outgoing paths of [s]
    by their last vertex; the same paths are found among the incoming
    paths of [t] by their first vertex. *)
Theorem list_st_from_either_end (g : DiGraph V) (s t : V) fuel l1 l2 :
  list_ fuel (GraphPaths_st g s t) = Some l1 →
  list_ fuel (GraphPaths_t g t) = Some l2 →
  l1 ≡ₚ List.filter (λ path, bool_decide (head path = Some s)) l2.
Proof.
  simpl. unfold paths_from_source_to_target.
  destruct (outgoing_paths fuel g s) as [l|] eqn:Hl; [|done].
  intros [= <-] Hl2.
  apply outgoing_paths_walks in Hl as [-> Hmem].
  apply incoming_paths_walks in Hl2 as (-> & Hnd2 & Hmem2).
  rewrite (filter_map_comm (ends_at t) (trace g s)).
  rewrite (filter_map_comm (λ path, bool_decide (head path = Some s))
             (λ ses : V * list nat, trace g ses.1 ses.2)).
  set (L1 := List.filter (λ es, ends_at t (trace g s es)) (walks_from fuel g s)).
  set (L2 := List.filter _ (walks_to fuel g t)).
  replace (map (trace g s) L1)
    with (map (λ ses : V * list nat, trace g ses.1 ses.2) (map (pair s) L1))
    by by rewrite map_map.
  apply Permutation_map, NoDup_Permutation.
  - apply NoDup_fmap_2; [by intros ?? [=]|].
    apply NoDup_ListNoDup, List.NoDup_filter, NoDup_ListNoDup.
    apply walks_from_NoDup.
  - by apply NoDup_ListNoDup, List.NoDup_filter, NoDup_ListNoDup.
  - intros [s' es]. unfold L1, L2.
    rewrite list_elem_of_fmap.
    rewrite (list_elem_of_In (List.filter _ (walks_to fuel g t))).
    rewrite filter_In, <- list_elem_of_In, Hmem2. simpl.
    assert (Hhead : ∀ a, head (trace g a es) = Some a).
    { intros a. destruct es as [|i es]; [done|]. simpl.
      by destruct (edges g !! i) as [[]|]. }
    rewrite Hhead, bool_decide_eq_true. split.
    + intros (es' & [= -> ->] & Hin).
      apply list_elem_of_In, filter_In in Hin as [Hin He].
      apply list_elem_of_In, Hmem in Hin as [t' Hw].
      apply (ends_at_trace _ _ _ t _ Hw) in He. by subst t'.
    + intros [Hw [= ->]]. exists es. split; [done|].
      apply list_elem_of_In, filter_In. split.
      * apply list_elem_of_In, Hmem. by exists t.
      * by apply (ends_at_trace _ _ _ t _ Hw).
Qed.

(** X5: [outgoing_paths(v)] returns if and only if the directed walks that
    start at [v] have bounded length. When a directed cycle can be reached
    from [v] the recursion never returns, whatever depth is allowed, and
    likewise [incoming_paths(v)] when a cycle reaches [v]. *)
Theorem outgoing_paths_returns_iff (g : DiGraph V) (v : V) :
  ((∃ fuel, is_Some (outgoing_paths fuel g v))
   ↔ ∃ n, ∀ es t, walk g v es t → length es < n) ∧
  (∀ u es1 es2, walk g v es1 u → walk g u es2 u → es2 ≠ [] →
                ∀ fuel, outgoing_paths fuel g v = None) ∧
  (∀ u es1 es2, walk g u es1 v → walk g u es2 u → es2 ≠ [] →
                ∀ fuel, incoming_paths fuel g v = None).
Proof.
  assert (Hcycle : ∀ (g : DiGraph V) v u es1 es2,
            walk g v es1 u → walk g u es2 u → es2 ≠ [] →
            ∀ fuel, outgoing_paths fuel g v = None).
  { clear g v. intros g v u es1 es2 Hw1 Hw2 Hne fuel.
    destruct (outgoing_paths fuel g v) as [l|] eqn:Hl; [exfalso|done].
    assert (Hrep : ∀ k, ∃ es', walk g u es' u ∧ k ≤ length es').
    { induction k as [|k [es' [Hw' Hk]]].
      - exists []. split; [constructor|simpl; lia].
      - exists (es2 ++ es'). split; [by eapply walk_app|].
        rewrite length_app. destruct es2; [done|simpl; lia]. }
    destruct (Hrep fuel) as (es' & Hw' & Hk).
    pose proof (walk_app _ _ _ _ _ _ Hw1 Hw') as Hw.
    pose proof (outgoing_paths_bound _ _ _ _ _ _ Hl Hw) as Hb.
    rewrite length_app in Hb. lia. }
  split; [|split].
  - split.
    + intros [fuel [l Hl]]. exists fuel. intros es t Hw.
      eapply outgoing_paths_bound; eauto.
    + intros [n Hn]. exists n. by apply outgoing_paths_returns.
  - apply Hcycle.
  - intros u es1 es2 Hw1 Hw2 Hne fuel.
    rewrite incoming_paths_transpose.
    rewrite (Hcycle (transpose g) v u (reverse es1) (reverse es2)); [done|..].
    + by apply walk_transpose_inv.
    + by apply walk_transpose_inv.
    + intros Hr. apply Hne. by rewrite <- (reverse_involutive es2), Hr.
Qed.

End PathClasses.

Lemma list_s_exactly_the_walks_witness :
  ∃ L : list (list nat),
    [[3]; [3; 4]; [3; 4; 5]; [3; 4; 5]] = map (trace example_graph 3) L ∧
    NoDup L ∧
    (∀ es, es ∈ L ↔ ∃ t, walk example_graph 3 es t) ∧
    head [[3]; [3; 4]; [3; 4; 5]; [3; 4; 5]] = Some [3].
Proof.
  apply (list_s_exactly_the_walks example_graph 3 9). reflexivity.
Defined.

Lemma list_t_exactly_the_walks_witness :
  ∃ L : list (nat * list nat),
    [[3]; [1; 3]; [2; 3]; [1; 2; 3]; [1; 2; 3]]
    = map (λ ses, trace example_graph ses.1 ses.2) L ∧
    NoDup L ∧
    (∀ s es, (s, es) ∈ L ↔ walk example_graph s es 3) ∧
    head [[3]; [1; 3]; [2; 3]; [1; 2; 3]; [1; 2; 3]] = Some [3].
Proof.
  apply (list_t_exactly_the_walks example_graph 3 9). reflexivity.
Defined.

(** All the paths of the graph of the docstrings. *)
Definition example_paths : list (list nat) :=
  Eval vm_compute in default [] (list_ 9 (GraphPaths_all example_graph)).

Lemma list_all_exactly_the_walks_witness :
  ∃ L : list (nat * list nat),
    example_paths = map (λ ses, trace example_graph ses.1 ses.2) L ∧
    (∀ s es, (s, es) ∈ L
             ↔ s ∈ vertices example_graph ∧ ∃ t, walk example_graph s es t) ∧
    (NoDup (vertices example_graph) → NoDup L) ∧
    count 9 (GraphPaths_all example_graph) = Some (length L).
Proof.
  apply (list_all_exactly_the_walks example_graph 9). reflexivity.
Defined.

Lemma list_st_from_either_end_witness :
  [[1; 2; 3]; [1; 2; 3]; [1; 3]]
  ≡ₚ List.filter (λ path, bool_decide (head path = Some 1))
       [[3]; [1; 3]; [2; 3]; [1; 2; 3]; [1; 2; 3]].
Proof.
  apply (list_st_from_either_end example_graph 1 3 9); reflexivity.
Defined.

(** A graph with a cycle [1 -> 2 -> 1] that is reached from the vertex
    [0]: the paths from [0] are never returned. *)
Definition reached_cycle : DiGraph nat :=
  mkDiGraph [0; 1; 2] [(0, 1); (1, 2); (2, 1)].

Lemma outgoing_paths_returns_iff_witness :
  outgoing_paths 9 reached_cycle 0 = None.
Proof.
  apply (proj1 (proj2 (outgoing_paths_returns_iff reached_cycle 0))
           1 [0] [1; 2]).
  - repeat econstructor.
  - repeat econstructor.
  - discriminate.
Defined.

End GraphPath.

(* ===================================================================== *)
(** * Coefficient rings

    The base ring of a module or of a Lie algebra, as far as the code
    uses it: zero, addition, negation and the test for equality. *)
(* ===================================================================== *)

Class CoefficientRing (R : Type) `{EqDecision R} := {
  ring_zero : R;
  ring_add : R → R → R;
  ring_opp : R → R;
  ring_add_assoc :
    ∀ a b c, ring_add a (ring_add b c) = ring_add (ring_add a b) c;
  ring_add_comm : ∀ a b, ring_add a b = ring_add b a;
  ring_add_0_l : ∀ a, ring_add ring_zero a = a;
  ring_opp_involutive : ∀ a, ring_opp (ring_opp a) = a;
  ring_opp_zero : ring_opp ring_zero = ring_zero;
}.

Lemma ring_add_0_r `{CoefficientRing R} (a : R) : ring_add a ring_zero = a.
Proof. by rewrite ring_add_comm, ring_add_0_l. Qed.

Lemma ring_opp_eq_zero `{CoefficientRing R} (a : R) :
  ring_opp a = ring_zero ↔ a = ring_zero.
Proof.
  split; intros Ha.
  - by rewrite <- (ring_opp_involutive a), Ha, ring_opp_zero.
  - by rewrite Ha, ring_opp_zero.
Qed.

(** The integers [ZZ]. *)
#[global] Instance Z_coefficients : CoefficientRing Z := {|
  ring_zero := 0%Z;
  ring_add := Z.add;
  ring_opp := Z.opp;
  ring_add_assoc := Z.add_assoc;
  ring_add_comm := Z.add_comm;
  ring_add_0_l := Z.add_0_l;
  ring_opp_involutive := Z.opp_involutive;
  ring_opp_zero := eq_refl;
|}.

(* ===================================================================== *)
(** * sage/categories/filtered_modules_with_basis.py *)
(* ===================================================================== *)

Module FilteredModules.

Inductive exception :=
| ValueError (msg : string).

Section ElementMethods.

(** The indexing set [J] of the basis, the base ring [R], the degree of
    each basis index, and the order on indices by which the parent picks
    the leading support. An element is its dictionary of monomial
    coefficients; the parent keeps no zero coefficient in it, so the zero
    element is the empty dictionary. *)
Context {J : Type} `{Countable J}.
Context {R : Type} `{CoefficientRing R}.
Variable degree_on_basis : J → Z.
Variable index_le : J → J → bool.

(** [for (i, c) in self] and [self.support()] *)
Definition items (x : gmap J R) : list (J * R) := map_to_list x.
Definition support (x : gmap J R) : list J := map fst (items x).

(** [leading_support()] of the parent's element class: the largest index
    of the support. *)
Definition leading_support (x : gmap J R) : option J :=
  match support x with
  | [] => None
  | m :: ms => Some (foldl (λ a b, if index_le a b then b else a) m ms)
  end.

(** The loop of [is_homogeneous], with its local variable [degree]. *)
Fixpoint is_homogeneous_loop (degree : option Z) (ms : list J) : bool :=
  match ms with
  | [] => true
  | m :: ms' =>
      match degree with
      | None => is_homogeneous_loop (Some (degree_on_basis m)) ms'
      | Some d =>
          if bool_decide (d ≠ degree_on_basis m) then false
          else is_homogeneous_loop degree ms'
      end
  end.

Definition is_homogeneous (x : gmap J R) : bool :=
  is_homogeneous_loop None (support x).

Definition degree (x : gmap J R) : exception + Z :=
  match support x with
  | [] => inl (ValueError
                 "the zero element does not have a well-defined degree")
  | _ :: _ =>
      if negb (is_homogeneous x)
      then inl (ValueError "element is not homogeneous")
      else match leading_support x with
           | Some m => inr (degree_on_basis m)
           | None => inl (ValueError "empty support")
           end
  end.

(** [sum_of_terms] of the parent: the sum of the terms [c * B[i]];
    coefficients of equal indices add up and a zero coefficient is not
    stored. *)
Definition add_term (d : gmap J R) (ic : J * R) : gmap J R :=
  let c := ring_add (default ring_zero (d !! ic.1)) ic.2 in
  if bool_decide (c = ring_zero) then delete ic.1 d else <[ic.1 := c]> d.

Definition sum_of_terms (terms : list (J * R)) : gmap J R :=
  foldl add_term ∅ terms.

Definition homogeneous_component (x : gmap J R) (n : Z) : gmap J R :=
  sum_of_terms (filter (λ ic, degree_on_basis ic.1 = n) (items x)).

Definition truncate (x : gmap J R) (n : Z) : gmap J R :=
  sum_of_terms (filter (λ ic, (degree_on_basis ic.1 < n)%Z) (items x)).

(** Addition of two elements and the sum of a list of elements. *)
Definition add (x y : gmap J R) : gmap J R := foldl add_term x (items y).

Definition sum (xs : list (gmap J R)) : gmap J R := foldl add ∅ xs.

(** ** Specification side *)

(** An element is homogeneous when its support lies in a single graded
    component. *)
Definition homogeneous (x : gmap J R) : Prop :=
  ∃ d, ∀ m, m ∈ support x → degree_on_basis m = d.

(** The coefficient of a basis index, zero outside the support. *)
Definition coeff (x : gmap J R) (j : J) : R := default ring_zero (x !! j).

(** The invariant of the element class: no zero coefficient is stored. *)
Definition normalized (x : gmap J R) : Prop :=
  ∀ j, x !! j ≠ Some ring_zero.

(** The degrees occurring in the support, each once. *)
Definition degrees (x : gmap J R) : list Z :=
  remove_dups (map degree_on_basis (support x)).

(** ** Homogeneity and degree *)

Lemma is_homogeneous_loop_Some d ms :
  is_homogeneous_loop (Some d) ms = true
  ↔ ∀ m, m ∈ ms → degree_on_basis m = d.
Proof.
  induction ms as [|m ms IH]; simpl.
  - split; [|done]. intros _ m Hm. by apply elem_of_nil in Hm.
  - case_bool_decide as Hd; simpl.
    + split; [done|]. intros Hall. exfalso. apply Hd.
      symmetry. apply Hall. left.
    + rewrite IH. split.
      * intros Hall m' [->|Hm']%elem_of_cons; [|auto].
        destruct (decide (d = degree_on_basis m)); [done|]. by destruct Hd.
      * intros Hall m' Hm'. apply Hall. by right.
Qed.

Lemma is_homogeneous_spec x : is_homogeneous x = true ↔ homogeneous x.
Proof.
  unfold is_homogeneous, homogeneous.
  destruct (support x) as [|m ms]; simpl.
  - split; [|done]. intros _. exists 0%Z. intros m Hm.
    by apply elem_of_nil in Hm.
  - rewrite is_homogeneous_loop_Some. split.
    + intros Hall. exists (degree_on_basis m).
      intros m' [->|Hm']%elem_of_cons; auto.
    + intros [d Hd] m' Hm'.
      rewrite (Hd m) by left. apply Hd. by right.
Qed.

Lemma support_nil x : support x = [] ↔ x = ∅.
Proof.
  unfold support, items. rewrite <- map_to_list_empty_iff.
  destruct (map_to_list x); simpl; split; congruence.
Qed.

Lemma leading_support_in x m : leading_support x = Some m → m ∈ support x.
Proof.
  unfold leading_support. destruct (support x) as [|a ms]; [done|].
  intros [= <-].
  assert (Hgen : ∀ l a0, foldl (λ a b, if index_le a b then b else a) a0 l
                         ∈ a0 :: l).
  { induction l as [|b l IH]; intros a0; simpl; [left|].
    specialize (IH (if index_le a0 b then b else a0)).
    apply elem_of_cons in IH as [->|IH].
    - destruct (index_le a0 b); [right; left|left].
    - right. by right. }
  apply Hgen.
Qed.

(** C7: [x.degree()] raises [ValueError] if and only if [x] is the zero
    element or [x] is not homogeneous; a value that is returned is the
    common value of [degree_on_basis] over the (non-empty) support. *)
Theorem C7_degree_raises_iff (x : gmap J R) :
  ((∃ msg, degree x = inl (ValueError msg)) ↔ x = ∅ ∨ ¬ homogeneous x) ∧
  (∀ d, degree x = inr d →
        x ≠ ∅ ∧ ∀ m, m ∈ support x → degree_on_basis m = d).
Proof.
  pose proof (support_nil x) as Hnil.
  pose proof (is_homogeneous_spec x) as Hhom.
  pose proof (leading_support_in x) as Hlead.
  unfold degree, leading_support in *.
  destruct (support x) as [|a ms] eqn:Hsup.
  - split.
    + split; [intros _; left; by apply Hnil|eauto].
    + done.
  - assert (Hne : x ≠ ∅) by (intros Hx; by apply Hnil in Hx).
    destruct (is_homogeneous x) eqn:Hih; simpl.
    + destruct (proj1 Hhom eq_refl) as [d Hd]. split.
      * split; [by intros [msg ?]|].
        intros [?|Hnh]; [done|]. destruct Hnh. by exists d.
      * intros d' [= <-]. split; [done|]. intros m Hm.
        rewrite <- Hsup in Hm. rewrite (Hd m Hm). symmetry. apply Hd.
        rewrite Hsup. by apply Hlead.
    + split; [|done]. split; [|eauto].
      intros _. right. intros Hh. apply Hhom in Hh. congruence.
Qed.

(** ** Coefficients of sums of terms *)

(** The sum of the coefficients that a list of terms gives to index [j]. *)
Definition term_sum (j : J) (terms : list (J * R)) : R :=
  foldr (λ ic acc, ring_add (if decide (ic.1 = j) then ic.2 else ring_zero)
                            acc)
        ring_zero terms.

Lemma coeff_add_term d ic j :
  coeff (add_term d ic) j
  = ring_add (coeff d j) (if decide (ic.1 = j) then ic.2 else ring_zero).
Proof.
  unfold add_term, coeff. destruct ic as [i c]. simpl.
  case_bool_decide as Hc; destruct (decide (i = j)) as [->|Hij].
  - rewrite lookup_delete_eq. simpl. by rewrite Hc.
  - rewrite lookup_delete_ne by done. by rewrite ring_add_0_r.
  - rewrite lookup_insert_eq. done.
  - rewrite lookup_insert_ne by done. by rewrite ring_add_0_r.
Qed.

Lemma normalized_add_term d ic : normalized d → normalized (add_term d ic).
Proof.
  intros Hd j. unfold add_term. destruct ic as [i c]. simpl.
  case_bool_decide as Hc; destruct (decide (i = j)) as [->|Hij].
  - by rewrite lookup_delete_eq.
  - rewrite lookup_delete_ne by done. apply Hd.
  - rewrite lookup_insert_eq. congruence.
  - rewrite lookup_insert_ne by done. apply Hd.
Qed.

Lemma coeff_foldl_add_term d terms j :
  coeff (foldl add_term d terms) j = ring_add (coeff d j) (term_sum j terms).
Proof.
  revert d. induction terms as [|ic terms IH]; intros d; simpl.
  - by rewrite ring_add_0_r.
  - by rewrite IH, coeff_add_term, ring_add_assoc.
Qed.

Lemma normalized_foldl_add_term d terms :
  normalized d → normalized (foldl add_term d terms).
Proof.
  revert d. induction terms as [|ic terms IH]; intros d Hd; simpl; [done|].
  by apply IH, normalized_add_term.
Qed.

Lemma normalized_empty : normalized ∅.
Proof. intros j. by rewrite lookup_empty. Qed.

(** Two normalized dictionaries with the same coefficients are equal. *)
Lemma normalized_eq x y :
  normalized x → normalized y → (∀ j, coeff x j = coeff y j) → x = y.
Proof.
  intros Hx Hy Hc. apply map_eq. intros j.
  specialize (Hc j). specialize (Hx j). specialize (Hy j). unfold coeff in Hc.
  destruct (x !! j) as [a|], (y !! j) as [b|]; simpl in Hc; congruence.
Qed.

Lemma term_sum_not_elem j terms :
  j ∉ map fst terms → term_sum j terms = ring_zero.
Proof.
  induction terms as [|[i c] terms IH]; simpl; [done|].
  rewrite not_elem_of_cons. intros [Hne Hni].
  destruct (decide (i = j)); [congruence|].
  rewrite IH by done. apply ring_add_0_l.
Qed.

Lemma term_sum_elem j c terms :
  NoDup (map fst terms) → (j, c) ∈ terms → term_sum j terms = c.
Proof.
  induction terms as [|[i c'] terms IH]; simpl.
  - intros _ Hin. by apply elem_of_nil in Hin.
  - rewrite NoDup_cons. intros [Hni Hnd] [[= <- <-]|Hin]%elem_of_cons.
    + rewrite decide_True by done. rewrite term_sum_not_elem by done.
      apply ring_add_0_r.
    + destruct (decide (i = j)) as [->|Hne].
      * destruct Hni. apply list_elem_of_fmap. by exists (j, c).
      * rewrite IH by done. apply ring_add_0_l.
Qed.

(** The terms of [x] whose index satisfies [P] sum up to the part of [x]
    on these indices. *)
Lemma term_sum_filter_items (P : J → Prop) `{∀ j, Decision (P j)} x j :
  term_sum j (filter (λ ic, P ic.1) (items x))
  = if decide (P j) then coeff x j else ring_zero.
Proof.
  assert (Hnd : NoDup (map fst (filter (λ ic : J * R, P ic.1) (items x)))).
  { unfold items. pose proof (NoDup_fst_map_to_list x) as Hx.
    induction (map_to_list x) as [|ic l IH]; [constructor|].
    simpl in Hx. apply NoDup_cons in Hx as [Hni Hx].
    rewrite filter_cons. destruct (decide (P ic.1)); [|auto].
    simpl. constructor; [|auto]. intros Hin. apply Hni.
    apply list_elem_of_fmap in Hin as (y & -> & Hy).
    apply list_elem_of_fmap. exists y. split; [done|].
    by apply list_elem_of_filter in Hy as [_ ?]. }
  unfold coeff. destruct (decide (P j)) as [HP|HP].
  - destruct (x !! j) as [c|] eqn:Hj; simpl.
    + apply term_sum_elem; [done|]. apply list_elem_of_filter.
      split; [done|]. by apply elem_of_map_to_list.
    + apply term_sum_not_elem. intros Hin.
      apply list_elem_of_fmap in Hin as ([i c] & -> & Hy).
      apply list_elem_of_filter in Hy as [_ Hy].
      apply elem_of_map_to_list in Hy. simpl in Hj. congruence.
  - apply term_sum_not_elem. intros Hin.
    apply list_elem_of_fmap in Hin as ([i c] & -> & Hy).
    by apply list_elem_of_filter in Hy as [? _].
Qed.

Lemma term_sum_items x j : term_sum j (items x) = coeff x j.
Proof.
  pose proof (term_sum_filter_items (λ _, True) x j) as Hf.
  rewrite decide_True in Hf by done. rewrite <- Hf. clear Hf. f_equal.
  induction (items x) as [|ic l IH]; [done|].
  rewrite filter_cons. rewrite decide_True by done. by f_equal.
Qed.

Lemma coeff_empty j : coeff ∅ j = ring_zero.
Proof. unfold coeff. by rewrite lookup_empty. Qed.

Lemma coeff_truncate x n j :
  coeff (truncate x n) j
  = if decide (degree_on_basis j < n)%Z then coeff x j else ring_zero.
Proof.
  unfold truncate, sum_of_terms.
  rewrite coeff_foldl_add_term, coeff_empty, ring_add_0_l.
  exact (term_sum_filter_items (λ i, (degree_on_basis i < n)%Z) x j).
Qed.

Lemma coeff_homogeneous_component x n j :
  coeff (homogeneous_component x n) j
  = if decide (degree_on_basis j = n) then coeff x j else ring_zero.
Proof.
  unfold homogeneous_component, sum_of_terms.
  rewrite coeff_foldl_add_term, coeff_empty, ring_add_0_l.
  exact (term_sum_filter_items (λ i, degree_on_basis i = n) x j).
Qed.

Lemma coeff_add x y j : coeff (add x y) j = ring_add (coeff x j) (coeff y j).
Proof. unfold add. by rewrite coeff_foldl_add_term, term_sum_items. Qed.

Lemma normalized_add x y : normalized x → normalized (add x y).
Proof. apply normalized_foldl_add_term. Qed.

Lemma coeff_foldl_add a xs j :
  coeff (foldl add a xs) j
  = ring_add (coeff a j) (foldr ring_add ring_zero (map (λ x, coeff x j) xs)).
Proof.
  revert a. induction xs as [|x xs IH]; intros a; simpl.
  - by rewrite ring_add_0_r.
  - by rewrite IH, coeff_add, ring_add_assoc.
Qed.

Lemma normalized_sum xs : normalized (sum xs).
Proof.
  unfold sum. generalize normalized_empty. generalize (∅ : gmap J R).
  induction xs as [|x xs IH]; intros a Ha; simpl; [done|].
  by apply IH, normalized_add.
Qed.

Lemma sum_indicator (D : list Z) (d : Z) (c : R) :
  NoDup D →
  foldr ring_add ring_zero
        (map (λ i, if decide (d = i) then c else ring_zero) D)
  = if decide (d ∈ D) then c else ring_zero.
Proof.
  induction D as [|i D IH]; intros Hnd.
  - destruct (decide (d ∈ [])) as [Hin|_]; [|done].
    by apply elem_of_nil in Hin.
  - apply NoDup_cons in Hnd as [Hni Hnd]. specialize (IH Hnd).
    cbn [map foldr]. rewrite IH.
    destruct (decide (d = i)) as [Heq|Hne], (decide (d ∈ D)) as [Hin|Hin],
      (decide (d ∈ i :: D)) as [Hin'|Hin']; subst;
      rewrite ?ring_add_0_l, ?ring_add_0_r; try done.
    + destruct Hin'. left.
    + destruct Hin'. by right.
    + apply elem_of_cons in Hin' as [?|?]; done.
Qed.

(** The coefficients of a sum of homogeneous components over distinct
    degrees [D]. *)
Lemma coeff_sum_components x (D : list Z) j :
  NoDup D →
  coeff (sum (map (homogeneous_component x) D)) j
  = if decide (degree_on_basis j ∈ D) then coeff x j else ring_zero.
Proof.
  intros Hnd. unfold sum. rewrite coeff_foldl_add, coeff_empty, map_map.
  rewrite <- (sum_indicator D (degree_on_basis j) (coeff x j) Hnd).
  rewrite ring_add_0_l. f_equal. apply map_ext. intros i.
  apply coeff_homogeneous_component.
Qed.

Lemma coeff_outside_support x j : j ∉ support x → coeff x j = ring_zero.
Proof.
  intros Hj. unfold coeff. destruct (x !! j) as [c|] eqn:Hc; [|done].
  destruct Hj. apply list_elem_of_fmap. exists (j, c). split; [done|].
  by apply elem_of_map_to_list.
Qed.

Lemma elem_of_degrees x j : j ∈ support x → degree_on_basis j ∈ degrees x.
Proof.
  intros Hj. unfold degrees. rewrite elem_of_remove_dups.
  apply list_elem_of_fmap. by exists j.
Qed.

(** C5: [x.truncate(n)] is the sum of the homogeneous components of [x]
    over the degrees [i < n] that occur in the support of [x]; and [x] is
    the sum of all its homogeneous components. *)
Theorem C5_truncate_sum_of_components (x : gmap J R) (n : Z) :
  normalized x →
  truncate x n
  = sum (map (homogeneous_component x)
             (filter (λ i, (i < n)%Z) (degrees x))) ∧
  x = sum (map (homogeneous_component x) (degrees x)).
Proof using Type.
  intros Hx.
  assert (Hnd : NoDup (degrees x)) by apply NoDup_remove_dups.
  split.
  - apply normalized_eq.
    + apply normalized_foldl_add_term, normalized_empty.
    + apply normalized_sum.
    + intros j. rewrite coeff_truncate.
      rewrite coeff_sum_components by by apply NoDup_filter.
      destruct (decide (j ∈ support x)) as [Hj|Hj].
      * apply elem_of_degrees in Hj.
        destruct (decide (degree_on_basis j < n)%Z) as [Hlt|Hlt].
        -- rewrite decide_True; [done|]. by apply list_elem_of_filter.
        -- rewrite decide_False; [done|].
           rewrite list_elem_of_filter. by intros [? _].
      * rewrite (coeff_outside_support _ _ Hj). by repeat case_decide.
  - apply normalized_eq; [done|apply normalized_sum|].
    intros j. rewrite coeff_sum_components by done.
    destruct (decide (j ∈ support x)) as [Hj|Hj].
    + apply elem_of_degrees in Hj. by rewrite decide_True.
    + rewrite (coeff_outside_support _ _ Hj). by case_decide.
Qed.

End ElementMethods.

(** The example of the docstrings: the free module on partitions, with
    the size of a partition as degree. *)
Definition partition_size (p : list nat) : Z := Z.of_nat (sum_list p).

Fixpoint partition_le (p q : list nat) : bool :=
  match p, q with
  | [], _ => true
  | _ :: _, [] => false
  | a :: p', b :: q' =>
      if bool_decide (a = b) then partition_le p' q' else bool_decide (a < b)
  end.

Definition P321_2P222 : gmap (list nat) Z :=
  <[ [3; 2; 1] := 1%Z ]> (<[ [2; 2; 2] := 2%Z ]> ∅).

Definition P441_minus_P321 : gmap (list nat) Z :=
  <[ [4; 4; 1] := 1%Z ]> (<[ [3; 2; 1] := (-1)%Z ]> ∅).

Example doctest_degree_homogeneous :
  degree partition_size partition_le P321_2P222 = inr 6%Z.
Proof. vm_compute. reflexivity. Qed.

Example doctest_degree_not_homogeneous :
  degree partition_size partition_le P441_minus_P321
  = inl (ValueError "element is not homogeneous").
Proof. vm_compute. reflexivity. Qed.

Example degree_of_zero :
  degree partition_size partition_le (∅ : gmap (list nat) Z)
  = inl (ValueError "the zero element does not have a well-defined degree").
Proof. vm_compute. reflexivity. Qed.

(** [A.an_element()]: [2*P[] + 2*P[1] + 3*P[2]] *)
Definition an_element : gmap (list nat) Z :=
  <[ [] := 2%Z ]> (<[ [1] := 2%Z ]> (<[ [2] := 3%Z ]> ∅)).

Example doctest_truncate_2 :
  truncate partition_size an_element 2 = <[ [] := 2%Z ]> {[ [1] := 2%Z ]}.
Proof. vm_compute. reflexivity. Qed.

Example doctest_homogeneous_component_2 :
  homogeneous_component partition_size an_element 2 = {[ [2] := 3%Z ]}.
Proof. vm_compute. reflexivity. Qed.

Example doctest_homogeneous_component_3 :
  homogeneous_component partition_size an_element 3 = ∅.
Proof. vm_compute. reflexivity. Qed.

Lemma an_element_normalized : normalized an_element.
Proof.
  intros j. unfold an_element.
  rewrite !lookup_insert, lookup_empty. by repeat case_decide.
Qed.

Lemma C5_truncate_sum_of_components_witness :
  normalized an_element ∧
  truncate partition_size an_element 2
  = sum (map (homogeneous_component partition_size an_element)
             (filter (λ i, (i < 2)%Z) (degrees partition_size an_element))) ∧
  an_element
  = sum (map (homogeneous_component partition_size an_element)
             (degrees partition_size an_element)).
Proof.
  split; [exact an_element_normalized|].
  apply (C5_truncate_sum_of_components partition_size an_element 2).
  exact an_element_normalized.
Defined.

Lemma C7_degree_raises_iff_witness :
  P321_2P222 ≠ ∅ ∧
  ∀ m, m ∈ support P321_2P222 → partition_size m = 6%Z.
Proof.
  apply (proj2 (C7_degree_raises_iff partition_size partition_le P321_2P222)).
  vm_compute. reflexivity.
Defined.

(** ** How the element methods compose *)

Section Components.

Context {J : Type} `{Countable J}.
Context {R : Type} `{CoefficientRing R}.
Variable degree_on_basis : J → Z.
Variable index_le : J → J → bool.

Lemma normalized_sum_of_terms (terms : list (J * R)) :
  normalized (sum_of_terms terms).
Proof. apply normalized_foldl_add_term, normalized_empty. Qed.

Lemma normalized_homogeneous_component (x : gmap J R) n :
  normalized (homogeneous_component degree_on_basis x n).
Proof. apply normalized_sum_of_terms. Qed.

Lemma normalized_truncate (x : gmap J R) n : normalized (truncate degree_on_basis x n).
Proof. apply normalized_sum_of_terms. Qed.

(** An index of the support of a normalized element has a non-zero
    coefficient. *)
Lemma coeff_support (x : gmap J R) m :
  normalized x → m ∈ support x → coeff x m ≠ ring_zero.
Proof.
  intros Hx Hm. apply list_elem_of_fmap in Hm as ([j c] & -> & Hjc).
  apply elem_of_map_to_list in Hjc. unfold coeff. simpl. rewrite Hjc. simpl.
  intros ->. by apply (Hx j).
Qed.

Lemma support_homogeneous_component (x : gmap J R) n m :
  m ∈ support (homogeneous_component degree_on_basis x n) → degree_on_basis m = n.
Proof.
  intros Hm.
  apply coeff_support in Hm; [|apply normalized_homogeneous_component].
  rewrite coeff_homogeneous_component in Hm. by case_decide.
Qed.

Lemma eq_empty_coeff (x : gmap J R) :
  normalized x → (∀ j, coeff x j = ring_zero) → x = ∅.
Proof.
  intros Hx Hc. apply normalized_eq; [done|apply normalized_empty|].
  intros j. by rewrite Hc, coeff_empty.
Qed.

(** X6: [x.homogeneous_component(n)] is homogeneous, and of degree [n] unless
    it is zero. *)
Theorem homogeneous_component_degree (x : gmap J R) (n : Z) :
  is_homogeneous degree_on_basis (homogeneous_component degree_on_basis x n) = true ∧
  (homogeneous_component degree_on_basis x n ≠ ∅ →
   degree degree_on_basis index_le (homogeneous_component degree_on_basis x n) = inr n).
Proof.
  assert (Hhom : is_homogeneous degree_on_basis (homogeneous_component degree_on_basis x n) = true).
  { apply is_homogeneous_spec. exists n. intros m.
    apply (support_homogeneous_component x). }
  split; [done|]. intros Hne.
  pose proof (leading_support_in index_le (homogeneous_component degree_on_basis x n)) as Hl.
  pose proof (support_nil (homogeneous_component degree_on_basis x n)) as Hnil.
  unfold degree, leading_support in *.
  destruct (support (homogeneous_component degree_on_basis x n)) as [|a ms] eqn:Hsup.
  - destruct Hne. by apply Hnil.
  - rewrite Hhom. simpl. f_equal.
    apply (support_homogeneous_component x). rewrite Hsup. by apply Hl.
Qed.

(** X7: Truncating one degree further adds the homogeneous component of that
    degree: [x.truncate(n + 1) == x.truncate(n) +
    x.homogeneous_component(n)]. *)
Theorem truncate_succ (x : gmap J R) (n : Z) :
  truncate degree_on_basis x (n + 1)
  = add (truncate degree_on_basis x n) (homogeneous_component degree_on_basis x n).
Proof.
  apply normalized_eq.
  - apply normalized_truncate.
  - apply normalized_add, normalized_truncate.
  - intros j. rewrite coeff_add, !coeff_truncate, coeff_homogeneous_component.
    repeat case_decide; rewrite ?ring_add_0_l, ?ring_add_0_r; try done; lia.
Qed.

(** X8: Truncations and homogeneous components of truncations and of
    homogeneous components: [x.truncate(n).truncate(m)] is the truncation
    at the smaller bound, the component of degree [m] of [x.truncate(n)] is
    that of [x] when [m < n] and zero otherwise, and a homogeneous
    component is its own component of its degree and has no other. *)
Theorem truncate_truncate (x : gmap J R) (n m : Z) :
  truncate degree_on_basis (truncate degree_on_basis x n) m = truncate degree_on_basis x (Z.min n m) ∧
  homogeneous_component degree_on_basis (truncate degree_on_basis x n) m
  = (if decide (m < n)%Z then homogeneous_component degree_on_basis x m else ∅) ∧
  homogeneous_component degree_on_basis (homogeneous_component degree_on_basis x n) m
  = (if decide (m = n) then homogeneous_component degree_on_basis x n else ∅).
Proof.
  split; [|split].
  - apply normalized_eq; [apply normalized_truncate..|].
    intros j. rewrite !coeff_truncate. repeat case_decide; try done; lia.
  - destruct (decide (m < n)%Z) as [Hlt|Hge].
    + apply normalized_eq; [apply normalized_homogeneous_component..|].
      intros j. rewrite !coeff_homogeneous_component, coeff_truncate.
      repeat case_decide; try done; lia.
    + apply eq_empty_coeff; [apply normalized_homogeneous_component|].
      intros j. rewrite coeff_homogeneous_component, coeff_truncate.
      repeat case_decide; try done; lia.
  - destruct (decide (m = n)) as [->|Hne].
    + apply normalized_eq; [apply normalized_homogeneous_component..|].
      intros j. rewrite !coeff_homogeneous_component.
      by repeat case_decide.
    + apply eq_empty_coeff; [apply normalized_homogeneous_component|].
      intros j. rewrite !coeff_homogeneous_component.
      repeat case_decide; try done; congruence.
Qed.

(** X9: An element [x] whose [degree()] is [d] is its own homogeneous
    component of degree [d]: its other components are zero, its
    truncation at [d] is zero and its truncation at [d + 1] is [x]. *)
Theorem degree_homogeneous_component (x : gmap J R) (d : Z) :
  normalized x → degree degree_on_basis index_le x = inr d →
  homogeneous_component degree_on_basis x d = x ∧
  (∀ n, n ≠ d → homogeneous_component degree_on_basis x n = ∅) ∧
  truncate degree_on_basis x d = ∅ ∧
  truncate degree_on_basis x (d + 1) = x.
Proof.
  intros Hx Hd.
  assert (Hsup : ∀ m, m ∈ support x → degree_on_basis m = d).
  { pose proof (leading_support_in index_le x) as Hl.
    pose proof (is_homogeneous_spec degree_on_basis x) as Hh.
    unfold degree, leading_support in *.
    destruct (support x) as [|a ms] eqn:Hs; [done|].
    destruct (is_homogeneous degree_on_basis x);
      simpl in Hd; [|done].
    injection Hd as <-. destruct (proj1 Hh eq_refl) as [d Hdeg].
    intros m Hm. rewrite <- Hs in Hm. rewrite (Hdeg m Hm). symmetry.
    apply Hdeg. rewrite Hs. by apply Hl. }
  assert (Hc : ∀ j, degree_on_basis j ≠ d → coeff x j = ring_zero).
  { intros j Hj. apply coeff_outside_support. intros Hin.
    by apply Hsup in Hin. }
  split; [|split; [|split]].
  - apply normalized_eq; [apply normalized_homogeneous_component|done|].
    intros j. rewrite coeff_homogeneous_component.
    case_decide; [done|]. by rewrite Hc.
  - intros n Hn. apply eq_empty_coeff; [apply normalized_homogeneous_component|].
    intros j. rewrite coeff_homogeneous_component.
    case_decide; [|done]. apply Hc. congruence.
  - apply eq_empty_coeff; [apply normalized_truncate|].
    intros j. rewrite coeff_truncate. case_decide; [|done]. apply Hc. lia.
  - apply normalized_eq; [apply normalized_truncate|done|].
    intros j. rewrite coeff_truncate. case_decide; [done|].
    rewrite Hc; [done|lia].
Qed.

End Components.

Lemma P321_2P222_normalized : normalized P321_2P222.
Proof.
  intros j. unfold P321_2P222.
  rewrite !lookup_insert, lookup_empty. by repeat case_decide.
Qed.

Lemma degree_homogeneous_component_witness :
  homogeneous_component partition_size P321_2P222 6 = P321_2P222 ∧
  (∀ n, n ≠ 6%Z → homogeneous_component partition_size P321_2P222 n = ∅) ∧
  truncate partition_size P321_2P222 6 = ∅ ∧
  truncate partition_size P321_2P222 (6 + 1) = P321_2P222.
Proof.
  apply (degree_homogeneous_component partition_size partition_le
           P321_2P222 6 P321_2P222_normalized).
  vm_compute. reflexivity.
Defined.

End FilteredModules.

(* ===================================================================== *)
(** * sage/algebras/lie_algebras/structure_coefficients.py *)
(* ===================================================================== *)

Module LieAlgebra.

Inductive exception :=
| ValueError (msg : string)
| AssertionError (msg : string)
| TypeError (msg : string).

Section StructureCoefficients.

(** The basis indices (generators) with Python's comparison of them, which
    is also the default [generator_cmp] print option, and the base ring
    [R]. An element of the Lie algebra is its dictionary of coefficients;
    zero is the empty dictionary. *)
Context {I : Type} `{Countable I}.
Context {R : Type} `{CoefficientRing R}.
Variable cmp : I → I → comparison.

(** A Python dictionary literal is given by its items in iteration order;
    [dict(pairs)] lets a later pair override an earlier one. *)
Definition py_dict (pairs : list (I * R)) : gmap I R :=
  foldl (λ d gv, <[gv.1 := gv.2]> d) ∅ pairs.

Definition zero : gmap I R := ∅.
Definition neg (v : gmap I R) : gmap I R := ring_opp <$> v.

(** One iteration of the loop of [_standardize_s_coeff]. *)
Definition standardize_key (sc : gmap (I * I) (list (I * R)))
  (kv : (I * I) * list (I * R)) : exception + gmap (I * I) (list (I * R)) :=
  let k := kv.1 in
  let v := kv.2 in
  let key_vals :=
    match cmp k.1 k.2 with
    | Gt => inr ((k.2, k.1),
                 map (λ gv, (gv.1, ring_opp gv.2))
                     (filter (λ gv, gv.2 ≠ ring_zero) v))
    | Lt => inr (k, filter (λ gv, gv.2 ≠ ring_zero) v)
    | Eq => inl (AssertionError "elements not ordered")
    end in
  match key_vals with
  | inl e => inl e
  | inr (key, vals) =>
      match sc !! key with
      | Some old =>
          if bool_decide (¬ old ≡ₚ vals)
          then inl (ValueError "non-equal brackets")
          else inr (if bool_decide (0 < length vals)
                    then <[key := vals]> sc else sc)
      | None =>
          inr (if bool_decide (0 < length vals)
               then <[key := vals]> sc else sc)
      end
  end.

Fixpoint standardize_loop (sc : gmap (I * I) (list (I * R)))
  (items : list ((I * I) * list (I * R)))
  : exception + gmap (I * I) (list (I * R)) :=
  match items with
  | [] => inr sc
  | kv :: items' =>
      match standardize_key sc kv with
      | inl e => inl e
      | inr sc' => standardize_loop sc' items'
      end
  end.

Definition _standardize_s_coeff (s_coeff : list ((I * I) * list (I * R)))
  : exception + gmap (I * I) (list (I * R)) :=
  standardize_loop ∅ s_coeff.

(** The unique representation of an algebra is determined by the
    arguments its class is finally called with. *)
Inductive lie_algebra :=
| LieAlgebraWithStructureCoefficients
    (s_coeff : gmap (I * I) (list (I * R)))
    (names : list string) (index_set : option (list I))
| AbelianLieAlgebra (names : option (list string))
    (index_set : option (list I)).

Definition classcall (s_coeff : list ((I * I) * list (I * R)))
  (names : option (list string)) (index_set : option (list I))
  : exception + lie_algebra :=
  match _standardize_s_coeff s_coeff with
  | inl e => inl e
  | inr sc =>
      if bool_decide (size sc = 0) then inr (AbelianLieAlgebra names index_set)
      else
        match names with
        | None =>
            match index_set with
            | None =>
                inl (ValueError
                       "either the names or the index set must be specified")
            | Some idx =>
                if bool_decide (length idx ≤ 1)
                then inr (AbelianLieAlgebra names index_set)
                else inl (TypeError "'NoneType' object is not iterable")
            end
        | Some ns =>
            if bool_decide (length ns ≤ 1)
            then inr (AbelianLieAlgebra names index_set)
            else inr (LieAlgebraWithStructureCoefficients sc ns index_set)
        end
  end.

(** [__init__] turns the values of the structure coefficients into
    elements. *)
Definition structure_coefficients (L : lie_algebra)
  : gmap (I * I) (gmap I R) :=
  match L with
  | LieAlgebraWithStructureCoefficients sc _ _ => py_dict <$> sc
  | AbelianLieAlgebra _ _ => ∅
  end.

Definition bracket_on_basis (L : lie_algebra) (x y : I) : gmap I R :=
  match L with
  | AbelianLieAlgebra _ _ => zero
  | LieAlgebraWithStructureCoefficients _ _ _ =>
      let '(b, ordered) :=
        match cmp x y with
        | Gt => ((y, x), false)
        | _ => ((x, y), true)
        end in
      match structure_coefficients L !! b with
      | None => zero
      | Some val => if ordered then val else neg val
      end
  end.

(** The items of the dictionary [-c]. *)
Definition neg_items (c : list (I * R)) : list (I * R) :=
  map (λ gv, (gv.1, ring_opp gv.2)) c.

(** ** Antisymmetry *)

Lemma neg_involutive (v : gmap I R) : neg (neg v) = v.
Proof.
  unfold neg. apply map_eq. intros g. rewrite !lookup_fmap.
  destruct (v !! g) as [c|]; simpl; [|done]. by rewrite ring_opp_involutive.
Qed.

Lemma neg_zero : neg zero = zero.
Proof. unfold neg, zero. apply fmap_empty. Qed.

Lemma filter_neg_items (c : list (I * R)) :
  filter (λ gv, gv.2 ≠ ring_zero) (neg_items c)
  = neg_items (filter (λ gv, gv.2 ≠ ring_zero) c).
Proof.
  unfold neg_items. induction c as [|[g v] c IH]; [done|].
  simpl. rewrite !filter_cons. simpl.
  pose proof (ring_opp_eq_zero v) as Hv.
  destruct (decide (v ≠ ring_zero)) as [Hn|Hn],
    (decide (ring_opp v ≠ ring_zero)) as [Ho|Ho];
    simpl; rewrite IH; try done; exfalso.
  - apply Hn, Hv. by apply dec_stable.
  - apply Ho, Hv. by apply dec_stable.
Qed.

Lemma neg_items_involutive (c : list (I * R)) : neg_items (neg_items c) = c.
Proof.
  unfold neg_items. rewrite map_map. rewrite <- (map_id c) at 2.
  apply map_ext. intros [g v]. simpl. by rewrite ring_opp_involutive.
Qed.

Section TotalOrder.

(** Python's comparison is a total order on the indices. *)
Hypothesis cmp_antisym : ∀ x y, cmp y x = CompOpp (cmp x y).
Hypothesis cmp_eq : ∀ x y, cmp x y = Eq → x = y.

Lemma standardize_key_flip sc x y c :
  x ≠ y →
  standardize_key sc ((x, y), c) = standardize_key sc ((y, x), neg_items c).
Proof using cmp_antisym cmp_eq.
  intros Hne. unfold standardize_key. simpl.
  rewrite (cmp_antisym x y).
  destruct (cmp x y) eqn:Hc; simpl.
  - by apply cmp_eq in Hc.
  - by rewrite filter_neg_items, neg_items_involutive.
  - by rewrite filter_neg_items.
Qed.

(** C3: on an algebra constructed from a dictionary of structure
    coefficients the bracket of two distinct basis indices is
    antisymmetric, [bracket_on_basis(y, x) == -bracket_on_basis(x, y)];
    and the key [(x, y)] with coefficients [c] yields the same algebra as
    the reversed key [(y, x)] with coefficients [-c]. *)
Theorem C3_bracket_antisymmetric
  (s_coeff : list ((I * I) * list (I * R)))
  (names : option (list string)) (index_set : option (list I))
  (x y : I) (c : list (I * R)) :
  x ≠ y →
  (∀ L, classcall s_coeff names index_set = inr L →
        bracket_on_basis L y x = neg (bracket_on_basis L x y)) ∧
  classcall [((x, y), c)] names index_set
  = classcall [((y, x), neg_items c)] names index_set.
Proof using cmp_antisym cmp_eq.
  intros Hne. split.
  - intros L _. destruct L as [sc ns idx|ns idx]; simpl.
    + rewrite (cmp_antisym x y).
      destruct (cmp x y) eqn:Hc; simpl.
      * by apply cmp_eq in Hc.
      * destruct ((py_dict <$> sc) !! (x, y)); by rewrite ?neg_zero.
      * destruct ((py_dict <$> sc) !! (y, x));
          by rewrite ?neg_zero, ?neg_involutive.
    + by rewrite neg_zero.
  - unfold classcall, _standardize_s_coeff. simpl.
    by rewrite (standardize_key_flip ∅ x y c Hne).
Qed.

End TotalOrder.

End StructureCoefficients.

Arguments lie_algebra I {_ _} R.

(** The docstring's cross-product algebra on [x, y, z]. *)
Definition cross_product : list ((string * string) * list (string * Z)) :=
  [ (("x", "y"), [("z", 1%Z)]);
    (("y", "z"), [("x", 1%Z)]);
    (("z", "x"), [("y", 1%Z)]) ].

Definition cross_product_algebra : lie_algebra string Z :=
  LieAlgebraWithStructureCoefficients
    (<[("x", "y") := [("z", 1%Z)]]>
       (<[("y", "z") := [("x", 1%Z)]]>
          (<[("x", "z") := [("y", (-1)%Z)]]> ∅)))
    ["x"; "y"; "z"] None.

Example cross_product_classcall :
  classcall String.compare cross_product (Some ["x"; "y"; "z"]) None
  = inr cross_product_algebra.
Proof. vm_compute. reflexivity. Qed.

Example doctest_bracket_x_y :
  bracket_on_basis String.compare cross_product_algebra "x" "y"
  = {[ "z" := 1%Z ]}.
Proof. vm_compute. reflexivity. Qed.

Example doctest_bracket_y_x :
  bracket_on_basis String.compare cross_product_algebra "y" "x"
  = {[ "z" := (-1)%Z ]}.
Proof. vm_compute. reflexivity. Qed.

(** [L1 is L2] of the docstring of [__classcall_private__]. *)
Example doctest_L1_is_L2 :
  classcall String.compare [(("x", "y"), [("x", 1%Z)])] (Some ["x"; "y"]) None
  = classcall String.compare [(("y", "x"), [("x", (-1)%Z)])]
      (Some ["x"; "y"]) None.
Proof. vm_compute. reflexivity. Qed.

Lemma string_compare_antisym (x y : string) :
  String.compare y x = CompOpp (String.compare x y).
Proof. apply String.compare_antisym. Qed.

Lemma C3_bracket_antisymmetric_witness :
  "x" ≠ "y" ∧
  bracket_on_basis String.compare cross_product_algebra "y" "x"
  = neg (bracket_on_basis String.compare cross_product_algebra "x" "y") ∧
  classcall String.compare [(("x", "y"), [("x", 1%Z)])]
    (Some ["x"; "y"; "z"]) None
  = classcall String.compare [(("y", "x"), neg_items [("x", 1%Z)])]
      (Some ["x"; "y"; "z"]) None.
Proof.
  split; [done|].
  destruct (C3_bracket_antisymmetric String.compare
              string_compare_antisym String.compare_eq_iff
              cross_product (Some ["x"; "y"; "z"]) None
              "x" "y" [("x", 1%Z)]) as [Hb Hc]; [done|].
  split; [|exact Hc].
  apply Hb. vm_compute. reflexivity.
Defined.

(** ** The standard form of the structure coefficients *)

Section StandardForm.

Context {I : Type} `{Countable I}.
Context {R : Type} `{CoefficientRing R}.
Variable cmp : I → I → comparison.

(** The key and the values under which [_standardize_s_coeff] stores an
    entry [k: v] of its argument. *)
Definition standard_key (k : I * I) : I * I :=
  match cmp k.1 k.2 with
  | Gt => (k.2, k.1)
  | _ => k
  end.

Definition standard_vals (kv : (I * I) * list (I * R)) : list (I * R) :=
  match cmp kv.1.1 kv.1.2 with
  | Gt => neg_items (filter (λ gv, gv.2 ≠ ring_zero) kv.2)
  | _ => filter (λ gv, gv.2 ≠ ring_zero) kv.2
  end.

(** [if len(vals) > 0: sc[key] = vals] *)
Definition store (sc : gmap (I * I) (list (I * R))) (key : I * I)
  (vals : list (I * R)) : gmap (I * I) (list (I * R)) :=
  if bool_decide (0 < length vals) then <[key := vals]> sc else sc.

Lemma standardize_key_eq sc kv :
  standardize_key cmp sc kv
  = match cmp kv.1.1 kv.1.2 with
    | Eq => inl (AssertionError "elements not ordered")
    | _ =>
        match sc !! standard_key kv.1 with
        | Some old =>
            if bool_decide (¬ old ≡ₚ standard_vals kv)
            then inl (ValueError "non-equal brackets")
            else inr (store sc (standard_key kv.1) (standard_vals kv))
        | None => inr (store sc (standard_key kv.1) (standard_vals kv))
        end
    end.
Proof.
  unfold standardize_key, standard_key, standard_vals, store, neg_items.
  by destruct (cmp kv.1.1 kv.1.2).
Qed.

Lemma lookup_store sc key vals k :
  store sc key vals !! k
  = if decide (key = k ∧ vals ≠ []) then Some vals else sc !! k.
Proof.
  unfold store. destruct vals as [|a vals].
  - rewrite bool_decide_eq_false_2 by (simpl; lia).
    rewrite decide_False; [done|]. by intros [_ ?].
  - rewrite bool_decide_eq_true_2 by (simpl; lia). rewrite lookup_insert.
    destruct (decide (key = k)).
    + by rewrite decide_True.
    + rewrite decide_False; [done|]. by intros [? _].
Qed.

Lemma standard_vals_nonzero kv :
  Forall (λ gv, gv.2 ≠ ring_zero) (standard_vals kv).
Proof.
  unfold standard_vals, neg_items.
  assert (Hf : Forall (λ gv : I * R, gv.2 ≠ ring_zero)
                 (filter (λ gv, gv.2 ≠ ring_zero) kv.2)).
  { apply Forall_forall. intros gv Hin.
    by apply list_elem_of_filter in Hin as [? _]. }
  destruct (cmp kv.1.1 kv.1.2); [done| done|].
  apply Forall_fmap. eapply Forall_impl; [exact Hf|].
  intros [g v] Hv. simpl in *. by rewrite ring_opp_eq_zero.
Qed.

(** An entry of the standard form: its key was put in order, its values
    are the non-zero coefficients of an entry of the argument, and there
    is at least one of them. *)
Definition standard_entry (s_coeff : list ((I * I) * list (I * R)))
  (k : I * I) (vals : list (I * R)) : Prop :=
  (cmp k.1 k.2 = Lt ∨ cmp k.2 k.1 = Gt) ∧
  vals ≠ [] ∧
  Forall (λ gv, gv.2 ≠ ring_zero) vals ∧
  ∃ kv, kv ∈ s_coeff ∧ standard_key kv.1 = k ∧ standard_vals kv = vals.

Lemma standardize_loop_entries s_coeff acc items sc :
  standardize_loop cmp acc items = inr sc →
  (∀ kv, kv ∈ items → kv ∈ s_coeff) →
  (∀ k vals, acc !! k = Some vals → standard_entry s_coeff k vals) →
  ∀ k vals, sc !! k = Some vals → standard_entry s_coeff k vals.
Proof.
  revert acc. induction items as [|kv items IH]; intros acc Hloop Hin Hacc.
  - by injection Hloop as <-.
  - simpl in Hloop.
    destruct (standardize_key cmp acc kv) as [e|acc'] eqn:Hkey; [done|].
    apply (IH acc' Hloop); [intros; apply Hin; by right|].
    intros k vals. rewrite standardize_key_eq in Hkey.
    assert (Hstore : cmp kv.1.1 kv.1.2 ≠ Eq →
                     acc' = store acc (standard_key kv.1) (standard_vals kv) →
                     acc' !! k = Some vals → standard_entry s_coeff k vals).
    { intros Hne -> . rewrite lookup_store. case_decide as Hk; [|apply Hacc].
      destruct Hk as [<- Hvals]. intros [= <-].
      split; [|split; [done|split; [apply standard_vals_nonzero|]]].
      - unfold standard_key. destruct (cmp kv.1.1 kv.1.2) eqn:Hc; auto.
        done.
      - exists kv. split; [apply Hin; left|done]. }
    destruct (cmp kv.1.1 kv.1.2) eqn:Hc; [done|..];
      (destruct (acc !! standard_key kv.1);
       [case_bool_decide; [done|]|]; injection Hkey as <-;
       by apply Hstore).
Qed.

Lemma standardized_entries (s_coeff : list ((I * I) * list (I * R))) sc :
  _standardize_s_coeff cmp s_coeff = inr sc →
  ∀ k vals, sc !! k = Some vals →
    (cmp k.1 k.2 = Lt ∨ cmp k.2 k.1 = Gt) ∧
    vals ≠ [] ∧
    Forall (λ gv, gv.2 ≠ ring_zero) vals ∧
    ∃ kv, kv ∈ s_coeff ∧ standard_key kv.1 = k ∧ standard_vals kv = vals.
Proof.
  intros Hsc. apply (standardize_loop_entries s_coeff ∅ s_coeff sc Hsc).
  - done.
  - intros k vals. by rewrite lookup_empty.
Qed.

(** X10: Whenever [_standardize_s_coeff] returns, every entry it stores has a
    key in increasing order, no coefficient zero and at least one
    coefficient, and it stems from an entry of the argument. *)
Theorem standardize_entries (s_coeff : list ((I * I) * list (I * R))) sc :
  _standardize_s_coeff cmp s_coeff = inr sc →
  ∀ k vals, sc !! k = Some vals →
    (cmp k.1 k.2 = Lt ∨ cmp k.2 k.1 = Gt) ∧
    vals ≠ [] ∧
    Forall (λ gv, gv.2 ≠ ring_zero) vals ∧
    ∃ kv, kv ∈ s_coeff ∧ standard_key kv.1 = k ∧ standard_vals kv = vals.
Proof. apply standardized_entries. Qed.

(** X11: The algebras that [__classcall_private__] returns have
    [[x, x] = 0]: the bracket of a basis index with itself is zero. *)
Theorem bracket_self_zero (s_coeff : list ((I * I) * list (I * R)))
  (names : option (list string)) (index_set : option (list I)) L (x : I) :
  classcall cmp s_coeff names index_set = inr L →
  cmp x x = Eq →
  bracket_on_basis cmp L x x = zero.
Proof.
  intros HL Hx. destruct L as [sc ns idx|]; [|done].
  simpl. rewrite Hx. rewrite lookup_fmap.
  destruct (sc !! (x, x)) as [vals|] eqn:Hv; [exfalso|done].
  unfold classcall in HL.
  destruct (_standardize_s_coeff cmp s_coeff) as [e|sc'] eqn:Hsc; [done|].
  assert (sc' = sc) as ->.
  { case_bool_decide; [done|].
    destruct names as [ns'|]; [|by destruct index_set; repeat case_bool_decide].
    case_bool_decide; [done|]. by injection HL as -> _ _. }
  destruct (standardized_entries _ _ Hsc _ _ Hv) as ([Hlt|Hgt] & _);
    simpl in *; congruence.
Qed.

(** ** The bracket of a pair that was given *)

Lemma neg_py_dict (l : list (I * R)) : neg (py_dict l) = py_dict (neg_items l).
Proof.
  unfold py_dict, neg, neg_items.
  assert (Hgen : ∀ d : gmap I R,
            ring_opp <$> foldl (λ d gv, <[gv.1 := gv.2]> d) d l
            = foldl (λ d gv, <[gv.1 := gv.2]> d) (ring_opp <$> d)
                (map (λ gv, (gv.1, ring_opp gv.2)) l)).
  { induction l as [|[g v] l IH]; intros d; simpl; [done|].
    by rewrite IH, fmap_insert. }
  by rewrite Hgen, fmap_empty.
Qed.

Lemma standardize_loop_lookup acc items sc :
  standardize_loop cmp acc items = inr sc →
  NoDup (map (λ kv, standard_key kv.1) items) →
  (∀ kv, kv ∈ items → acc !! standard_key kv.1 = None) →
  (∀ kv, kv ∈ items →
     cmp kv.1.1 kv.1.2 ≠ Eq ∧
     sc !! standard_key kv.1
     = if decide (standard_vals kv = []) then None
       else Some (standard_vals kv)) ∧
  (∀ k, k ∉ map (λ kv, standard_key kv.1) items → sc !! k = acc !! k).
Proof.
  revert acc. induction items as [|kv items IH]; intros acc Hloop Hnd Hacc.
  - injection Hloop as <-. split; [|done].
    intros kv Hin. by apply elem_of_nil in Hin.
  - simpl in Hloop, Hnd. apply NoDup_cons in Hnd as [Hni Hnd].
    destruct (standardize_key cmp acc kv) as [e|acc'] eqn:Hkey; [done|].
    rewrite standardize_key_eq in Hkey.
    rewrite (Hacc kv) in Hkey by left.
    assert (Hc : cmp kv.1.1 kv.1.2 ≠ Eq)
      by (intros Hc; by rewrite Hc in Hkey).
    assert (acc' = store acc (standard_key kv.1) (standard_vals kv)) as ->.
    { destruct (cmp kv.1.1 kv.1.2); [done|..]; by injection Hkey as <-. }
    destruct (IH _ Hloop Hnd) as [IH1 IH2].
    { intros kv' Hin'. rewrite lookup_store. rewrite decide_False.
      - apply Hacc. by right.
      - intros [Heq _]. apply Hni. rewrite Heq.
        apply list_elem_of_fmap. by exists kv'. }
    split.
    + intros kv' [->|Hin']%elem_of_cons; [|by apply IH1].
      split; [done|]. rewrite (IH2 _ Hni), lookup_store.
      destruct (decide (standard_vals kv = [])) as [Hv|Hv].
      * rewrite decide_False by (by intros [_ ?]). apply Hacc. left.
      * by rewrite decide_True.
    + intros k Hk. simpl in Hk. apply not_elem_of_cons in Hk as [Hne Hk].
      rewrite (IH2 _ Hk), lookup_store.
      by rewrite decide_False by (by intros [? _]).
Qed.

(** X12: When no two entries of the dictionary concern the same pair of
    generators (as [(x, y)] and [(y, x)] would), the algebra on at least
    two names returns, for every key [(x, y)] of the dictionary, the
    coefficients given for it, without the zeros:
    [bracket_on_basis(x, y)] is the element with the non-zero
    coefficients of [s_coeff[(x, y)]]. *)
Theorem bracket_of_given_pair (s_coeff : list ((I * I) * list (I * R)))
  (names : list string) (index_set : option (list I)) L
  (x y : I) (c : list (I * R)) :
  NoDup (map (λ kv, standard_key kv.1) s_coeff) →
  2 ≤ length names →
  classcall cmp s_coeff (Some names) index_set = inr L →
  ((x, y), c) ∈ s_coeff →
  bracket_on_basis cmp L x y
  = py_dict (filter (λ gv, gv.2 ≠ ring_zero) c).
Proof.
  intros Hnd Hnames HL Hin. unfold classcall in HL.
  destruct (_standardize_s_coeff cmp s_coeff) as [e|sc] eqn:Hsc; [done|].
  destruct (standardize_loop_lookup ∅ s_coeff sc Hsc Hnd) as [Hlook _].
  { intros. apply lookup_empty. }
  destruct (Hlook _ Hin) as [Hc Hxy]. simpl in Hc.
  unfold standard_key, standard_vals in Hxy. simpl in Hxy.
  assert (Hnil : ∀ l : list (I * R), neg_items l = [] → l = []).
  { intros l Hl. by destruct l. }
  case_bool_decide as Hsize.
  - injection HL as <-. simpl.
    apply map_size_empty_iff in Hsize. subst sc.
    rewrite lookup_empty in Hxy.
    destruct (cmp x y); [done|..]; case_decide as Hv; try done.
    + by rewrite Hv.
    + apply Hnil in Hv. by rewrite Hv.
  - rewrite bool_decide_eq_false_2 in HL by lia. injection HL as <-.
    unfold bracket_on_basis, structure_coefficients.
    destruct (cmp x y); [done|..]; rewrite lookup_fmap, Hxy;
      case_decide as Hv; simpl.
    + by rewrite Hv.
    + done.
    + apply Hnil in Hv. by rewrite Hv.
    + by rewrite neg_py_dict, neg_items_involutive.
Qed.

(** X13: Whether unequal brackets for [(x, y)] and [(y, x)] are detected
    depends on the order of the entries: an entry whose coefficients are
    all zero followed by a reversed entry with non-zero coefficients [c] is
    accepted, with [[x, y] = -c]; the same entries in the other order
    raise [ValueError]. *)
Theorem non_equal_brackets_order (x y : I) (z c : list (I * R)) :
  cmp x y = Lt → cmp y x = Gt →
  Forall (λ gv, gv.2 = ring_zero) z →
  Forall (λ gv, gv.2 ≠ ring_zero) c → c ≠ [] →
  _standardize_s_coeff cmp [((x, y), z); ((y, x), c)]
  = inr {[ (x, y) := neg_items c ]} ∧
  _standardize_s_coeff cmp [((y, x), c); ((x, y), z)]
  = inl (ValueError "non-equal brackets").
Proof.
  intros Hxy Hyx Hz Hc Hne.
  assert (Hfz : filter (λ gv : I * R, gv.2 ≠ ring_zero) z = []).
  { induction Hz as [|gv z Hgv _ IH]; [done|].
    rewrite filter_cons. by rewrite decide_False by naive_solver. }
  assert (Hfc : filter (λ gv : I * R, gv.2 ≠ ring_zero) c = c).
  { clear Hne. induction Hc as [|gv c Hgv _ IH]; [done|].
    rewrite filter_cons. rewrite decide_True by done. by rewrite IH. }
  assert (Hlen : 0 < length (neg_items c)).
  { unfold neg_items. rewrite length_map. destruct c; [done|simpl; lia]. }
  unfold _standardize_s_coeff. simpl. rewrite !standardize_key_eq.
  unfold standard_key, standard_vals, store. simpl. rewrite Hxy, Hyx, Hfz, Hfc.
  rewrite lookup_empty. simpl. rewrite standardize_key_eq.
  unfold standard_key, standard_vals, store. simpl. rewrite Hyx, Hfc.
  rewrite lookup_empty. rewrite bool_decide_eq_true_2 by done.
  rewrite insert_empty. split; [done|].
  rewrite standardize_key_eq.
  unfold standard_key, standard_vals, store. simpl. rewrite Hxy, Hfz.
  rewrite lookup_singleton_eq.
  rewrite bool_decide_eq_true_2; [done|].
  intros Hp. apply Permutation_nil_r in Hp. destruct c; done.
Qed.

(** X14: A dictionary whose coefficients are all zero gives the abelian Lie
    algebra, whose brackets are zero. *)
Theorem zero_coefficients_abelian (s_coeff : list ((I * I) * list (I * R)))
  (names : option (list string)) (index_set : option (list I)) :
  Forall (λ kv, cmp kv.1.1 kv.1.2 ≠ Eq) s_coeff →
  Forall (λ kv, Forall (λ gv, gv.2 = ring_zero) kv.2) s_coeff →
  classcall cmp s_coeff names index_set
  = inr (AbelianLieAlgebra names index_set) ∧
  ∀ x y, bracket_on_basis cmp (AbelianLieAlgebra names index_set) x y = zero.
Proof.
  intros Hord Hzero. split; [|done].
  assert (Hsc : _standardize_s_coeff cmp s_coeff = inr ∅).
  { unfold _standardize_s_coeff.
    induction s_coeff as [|kv s IH]; [done|].
    apply Forall_cons in Hord as [Hc Hord].
    apply Forall_cons in Hzero as [Hz Hzero].
    simpl. rewrite standardize_key_eq, lookup_empty.
    assert (Hfz : filter (λ gv : I * R, gv.2 ≠ ring_zero) kv.2 = []).
    { induction Hz as [|gv z Hgv _ IHz]; [done|].
      rewrite filter_cons. by rewrite decide_False by naive_solver. }
    assert (Hv : standard_vals kv = []).
    { unfold standard_vals. rewrite Hfz. by destruct (cmp kv.1.1 kv.1.2). }
    rewrite Hv. unfold store. simpl.
    destruct (cmp kv.1.1 kv.1.2); [done|..]; by apply IH. }
  unfold classcall. by rewrite Hsc.
Qed.

(** ** The standard form is a normal form *)

Section Antisymmetric.

Hypothesis cmp_antisym : ∀ x y, cmp y x = CompOpp (cmp x y).

Lemma standardize_loop_standard acc items :
  NoDup (map fst items) →
  (∀ kv, kv ∈ items → acc !! kv.1 = None) →
  (∀ kv, kv ∈ items →
     cmp kv.1.1 kv.1.2 = Lt ∧ kv.2 ≠ [] ∧
     Forall (λ gv, gv.2 ≠ ring_zero) kv.2) →
  standardize_loop cmp acc items
  = inr (foldl (λ d kv, <[kv.1 := kv.2]> d) acc items).
Proof.
  revert acc. induction items as [|kv items IH]; intros acc Hnd Hacc Hstd;
    [done|].
  simpl in *. apply NoDup_cons in Hnd as [Hni Hnd].
  destruct (Hstd kv) as (Hlt & Hne & Hnz); [left|].
  rewrite standardize_key_eq. unfold standard_key, standard_vals. rewrite Hlt.
  rewrite (Hacc kv) by left.
  assert (Hf : filter (λ gv : I * R, gv.2 ≠ ring_zero) kv.2 = kv.2).
  { clear Hne. induction Hnz as [|gv c Hgv _ IHc]; [done|].
    rewrite filter_cons. rewrite decide_True by done. by rewrite IHc. }
  rewrite Hf. unfold store.
  rewrite bool_decide_eq_true_2 by (destruct (kv.2); [done|simpl; lia]).
  apply IH; [done| |].
  - intros kv' Hin'. rewrite lookup_insert_ne; [apply Hacc; by right|].
    intros Heq. apply Hni. rewrite Heq. apply list_elem_of_fmap. by exists kv'.
  - intros kv' Hin'. apply Hstd. by right.
Qed.

(** X15: Standardizing the standard form again, its entries taken in any
    order, returns it unchanged. *)
Theorem standardize_idempotent (s_coeff : list ((I * I) * list (I * R)))
  sc l :
  _standardize_s_coeff cmp s_coeff = inr sc →
  l ≡ₚ map_to_list sc →
  _standardize_s_coeff cmp l = inr sc.
Proof using cmp_antisym.
  intros Hsc Hl. unfold _standardize_s_coeff.
  rewrite standardize_loop_standard.
  - by rewrite (foldl_insert_items sc).
  - rewrite Hl. apply NoDup_fst_map_to_list.
  - intros. apply lookup_empty.
  - intros [k vals] Hin. rewrite Hl in Hin.
    apply elem_of_map_to_list in Hin.
    destruct (standardized_entries _ _ Hsc _ _ Hin) as (Hk & Hne & Hnz & _).
    split; [|done]. simpl. destruct Hk as [Hk|Hk]; [done|].
    rewrite cmp_antisym in Hk. by destruct (cmp k.1 k.2).
Qed.

End Antisymmetric.

End StandardForm.

Lemma standardize_entries_witness :
  (String.compare "x" "z" = Lt ∨ String.compare "z" "x" = Gt) ∧
  [("y", (-1)%Z)] ≠ [] ∧
  Forall (λ gv : string * Z, gv.2 ≠ 0%Z) [("y", (-1)%Z)] ∧
  ∃ kv, kv ∈ cross_product ∧
        standard_key String.compare kv.1 = ("x", "z") ∧
        standard_vals String.compare kv = [("y", (-1)%Z)].
Proof.
  assert (Hsc : _standardize_s_coeff String.compare cross_product
                = inr (<[("x", "y") := [("z", 1%Z)]]>
                         (<[("y", "z") := [("x", 1%Z)]]>
                            (<[("x", "z") := [("y", (-1)%Z)]]> ∅))))
    by (vm_compute; reflexivity).
  apply (standardize_entries String.compare cross_product _ Hsc
           ("x", "z") [("y", (-1)%Z)]).
  vm_compute. reflexivity.
Defined.

Lemma bracket_self_zero_witness :
  bracket_on_basis String.compare cross_product_algebra "x" "x" = zero.
Proof.
  apply (bracket_self_zero String.compare cross_product
           (Some ["x"; "y"; "z"]) None cross_product_algebra "x").
  - vm_compute. reflexivity.
  - reflexivity.
Defined.

Lemma bracket_of_given_pair_witness :
  bracket_on_basis String.compare cross_product_algebra "z" "x"
  = py_dict (filter (λ gv : string * Z, gv.2 ≠ ring_zero) [("y", 1%Z)]).
Proof.
  apply (bracket_of_given_pair String.compare cross_product
           ["x"; "y"; "z"] None cross_product_algebra "z" "x" [("y", 1%Z)]).
  - apply (bool_decide_eq_true_1 _). vm_compute. reflexivity.
  - simpl. lia.
  - vm_compute. reflexivity.
  - unfold cross_product. rewrite !elem_of_cons. auto.
Defined.

Lemma non_equal_brackets_order_witness :
  _standardize_s_coeff String.compare
    [(("x", "y"), [("z", 0%Z)]); (("y", "x"), [("z", 5%Z)])]
  = inr {[ ("x", "y") := neg_items [("z", 5%Z)] ]} ∧
  _standardize_s_coeff String.compare
    [(("y", "x"), [("z", 5%Z)]); (("x", "y"), [("z", 0%Z)])]
  = inl (ValueError "non-equal brackets").
Proof.
  apply (non_equal_brackets_order String.compare "x" "y"
           [("z", 0%Z)] [("z", 5%Z)]).
  - reflexivity.
  - reflexivity.
  - by repeat constructor.
  - by repeat constructor.
  - done.
Defined.

Lemma zero_coefficients_abelian_witness :
  classcall String.compare [(("x", "y"), [("z", 0%Z)])]
    (Some ["x"; "y"; "z"]) None
  = inr (AbelianLieAlgebra (Some ["x"; "y"; "z"]) None) ∧
  ∀ x y, bracket_on_basis String.compare
           (AbelianLieAlgebra (R := Z) (Some ["x"; "y"; "z"]) None) x y
         = zero.
Proof.
  apply (zero_coefficients_abelian String.compare
           [(("x", "y"), [("z", 0%Z)])] (Some ["x"; "y"; "z"]) None).
  - by repeat constructor.
  - by repeat constructor.
Defined.

Lemma standardize_idempotent_witness :
  _standardize_s_coeff String.compare
    (map_to_list (<[("x", "y") := [("z", 1%Z)]]>
                    (<[("y", "z") := [("x", 1%Z)]]>
                       (<[("x", "z") := [("y", (-1)%Z)]]> ∅))))
  = inr (<[("x", "y") := [("z", 1%Z)]]>
           (<[("y", "z") := [("x", 1%Z)]]>
              (<[("x", "z") := [("y", (-1)%Z)]]> ∅))).
Proof.
  apply (standardize_idempotent String.compare string_compare_antisym
           cross_product).
  - vm_compute. reflexivity.
  - reflexivity.
Defined.

End LieAlgebra.

(* ===================================================================== *)
(** * The polynomial ring [ZZ[x]]

    A polynomial is the list of its coefficients, constant term first,
    without trailing zero. It serves as base ring of a Weyl algebra and
    as [base_ring[var]] of the recursion parser. *)
(* ===================================================================== *)

Module Zx.

Fixpoint strip (l : list Z) : list Z :=
  match l with
  | [] => []
  | a :: l' =>
      if decide (a = 0%Z ∧ strip l' = []) then [] else a :: strip l'
  end.

Fixpoint add_raw (l1 l2 : list Z) : list Z :=
  match l1, l2 with
  | [], _ => l2
  | _, [] => l1
  | a :: l1', b :: l2' => (a + b)%Z :: add_raw l1' l2'
  end.

Fixpoint mul_raw (l1 l2 : list Z) : list Z :=
  match l1 with
  | [] => []
  | a :: l1' => add_raw (map (Z.mul a) l2) (0%Z :: mul_raw l1' l2)
  end.

(** [k * a_k, (k+1) * a_(k+1), ...] *)
Fixpoint scale_from (k : Z) (l : list Z) : list Z :=
  match l with
  | [] => []
  | a :: l' => (k * a)%Z :: scale_from (k + 1) l'
  end.

Definition add (p q : list Z) : list Z := strip (add_raw p q).
Definition mul (p q : list Z) : list Z := strip (mul_raw p q).
Definition derivative (p : list Z) (i : nat) : list Z :=
  match i with
  | O => strip (scale_from 1 (tail p))
  | S _ => []
  end.
Definition is_constant (p : list Z) : bool := bool_decide (length p ≤ 1).

Lemma strip_idemp l : strip (strip l) = strip l.
Proof.
  induction l as [|a l IH]; [done|]. simpl.
  case_decide as Hc; [done|]. simpl. rewrite IH.
  by rewrite decide_False.
Qed.

Lemma add_raw_nil_r l : add_raw l [] = l.
Proof. by destruct l. Qed.

Lemma mul_raw_one_r l : mul_raw l [1%Z] = l.
Proof.
  induction l as [|a l IH]; [done|]. simpl. rewrite IH. f_equal. lia.
Qed.

Lemma mul_raw_one_l l : strip (mul_raw [1%Z] l) = strip l.
Proof.
  simpl. destruct l as [|a l]; simpl; [done|].
  rewrite add_raw_nil_r.
  replace (map (Z.mul 1) l) with l.
  - by replace (1 * a + 0)%Z with a by lia.
  - rewrite <- (map_id l) at 1. apply map_ext. intros. lia.
Qed.

Definition in_ring (p : list Z) : Prop := strip p = p.

Lemma add_0_l p : in_ring p → add [] p = p.
Proof. done. Qed.

Lemma mul_1_l p : in_ring p → mul [1%Z] p = p.
Proof. intros Hp. unfold mul. by rewrite mul_raw_one_l. Qed.

Lemma mul_1_r p : in_ring p → mul p [1%Z] = p.
Proof. intros Hp. unfold mul. by rewrite mul_raw_one_r. Qed.

Lemma derivative_in_ring p i : in_ring p → in_ring (derivative p i).
Proof. intros _. destruct i; [apply strip_idemp|done]. Qed.

Lemma derivative_constant p i :
  in_ring p → is_constant p = true → derivative p i = [].
Proof.
  intros _ Hc. destruct i; [|done].
  by destruct p as [|a [|b p]].
Qed.

(** [x^2 + 3] and its derivative [2*x] *)
Definition x2_plus_3 : list Z := [3%Z; 0%Z; 1%Z].

Example derivative_x2_plus_3 : derivative x2_plus_3 0 = [0%Z; 2%Z].
Proof. reflexivity. Qed.

End Zx.

(* ===================================================================== *)
(** * sage/algebras/weyl_algebra.py *)
(* ===================================================================== *)

Module Weyl.

(** The base ring of a Weyl algebra: a polynomial ring [R] with [ngens]
    variables, as far as the multiplication code uses it. [in_ring p] says
    that the value [p] is an element of [R] in normal form. *)
Class PolynomialRing (R : Type) `{EqDecision R} := {
  in_ring : R → Prop;
  Rzero : R;
  Rone : R;
  Radd : R → R → R;
  Rmul : R → R → R;
  ngens : nat;
  is_constant : R → bool;
  (** [p.derivative(gens[i])] *)
  derivative : R → nat → R;
  in_ring_zero : in_ring Rzero;
  is_constant_zero : is_constant Rzero = true;
  Radd_0_l : ∀ p, in_ring p → Radd Rzero p = p;
  Rmul_1_l : ∀ p, in_ring p → Rmul Rone p = p;
  Rmul_1_r : ∀ p, in_ring p → Rmul p Rone = p;
  derivative_in_ring : ∀ p i, in_ring p → in_ring (derivative p i);
  derivative_constant :
    ∀ p i, in_ring p → is_constant p = true → derivative p i = Rzero;
}.

Section Algebra.

Context {R : Type} `{PolynomialRing R}.

(** The iteration order of a Python dictionary is not specified: [items]
    is any enumeration of the entries. An element of the Weyl algebra is
    its dictionary from exponent tuples of the derivations to
    coefficients in [R]. *)
Variable dict_items : gmap (list nat) R → list (list nat * R).
Hypothesis dict_items_perm : ∀ d, dict_items d ≡ₚ map_to_list d.

(** [d[t] = d.get(t, 0) + v; if d[t] == 0: del d[t]] *)
Definition accumulate (d : gmap (list nat) R) (t : list nat) (v : R)
  : gmap (list nat) R :=
  let s := Radd (default Rzero (d !! t)) v in
  if decide (s = Rzero) then delete t d else <[t := s]> d.

(** The body of the innermost loop of [expand_derivative], for the entry
    [(m, c)] of the snapshot [d.items()]; [None] is an [IndexError] or
    [KeyError]. *)
Definition derive_entry (i : nat) (mc : list nat * R)
  (d : gmap (list nat) R) : option (gmap (list nat) R) :=
  let m := mc.1 in
  let deriv := derivative mc.2 i in
  if decide (i < length m) then
    let L := alter S i m in
    match d !! m with
    | None => None
    | Some dm =>
        let d1 := <[L := Radd (default Rzero (d !! L)) dm]> d in
        Some (if decide (deriv = Rzero) then delete m d1
              else <[m := deriv]> d1)
    end
  else None.

(** [for j in range(p): for m, c in d.items(): ...] *)
Fixpoint derive_times (i p : nat) (d : gmap (list nat) R)
  : option (gmap (list nat) R) :=
  match p with
  | O => Some d
  | S p' =>
      match for_each (derive_entry i) (dict_items d) d with
      | None => None
      | Some d' => derive_times i p' d'
      end
  end.

Definition expand_derivative (poly : R) (exps : list nat)
  : option (gmap (list nat) R) :=
  if is_constant poly then Some {[ exps := poly ]}
  else
    for_each
      (λ ip d, if decide (ip.1 < ngens) then derive_times ip.1 ip.2 d
               else None)
      (indexed_from 0 exps)
      {[ replicate ngens 0 := poly ]}.

(** [tuple(v + mr[i] for i, v in enumerate(t))] *)
Definition add_exponents (t mr : list nat) : option (list nat) :=
  if decide (length t ≤ length mr) then Some (zip_with Nat.add t mr)
  else None.

Definition _mul_ (self rhs : gmap (list nat) R)
  : option (gmap (list nat) R) :=
  for_each
    (λ l d,
       for_each
         (λ r d,
            match expand_derivative r.2 l.1 with
            | None => None
            | Some e =>
                for_each
                  (λ tc d,
                     match add_exponents tc.1 r.1 with
                     | None => None
                     | Some t => Some (accumulate d t (Rmul l.2 tc.2))
                     end)
                  (dict_items e) d
            end)
         (dict_items rhs) d)
    (dict_items self) ∅.

Definition _rmul_ (self : gmap (list nat) R) (lhs : R) : gmap (list nat) R :=
  if decide (lhs = Rzero) then ∅ else (λ c, Rmul lhs c) <$> self.

Definition _lmul_ (self : gmap (list nat) R) (rhs : R)
  : option (gmap (list nat) R) :=
  for_each
    (λ mc d,
       match expand_derivative rhs mc.1 with
       | None => None
       | Some e =>
           Some (foldl (λ d tc, accumulate d tc.1 (Rmul mc.2 tc.2)) d
                       (dict_items e))
       end)
    (dict_items self) ∅.

Definition _add_ (self rhs : gmap (list nat) R) : gmap (list nat) R :=
  foldl (λ d mc, accumulate d mc.1 mc.2) self (dict_items rhs).

(** [gen(i)]: [L[i] = 1] raises [IndexError] for [i] out of range. *)
Definition gen (i : nat) : option (gmap (list nat) R) :=
  if decide (i < ngens) then Some {[ <[i := 1]> (replicate ngens 0) := Rone ]}
  else None.

Definition one : gmap (list nat) R := {[ replicate ngens 0 := Rone ]}.
Definition zero : gmap (list nat) R := ∅.

(** Modelled from the spec: the coercion [W(q)] of an element [q] of the
    base ring into the algebra is not defined in weyl_algebra.py (the
    category framework supplies it); it is the product [1 * q] of the unit
    of the algebra with the scalar [q]. *)
Definition from_base_ring (q : R) : option (gmap (list nat) R) :=
  _lmul_ one q.

(** ** Dictionaries with one or two entries *)

Lemma dict_items_empty : dict_items ∅ = [].
Proof using dict_items_perm.
  apply Permutation_nil_r. by rewrite dict_items_perm, map_to_list_empty.
Qed.

Lemma dict_items_singleton k v : dict_items {[ k := v ]} = [(k, v)].
Proof using dict_items_perm.
  apply Permutation_singleton_r.
  by rewrite dict_items_perm, map_to_list_singleton.
Qed.

Lemma dict_items_two k1 v1 k2 v2 :
  k1 ≠ k2 →
  dict_items (<[k1 := v1]> {[ k2 := v2 ]}) = [(k1, v1); (k2, v2)] ∨
  dict_items (<[k1 := v1]> {[ k2 := v2 ]}) = [(k2, v2); (k1, v1)].
Proof using dict_items_perm.
  intros Hne.
  assert (Hp : dict_items (<[k1 := v1]> {[ k2 := v2 ]})
               ≡ₚ [(k1, v1); (k2, v2)]).
  { rewrite dict_items_perm, map_to_list_insert.
    - by rewrite map_to_list_singleton.
    - by rewrite lookup_singleton_ne. }
  symmetry in Hp. by apply Permutation.Permutation_length_2_inv in Hp.
Qed.

(** [put k v d] stores a non-zero [v] under [k]. *)
Definition put (k : list nat) (v : R) (d : gmap (list nat) R)
  : gmap (list nat) R :=
  if decide (v = Rzero) then d else <[k := v]> d.

Lemma put_zero k d : put k Rzero d = d.
Proof. unfold put. by rewrite decide_True. Qed.

Lemma accumulate_fresh d t v :
  d !! t = None → in_ring v → accumulate d t v = put t v d.
Proof.
  intros Ht Hv. unfold accumulate, put. rewrite Ht. simpl.
  rewrite (Radd_0_l v Hv). case_decide; [|done]. by apply delete_id.
Qed.

Lemma put_comm k1 v1 k2 v2 d :
  k1 ≠ k2 → put k1 v1 (put k2 v2 d) = put k2 v2 (put k1 v1 d).
Proof.
  intros Hne. unfold put. repeat case_decide; try done.
  by apply insert_insert_ne.
Qed.

Lemma lookup_put_ne k1 k2 v d : k1 ≠ k2 → put k1 v d !! k2 = d !! k2.
Proof.
  intros Hne. unfold put. case_decide; [done|]. by apply lookup_insert_ne.
Qed.

(** ** The derivation by one generator *)

(** The exponent tuple of the generator [d_i]. *)
Definition unit_exps (i : nat) : list nat := <[i := 1]> (replicate ngens 0).

Lemma alter_S_zeros i :
  alter S i (replicate ngens 0) = unit_exps i.
Proof.
  unfold unit_exps. apply list_eq. intros j.
  destruct (decide (i = j)) as [<-|Hne].
  - rewrite list_lookup_alter_eq.
    destruct (decide (i < ngens)) as [Hlt|Hge].
    + rewrite list_lookup_insert_eq by by rewrite length_replicate.
      by rewrite lookup_replicate_2.
    + rewrite list_insert_ge by (rewrite length_replicate; lia).
      by destruct (replicate ngens 0 !! i) eqn:E;
        [apply lookup_replicate_1 in E as [_ ?]; lia|].
  - rewrite list_lookup_alter_ne by done.
    by rewrite list_lookup_insert_ne.
Qed.

Lemma unit_exps_ne i : i < ngens → unit_exps i ≠ replicate ngens 0.
Proof.
  intros Hlt Heq. apply (f_equal (.!! i)) in Heq. unfold unit_exps in Heq.
  rewrite list_lookup_insert_eq in Heq by by rewrite length_replicate.
  by rewrite lookup_replicate_2 in Heq.
Qed.

Lemma unit_exps_length i : length (unit_exps i) = ngens.
Proof. unfold unit_exps. by rewrite length_insert, length_replicate. Qed.

(** Exponents zero: nothing is derived. *)
Lemma expand_zero_exponents k m d :
  k + m ≤ ngens →
  for_each
    (λ (ip : nat * nat) d,
       if decide (ip.1 < ngens) then derive_times ip.1 ip.2 d else None)
    (indexed_from k (replicate m 0)) d
  = Some d.
Proof.
  revert k. induction m as [|m IH]; intros k Hk; simpl; [done|].
  rewrite decide_True by lia. simpl. apply IH. lia.
Qed.

Lemma expand_derivative_zeros q :
  expand_derivative q (replicate ngens 0)
  = Some {[ replicate ngens 0 := q ]}.
Proof.
  unfold expand_derivative. destruct (is_constant q); [done|].
  by apply expand_zero_exponents.
Qed.

Lemma expand_derivative_gen i p :
  i < ngens → in_ring p →
  expand_derivative p (unit_exps i)
  = Some (if is_constant p then {[ unit_exps i := p ]}
          else put (replicate ngens 0) (derivative p i)
                   {[ unit_exps i := p ]}).
Proof using dict_items_perm.
  intros Hlt Hp. unfold expand_derivative.
  destruct (is_constant p); [done|].
  unfold unit_exps at 1. rewrite insert_replicate_lt by done.
  rewrite indexed_from_app, for_each_app.
  rewrite expand_zero_exponents by lia.
  rewrite length_replicate. simpl.
  rewrite decide_True by done.
  rewrite dict_items_singleton. simpl.
  unfold derive_entry. simpl.
  rewrite decide_True by by rewrite length_replicate.
  rewrite lookup_singleton_eq, alter_S_zeros.
  rewrite lookup_singleton_ne by (apply not_eq_sym; by apply unit_exps_ne).
  simpl. rewrite (Radd_0_l p Hp).
  rewrite expand_zero_exponents by lia.
  f_equal. unfold put. pose proof (unit_exps_ne i Hlt) as Hne.
  case_decide.
  - rewrite delete_insert_ne by done. rewrite delete_singleton_eq.
    by rewrite insert_empty.
  - rewrite insert_insert_ne by by apply not_eq_sym.
    rewrite <- insert_empty, insert_insert_eq.
    rewrite insert_insert_ne by done. by rewrite !insert_empty.
Qed.

(** ** Products with a generator *)

Lemma from_base_ring_eq q :
  in_ring q → from_base_ring q = Some (put (replicate ngens 0) q ∅).
Proof using dict_items_perm.
  intros Hq. unfold from_base_ring, _lmul_, one.
  rewrite dict_items_singleton. simpl.
  rewrite expand_derivative_zeros, dict_items_singleton. simpl.
  rewrite (Rmul_1_l q Hq). by rewrite accumulate_fresh.
Qed.

Lemma lmul_gen i p :
  i < ngens → in_ring p →
  _lmul_ {[ unit_exps i := Rone ]} p
  = Some (put (replicate ngens 0) (derivative p i)
              (put (unit_exps i) p ∅)).
Proof using dict_items_perm.
  intros Hlt Hp. unfold _lmul_.
  rewrite dict_items_singleton. simpl.
  rewrite expand_derivative_gen by done.
  pose proof (derivative_in_ring p i Hp) as Hd.
  pose proof (unit_exps_ne i Hlt) as Hne.
  assert (Hone : foldl (λ d tc, accumulate d tc.1 (Rmul Rone tc.2)) ∅
                   (dict_items {[ unit_exps i := p ]})
                 = put (unit_exps i) p ∅).
  { rewrite dict_items_singleton. simpl.
    rewrite (Rmul_1_l p Hp). by rewrite accumulate_fresh. }
  destruct (is_constant p) eqn:Hc; simpl; f_equal.
  - rewrite Hone. rewrite (derivative_constant p i Hp Hc).
    by rewrite put_zero.
  - unfold put at 1. case_decide as Hz.
    + rewrite Hone. rewrite Hz. by rewrite put_zero.
    + destruct (dict_items_two (replicate ngens 0) (derivative p i)
                  (unit_exps i) p) as [-> | ->]; [by apply not_eq_sym|..];
        simpl; rewrite !(Rmul_1_l _ Hp), !(Rmul_1_l _ Hd).
      * rewrite (accumulate_fresh ∅) by done.
        rewrite accumulate_fresh; [|by rewrite lookup_put_ne|done].
        by apply put_comm.
      * rewrite (accumulate_fresh ∅) by done.
        rewrite accumulate_fresh; [done| |done].
        by rewrite lookup_put_ne.
Qed.

Lemma rmul_gen i p :
  in_ring p → _rmul_ {[ unit_exps i := Rone ]} p = put (unit_exps i) p ∅.
Proof.
  intros Hp. unfold _rmul_, put. case_decide; [done|].
  rewrite map_fmap_singleton, (Rmul_1_r p Hp). by rewrite insert_empty.
Qed.

Lemma add_scalar d q :
  in_ring q → d !! replicate ngens 0 = None →
  _add_ d (put (replicate ngens 0) q ∅) = put (replicate ngens 0) q d.
Proof using dict_items_perm.
  intros Hq Hd. unfold _add_, put at 1. case_decide as Hz.
  - rewrite dict_items_empty. simpl. subst q. by rewrite put_zero.
  - rewrite insert_empty, dict_items_singleton. simpl.
    by apply accumulate_fresh.
Qed.

Lemma add_exponents_zeros t :
  length t = ngens → add_exponents t (replicate ngens 0) = Some t.
Proof.
  intros Ht. unfold add_exponents.
  rewrite decide_True by (rewrite length_replicate; lia).
  rewrite zip_with_replicate_r_eq by done. f_equal.
  rewrite <- (list_fmap_id t) at 2. apply list_fmap_ext.
  intros ? x _. unfold flip. simpl. lia.
Qed.

(** The innermost loop of [_mul_] for a right factor of exponents zero
    is the loop of [_lmul_]. *)
Lemma mul_inner_loop (c : R) (l : list (list nat * R)) d :
  (∀ tc, tc ∈ l → length tc.1 = ngens) →
  for_each
    (λ (tc : list nat * R) d,
       match add_exponents tc.1 (replicate ngens 0) with
       | None => None
       | Some t => Some (accumulate d t (Rmul c tc.2))
       end) l d
  = Some (foldl (λ d tc, accumulate d tc.1 (Rmul c tc.2)) d l).
Proof.
  revert d. induction l as [|tc l IH]; intros d Hlen; simpl; [done|].
  rewrite add_exponents_zeros by (apply Hlen; left). apply IH.
  intros tc' Hin. apply Hlen. by right.
Qed.

Lemma mul_gen i p :
  i < ngens → in_ring p →
  _mul_ {[ unit_exps i := Rone ]} (put (replicate ngens 0) p ∅)
  = Some (put (replicate ngens 0) (derivative p i)
              (put (unit_exps i) p ∅)).
Proof using dict_items_perm.
  intros Hlt Hp. unfold _mul_.
  rewrite dict_items_singleton. simpl.
  pose proof (derivative_in_ring p i Hp) as Hd.
  pose proof (unit_exps_ne i Hlt) as Hne.
  unfold put at 1. case_decide as Hz.
  - rewrite dict_items_empty. simpl. subst p.
    rewrite (derivative_constant _ i in_ring_zero is_constant_zero).
    by rewrite !put_zero.
  - rewrite insert_empty, dict_items_singleton. simpl.
    pose proof (lmul_gen i p Hlt Hp) as Hl. unfold _lmul_ in Hl.
    rewrite dict_items_singleton in Hl. simpl in Hl.
    destruct (expand_derivative p (unit_exps i)) as [e|] eqn:He; [|done].
    injection Hl as Hl.
    rewrite mul_inner_loop; [simpl; by rewrite Hl|].
    rewrite expand_derivative_gen in He by done. injection He as <-.
    intros [t c]. rewrite dict_items_perm, elem_of_map_to_list. simpl.
    unfold put. destruct (is_constant p); [|case_decide].
    + intros [<- _]%lookup_singleton_Some. apply unit_exps_length.
    + intros [<- _]%lookup_singleton_Some. apply unit_exps_length.
    + rewrite lookup_insert. case_decide as Hk.
      * intros _. subst t. apply length_replicate.
      * intros [<- _]%lookup_singleton_Some. apply unit_exps_length.
Qed.

(** C2: for a generator [d_i] of the Weyl algebra of [R] and a polynomial
    [p] of [R], [d_i * p == p * d_i + dp/dx_i]; the product is computed by
    [_lmul_] when [p] is taken as a scalar, and by [_mul_] when [p] is
    first coerced into the algebra. *)
Theorem C2_generator_commutation (i : nat) (p : R) d_i :
  gen i = Some d_i → in_ring p →
  ∃ dp Wp,
    from_base_ring (derivative p i) = Some dp ∧
    from_base_ring p = Some Wp ∧
    _lmul_ d_i p = Some (_add_ (_rmul_ d_i p) dp) ∧
    _mul_ d_i Wp = Some (_add_ (_rmul_ d_i p) dp).
Proof using dict_items_perm.
  unfold gen. case_decide as Hlt; [|done]. intros [= <-] Hp.
  pose proof (derivative_in_ring p i Hp) as Hd.
  fold (unit_exps i).
  exists (put (replicate ngens 0) (derivative p i) ∅),
         (put (replicate ngens 0) p ∅).
  rewrite !from_base_ring_eq by done.
  rewrite lmul_gen, mul_gen, rmul_gen by done.
  rewrite add_scalar; [done|done|].
  rewrite lookup_put_ne; [done|by apply unit_exps_ne].
Qed.

End Algebra.

(** ** An instance: the Weyl algebra of [ZZ[x]] *)
#[global] Instance polynomial_ring : PolynomialRing (list Z) := {|
  in_ring := Zx.in_ring;
  Rzero := [];
  Rone := [1%Z];
  Radd := Zx.add;
  Rmul := Zx.mul;
  ngens := 1;
  is_constant := Zx.is_constant;
  derivative := Zx.derivative;
  in_ring_zero := eq_refl;
  is_constant_zero := eq_refl;
  Radd_0_l := Zx.add_0_l;
  Rmul_1_l := Zx.mul_1_l;
  Rmul_1_r := Zx.mul_1_r;
  derivative_in_ring := Zx.derivative_in_ring;
  derivative_constant := Zx.derivative_constant;
|}.


(** [dx * (x^2 + 3) = 2*x + (x^2 + 3)*dx] *)
Example lmul_dx_x2_plus_3 :
  _lmul_ map_to_list {[ [1] := [1%Z] ]} Zx.x2_plus_3
  = Some (<[ [0] := [0%Z; 2%Z] ]> {[ [1] := [3%Z; 0%Z; 1%Z] ]}).
Proof. vm_compute. reflexivity. Qed.

Lemma C2_generator_commutation_witness :
  ∃ dp Wp,
    from_base_ring map_to_list (derivative Zx.x2_plus_3 0) = Some dp ∧
    from_base_ring map_to_list Zx.x2_plus_3 = Some Wp ∧
    _lmul_ map_to_list {[ [1] := [1%Z] ]} Zx.x2_plus_3
    = Some (_add_ map_to_list
              (_rmul_ {[ [1] := [1%Z] ]} Zx.x2_plus_3) dp) ∧
    _mul_ map_to_list {[ [1] := [1%Z] ]} Wp
    = Some (_add_ map_to_list
              (_rmul_ {[ [1] := [1%Z] ]} Zx.x2_plus_3) dp).
Proof.
  apply (C2_generator_commutation (R := list Z) map_to_list
           (λ d, reflexivity _) 0 Zx.x2_plus_3 {[ [1] := [1%Z] ]}).
  - reflexivity.
  - reflexivity.
Defined.

(** ** Further operations of the elements *)

Section Elements.

Context {R : Type} `{PolynomialRing R}.

(** The right-hand side of a comparison: an element of the algebra, or
    any other value, which [__eq__] compares with the constant
    coefficient. *)
Inductive operand :=
| Element (e : gmap (list nat) R)
| Other (q : R).

Definition __eq__ (self : gmap (list nat) R) (rhs : operand) : bool :=
  match rhs with
  | Other q => bool_decide (default Rzero (self !! replicate ngens 0) = q)
  | Element e => bool_decide (self = e)
  end.

Definition __ne__ (self : gmap (list nat) R) (rhs : operand) : bool :=
  negb (__eq__ self rhs).

(** X16: Compared with a value that is not an element of the algebra, an
    element counts as equal as soon as its constant coefficient is this
    value, whatever its other terms: every generator [d_i] is [== 0],
    and not [!= 0], although it differs from the element [W.zero()]. *)
Theorem eq_compares_constant_coefficient (x : gmap (list nat) R) (q : R)
  (i : nat) :
  (__eq__ x (Other q) = true
   ↔ default Rzero (x !! replicate ngens 0) = q) ∧
  (∀ d_i, gen i = Some d_i →
     __eq__ d_i (Other Rzero) = true ∧
     __ne__ d_i (Other Rzero) = false ∧
     __eq__ d_i (Element zero) = false).
Proof.
  split; [apply bool_decide_eq_true|].
  intros d_i. unfold gen. case_decide as Hlt; [|done]. intros [= <-].
  fold (unit_exps i). unfold __ne__, __eq__.
  rewrite lookup_singleton_ne by by apply unit_exps_ne.
  simpl. rewrite bool_decide_eq_true_2 by done.
  split; [done|]. split; [done|].
  apply bool_decide_eq_false. unfold zero. intros Heq.
  apply (f_equal (.!! unit_exps i)) in Heq.
  by rewrite lookup_singleton_eq, lookup_empty in Heq.
Qed.

Section Products.

Variable dict_items : gmap (list nat) R → list (list nat * R).
Hypothesis dict_items_perm : ∀ d, dict_items d ≡ₚ map_to_list d.

Lemma items_singleton k v : dict_items {[ k := v ]} = [(k, v)].
Proof using dict_items_perm. by apply dict_items_singleton. Qed.

Lemma items_empty : dict_items ∅ = [].
Proof using dict_items_perm. by apply dict_items_empty. Qed.

(** The invariant of the elements: exponent tuples of length [ngens] and
    coefficients of the base ring, none of them zero. *)
Definition well_formed (x : gmap (list nat) R) : Prop :=
  ∀ m c, x !! m = Some c → length m = ngens ∧ in_ring c ∧ c ≠ Rzero.

Lemma add_zeros_exponents (mr : list nat) :
  length mr = ngens → add_exponents (replicate ngens 0) mr = Some mr.
Proof.
  intros Hlen. unfold add_exponents.
  rewrite decide_True by (rewrite length_replicate; lia). f_equal.
  rewrite <- Hlen. clear. induction mr as [|a mr IH]; [done|].
  simpl. by rewrite IH.
Qed.

(** Accumulating terms of distinct exponents into a dictionary that has
    none of them stores each of them. *)
Lemma accumulate_items (l : list (list nat * R)) d :
  NoDup l.*1 →
  (∀ mc, mc ∈ l → d !! mc.1 = None ∧ in_ring mc.2 ∧ mc.2 ≠ Rzero) →
  foldl (λ d mc, accumulate d mc.1 mc.2) d l
  = foldl (λ d mc, <[mc.1 := mc.2]> d) d l.
Proof.
  revert d. induction l as [|[m c] l IH]; intros d Hnd Hl; [done|].
  simpl in *. apply NoDup_cons in Hnd as [Hni Hnd].
  destruct (Hl (m, c)) as (Hm & Hc & Hz); [left|]. simpl in *.
  rewrite accumulate_fresh by done. unfold put. rewrite decide_False by done.
  apply IH; [done|]. intros mc Hin.
  destruct (Hl mc) as (Hm' & Hc' & Hz'); [by right|].
  split; [|done]. rewrite lookup_insert_ne; [done|].
  intros Heq. apply Hni. rewrite Heq. apply list_elem_of_fmap. by exists mc.
Qed.

Lemma accumulate_dict_items x :
  well_formed x →
  foldl (λ d mc, accumulate d mc.1 mc.2) ∅ (dict_items x) = x.
Proof using dict_items_perm.
  intros Hx. rewrite accumulate_items.
  - apply foldl_insert_items, dict_items_perm.
  - rewrite dict_items_perm. apply NoDup_fst_map_to_list.
  - intros [m c] Hin. rewrite dict_items_perm in Hin.
    apply elem_of_map_to_list in Hin.
    destruct (Hx m c Hin) as (_ & ? & ?). by rewrite lookup_empty.
Qed.

Lemma for_each_foldl {A S : Type} (f : A → S → option S) (g : S → A → S)
  (l : list A) (s : S) :
  (∀ a s, a ∈ l → f a s = Some (g s a)) →
  for_each f l s = Some (foldl g s l).
Proof.
  revert s. induction l as [|a l IH]; intros s Hf; [done|].
  simpl. rewrite Hf by left. apply IH. intros. apply Hf. by right.
Qed.

(** X17: [W.one()] is a unit for the product of elements: [1 * x == x] and
    [x * 1 == x]; and the product with [W.zero()] is zero. *)
Theorem mul_one (x : gmap (list nat) R) :
  well_formed x → is_constant Rone = true →
  _mul_ dict_items one x = Some x ∧
  _mul_ dict_items x one = Some x ∧
  _mul_ dict_items zero x = Some zero ∧
  _mul_ dict_items x zero = Some zero.
Proof using dict_items_perm.
  intros Hx Hone.
  assert (Hitems : ∀ mc, mc ∈ dict_items x →
                         length mc.1 = ngens ∧ in_ring mc.2 ∧ mc.2 ≠ Rzero).
  { intros [m c] Hin. rewrite dict_items_perm in Hin.
    apply elem_of_map_to_list in Hin. by apply Hx. }
  split; [|split; [|split]].
  - unfold _mul_, one. rewrite items_singleton. simpl.
    rewrite (for_each_foldl _ (λ d mc, accumulate d mc.1 mc.2)).
    + by rewrite accumulate_dict_items.
    + intros [mr cr] d Hin. destruct (Hitems _ Hin) as (Hlen & Hc & _).
      simpl in *. rewrite expand_derivative_zeros, items_singleton.
      simpl. rewrite add_zeros_exponents by done.
      by rewrite (Rmul_1_l cr Hc).
  - unfold _mul_, one.
    rewrite (for_each_foldl _ (λ d mc, accumulate d mc.1 mc.2)).
    + by rewrite accumulate_dict_items.
    + intros [ml cl] d Hin. destruct (Hitems _ Hin) as (Hlen & Hc & _).
      simpl in *. rewrite items_singleton. simpl.
      unfold expand_derivative. rewrite Hone, items_singleton. simpl.
      rewrite add_exponents_zeros by done.
      by rewrite (Rmul_1_r cl Hc).
  - unfold _mul_, zero. by rewrite items_empty.
  - unfold _mul_, zero. rewrite items_empty. simpl.
    generalize (dict_items x). intros l. clear.
    induction l as [|a l IH]; [done|]. simpl. exact IH.
Qed.

(** X18: The product of two monomials in the derivations adds their
    exponents, so that the derivations commute with each other:
    [d_i * d_j == d_j * d_i]. *)
Theorem mul_derivations (a b : list nat) :
  in_ring Rone → is_constant Rone = true → length a = length b →
  _mul_ dict_items {[ a := Rone ]} {[ b := Rone ]}
  = Some (put (zip_with Nat.add a b) Rone ∅) ∧
  _mul_ dict_items {[ a := Rone ]} {[ b := Rone ]}
  = _mul_ dict_items {[ b := Rone ]} {[ a := Rone ]}.
Proof using dict_items_perm.
  intros Hin Hone Hlen.
  assert (Hmul : ∀ a b : list nat, length a = length b →
            _mul_ dict_items {[ a := Rone ]} {[ b := Rone ]}
            = Some (put (zip_with Nat.add a b) Rone ∅)).
  { clear a b Hlen. intros a b Hlen. unfold _mul_.
    rewrite !items_singleton. simpl.
    unfold expand_derivative. rewrite Hone, items_singleton. simpl.
    unfold add_exponents. rewrite decide_True by lia.
    rewrite (Rmul_1_l Rone Hin). by rewrite accumulate_fresh. }
  split; [by apply Hmul|].
  rewrite !Hmul by done. do 2 f_equal.
  clear -Hlen. revert b Hlen. induction a as [|x a IH]; intros [|y b] Hlen;
    simpl in *; try done.
  f_equal; [lia|]. apply IH. lia.
Qed.

End Products.

(** ** The second derivative: the order of the dictionary matters *)

(** The exponent tuple of [d_i^2]. *)
Definition square_exps (i : nat) : list nat := <[i := 2]> (replicate ngens 0).

Lemma alter_S_unit i : alter S i (unit_exps i) = square_exps i.
Proof.
  unfold unit_exps, square_exps. apply list_eq. intros j.
  destruct (decide (i = j)) as [<-|Hne].
  - rewrite list_lookup_alter_eq.
    destruct (decide (i < ngens)) as [Hlt|Hge].
    + by rewrite !list_lookup_insert_eq by by rewrite length_replicate.
    + rewrite !list_insert_ge by (rewrite length_replicate; lia).
      by destruct (replicate ngens 0 !! i) eqn:E;
        [apply lookup_replicate_1 in E as [_ ?]; lia|].
  - rewrite list_lookup_alter_ne by done.
    by rewrite !list_lookup_insert_ne.
Qed.

Lemma square_exps_ne i :
  i < ngens →
  square_exps i ≠ replicate ngens 0 ∧ square_exps i ≠ unit_exps i.
Proof.
  intros Hlt. split; intros Heq; apply (f_equal (.!! i)) in Heq;
    unfold square_exps, unit_exps in Heq;
    rewrite !list_lookup_insert_eq in Heq by by rewrite length_replicate.
  - by rewrite lookup_replicate_2 in Heq.
  - done.
Qed.

(** X19: [expand_derivative(p, exps)] for the exponents of [d_i^2], when [p]
    and its derivative [p'] are not constant zero. After the first
    derivation the dictionary holds [p'] and [p * d_i]. If the second
    derivation visits [p * d_i] first the result is
    [p'' + 2p' * d_i + p * d_i^2], the rule of Leibniz; if it visits [p']
    first the result is [p'' + p' * d_i + (p + p') * d_i^2]. Both orders
    are enumerations of the same dictionary. *)
Theorem expand_derivative_square
  (items_a items_b : gmap (list nat) R → list (list nat * R)) (i : nat)
  (p : R) :
  let p' := derivative p i in
  let p'' := derivative p' i in
  let after_one := <[replicate ngens 0 := p']> {[ unit_exps i := p ]} in
  (∀ d, items_a d ≡ₚ map_to_list d) →
  (∀ d, items_b d ≡ₚ map_to_list d) →
  i < ngens → in_ring p → is_constant p = false → p' ≠ Rzero →
  items_a after_one = [(unit_exps i, p); (replicate ngens 0, p')] →
  items_b after_one = [(replicate ngens 0, p'); (unit_exps i, p)] →
  expand_derivative items_a p (square_exps i)
  = Some (put (replicate ngens 0) p''
            (<[unit_exps i := Radd p' p']> {[ square_exps i := p ]})) ∧
  expand_derivative items_b p (square_exps i)
  = Some (put (replicate ngens 0) p''
            (<[unit_exps i := p']>
               {[ square_exps i := Radd Rzero (Radd p p') ]})).
Proof.
  intros p' p'' after_one Ha Hb Hlt Hp Hc Hp' Hord_a Hord_b.
  pose proof (unit_exps_ne i Hlt) as Hne.
  destruct (square_exps_ne i Hlt) as [Hsq0 Hsq1].
  assert (Hfirst : ∀ items, (∀ d, items d ≡ₚ map_to_list d) →
            for_each (derive_entry i)
              (items {[ replicate ngens 0 := p ]}) {[ replicate ngens 0 := p ]}
            = Some after_one).
  { intros items Hitems. rewrite (dict_items_singleton items Hitems). simpl.
    unfold derive_entry. simpl.
    rewrite decide_True by by rewrite length_replicate.
    rewrite lookup_singleton_eq, alter_S_zeros.
    rewrite lookup_singleton_ne by by apply not_eq_sym.
    simpl. rewrite (Radd_0_l p Hp). fold p'. rewrite decide_False by done.
    f_equal. unfold after_one.
    rewrite insert_insert_ne by by apply not_eq_sym.
    rewrite <- insert_empty, insert_insert_eq.
    rewrite insert_insert_ne by done. by rewrite !insert_empty. }
  assert (Hshape : ∀ items, (∀ d, items d ≡ₚ map_to_list d) → ∀ result,
            for_each (derive_entry i) (items after_one) after_one
            = Some result →
            expand_derivative items p (square_exps i) = Some result).
  { intros items Hitems result Hsecond. unfold expand_derivative. rewrite Hc.
    unfold square_exps. rewrite insert_replicate_lt by done.
    rewrite indexed_from_app, for_each_app.
    rewrite expand_zero_exponents by lia.
    rewrite length_replicate. cbn [indexed_from for_each fst snd].
    rewrite decide_True by done. cbn [derive_times].
    change (0 + i) with i.
    rewrite (Hfirst items Hitems), Hsecond.
    apply expand_zero_exponents. lia. }
  assert (Hlen0 : i < length (replicate ngens 0))
    by by rewrite length_replicate.
  assert (Hlen1 : i < length (unit_exps i))
    by by rewrite unit_exps_length.
  assert (Hstep : ∀ m c (d : gmap (list nat) R) dm,
            i < length m → d !! m = Some dm →
            derive_entry i (m, c) d
            = Some (let d1 := <[alter S i m :=
                                  Radd (default Rzero (d !! alter S i m)) dm]> d
                    in if decide (derivative c i = Rzero) then delete m d1
                       else <[m := derivative c i]> d1)).
  { intros m c d dm Hm Hdm. unfold derive_entry. simpl.
    rewrite decide_True by done. by rewrite Hdm. }
  assert (Hne' : replicate ngens 0 ≠ unit_exps i) by by apply not_eq_sym.
  assert (Hsq0' : replicate ngens 0 ≠ square_exps i) by by apply not_eq_sym.
  assert (Hsq1' : unit_exps i ≠ square_exps i) by by apply not_eq_sym.
  split.
  - apply (Hshape items_a Ha). rewrite Hord_a. cbn [for_each].
    rewrite (Hstep (unit_exps i) p after_one p Hlen1)
      by (unfold after_one; by rewrite lookup_insert_ne, lookup_singleton_eq).
    rewrite alter_S_unit. cbv zeta. fold p'. rewrite decide_False by done.
    assert (Hsq : after_one !! square_exps i = None).
    { unfold after_one.
      by rewrite lookup_insert_ne, lookup_singleton_ne by done. }
    rewrite Hsq. simpl default. rewrite (Radd_0_l p Hp).
    set (D1 := <[unit_exps i := p']> (<[square_exps i := p]> after_one)).
    rewrite (Hstep (replicate ngens 0) p' D1 p' Hlen0)
      by (unfold D1, after_one;
          by rewrite !lookup_insert_ne, lookup_insert_eq by done).
    rewrite alter_S_zeros. cbv zeta. fold p''.
    assert (Hu : D1 !! unit_exps i = Some p')
      by (unfold D1; by rewrite lookup_insert_eq).
    rewrite Hu. simpl default. f_equal.
    unfold put, D1, after_one. apply map_eq. intros k.
    destruct (decide (p'' = Rzero)) as [Hz|Hz];
      repeat first [rewrite lookup_delete | rewrite lookup_insert
                   | rewrite lookup_singleton];
      repeat case_decide; subst; try done; congruence.
  - apply (Hshape items_b Hb). rewrite Hord_b. cbn [for_each].
    rewrite (Hstep (replicate ngens 0) p' after_one p' Hlen0)
      by (unfold after_one; by rewrite lookup_insert_eq).
    rewrite alter_S_zeros. cbv zeta. fold p''.
    assert (Hu : after_one !! unit_exps i = Some p).
    { unfold after_one.
      by rewrite lookup_insert_ne, lookup_singleton_eq by done. }
    rewrite Hu. simpl default.
    set (D1 := if decide (p'' = Rzero)
               then delete (replicate ngens 0)
                      (<[unit_exps i := Radd p p']> after_one)
               else <[replicate ngens 0 := p'']>
                      (<[unit_exps i := Radd p p']> after_one)).
    assert (Hu1 : D1 !! unit_exps i = Some (Radd p p')).
    { unfold D1. case_decide.
      - by rewrite lookup_delete_ne, lookup_insert_eq by done.
      - by rewrite lookup_insert_ne, lookup_insert_eq by done. }
    assert (Hs1 : D1 !! square_exps i = None).
    { unfold D1, after_one. case_decide.
      - by rewrite lookup_delete_ne, !lookup_insert_ne, lookup_singleton_ne
          by done.
      - by rewrite !lookup_insert_ne, lookup_singleton_ne by done. }
    rewrite (Hstep (unit_exps i) p D1 (Radd p p') Hlen1 Hu1).
    rewrite alter_S_unit. cbv zeta. fold p'. rewrite decide_False by done.
    rewrite Hs1. simpl default. f_equal.
    unfold put, D1, after_one. apply map_eq. intros k.
    destruct (decide (p'' = Rzero)) as [Hz|Hz];
      repeat first [rewrite lookup_delete | rewrite lookup_insert
                   | rewrite lookup_singleton];
      repeat case_decide; subst; try done; congruence.
Qed.

(** ** Negation and addition *)

Section Negation.

Variable dict_items : gmap (list nat) R → list (list nat * R).
Hypothesis dict_items_perm : ∀ d, dict_items d ≡ₚ map_to_list d.

(** The negation of the base ring. *)
Variable Ropp : R → R.
Hypothesis Radd_opp_r : ∀ c, in_ring c → Radd c (Ropp c) = Rzero.

(** [{m: -c for m, c in self.__monomials.items()}] *)
Definition __neg__ (self : gmap (list nat) R) : gmap (list nat) R :=
  Ropp <$> self.

Lemma lookup_accumulate d t v k :
  accumulate d t v !! k
  = if decide (t = k)
    then (if decide (Radd (default Rzero (d !! t)) v = Rzero) then None
          else Some (Radd (default Rzero (d !! t)) v))
    else d !! k.
Proof.
  unfold accumulate. destruct (decide (t = k)) as [->|Hne]; case_decide.
  - by rewrite lookup_delete_eq.
  - by rewrite lookup_insert_eq.
  - by rewrite lookup_delete_ne.
  - by rewrite lookup_insert_ne.
Qed.

Lemma add_neg_items (x : gmap (list nat) R) (l : list (list nat * R)) d k :
  NoDup l.*1 →
  (∀ mc, mc ∈ l → ∃ c, d !! mc.1 = Some c ∧ in_ring c ∧ mc.2 = Ropp c) →
  foldl (λ d mc, accumulate d mc.1 mc.2) d l !! k
  = if decide (k ∈ l.*1) then None else d !! k.
Proof using Radd_opp_r.
  revert d. induction l as [|[m c'] l IH]; intros d Hnd Hl.
  { destruct (decide (k ∈ [].*1)) as [Hk|]; [by apply elem_of_nil in Hk|done]. }
  rewrite fmap_cons in Hnd |- *. cbn [foldl fst snd] in *.
  apply NoDup_cons in Hnd as [Hni Hnd].
  destruct (Hl (m, c')) as (c & Hm & Hc & Hopp); [left|].
  cbn [fst snd] in *. subst c'.
  rewrite IH; [|done|].
  - rewrite lookup_accumulate, Hm. cbn [from_option id].
    rewrite (Radd_opp_r c Hc).
    rewrite (decide_True (P := Rzero = Rzero)) by done.
    destruct (decide (m = k)) as [->|Hne].
    + rewrite (decide_True (P := k ∈ k :: l.*1)) by left. by case_decide.
    + destruct (decide (k ∈ l.*1)) as [Hin|Hin].
      * rewrite decide_True; [done|by right].
      * rewrite decide_False; [done|].
        rewrite not_elem_of_cons. by split; [apply not_eq_sym|].
  - intros mc Hin. destruct (Hl mc) as (c0 & Hm0 & Hc0 & Hopp); [by right|].
    exists c0. split; [|done]. rewrite lookup_accumulate.
    rewrite decide_False; [done|]. intros ->. apply Hni.
    apply list_elem_of_fmap. by exists mc.
Qed.

(** X20: [x + (-x)] is the zero element, with no term left, and zero is
    neutral for the addition. *)
Theorem add_neg (x : gmap (list nat) R) :
  well_formed x →
  _add_ dict_items x (__neg__ x) = zero ∧
  _add_ dict_items x zero = x ∧
  _add_ dict_items zero x = x.
Proof using dict_items_perm Radd_opp_r.
  intros Hx. split; [|split].
  - unfold _add_, zero. apply map_eq. intros k.
    rewrite (add_neg_items x).
    + rewrite lookup_empty. case_decide as Hk; [done|].
      destruct (x !! k) as [c|] eqn:Hc; [|done]. destruct Hk.
      apply list_elem_of_fmap. exists (k, Ropp c). split; [done|].
      rewrite dict_items_perm. apply elem_of_map_to_list.
      unfold __neg__. by rewrite lookup_fmap, Hc.
    + rewrite dict_items_perm. apply NoDup_fst_map_to_list.
    + intros [m c'] Hin. rewrite dict_items_perm in Hin.
      apply elem_of_map_to_list in Hin. unfold __neg__ in Hin.
      rewrite lookup_fmap in Hin.
      destruct (x !! m) as [c|] eqn:Hc; [|done].
      injection Hin as <-. exists c.
      destruct (Hx m c Hc) as (_ & ? & _). done.
  - unfold _add_, zero. by rewrite (dict_items_empty dict_items dict_items_perm).
  - unfold _add_, zero. by apply (accumulate_dict_items dict_items dict_items_perm).
Qed.

End Negation.

End Elements.

(** ** The Weyl algebra of [ZZ[x]] again *)

Lemma Zx_add_opp (c : list Z) : in_ring c → Radd c (map Z.opp c) = Rzero.
Proof.
  intros _. change (Zx.add c (map Z.opp c) = []). unfold Zx.add. induction c as [|a c IH]; [done|].
  simpl. rewrite IH. rewrite decide_True; [done|]. split; [lia|done].
Qed.

(** [(x^2 + 3) * dx] *)
Definition x2_plus_3_dx : gmap (list nat) (list Z) :=
  {[ [1] := Zx.x2_plus_3 ]}.

Lemma x2_plus_3_dx_well_formed : well_formed x2_plus_3_dx.
Proof.
  unfold x2_plus_3_dx. intros m c [<- <-]%lookup_singleton_Some.
  by repeat split.
Qed.

Lemma mul_one_witness :
  _mul_ map_to_list one x2_plus_3_dx = Some x2_plus_3_dx ∧
  _mul_ map_to_list x2_plus_3_dx one = Some x2_plus_3_dx ∧
  _mul_ map_to_list zero x2_plus_3_dx = Some zero ∧
  _mul_ map_to_list x2_plus_3_dx zero = Some zero.
Proof.
  apply (mul_one (R := list Z) map_to_list (λ d, reflexivity _)
           x2_plus_3_dx x2_plus_3_dx_well_formed).
  reflexivity.
Defined.

Lemma mul_derivations_witness :
  _mul_ map_to_list {[ [1] := Rone ]} {[ [2] := Rone ]}
  = Some (put (zip_with Nat.add [1] [2]) Rone ∅) ∧
  _mul_ map_to_list {[ [1] := Rone ]} {[ [2] := Rone ]}
  = _mul_ map_to_list {[ [2] := Rone ]} {[ [1] := Rone ]}.
Proof.
  apply (mul_derivations (R := list Z) map_to_list (λ d, reflexivity _)
           [1] [2]); reflexivity.
Defined.

(** [dx == 0] holds, [dx != 0] does not, and [dx == W.zero()] does not. *)
Lemma eq_compares_constant_coefficient_witness :
  __eq__ {[ [1] := Rone ]} (Other Rzero) = true ∧
  __ne__ {[ [1] := Rone ]} (Other Rzero) = false ∧
  __eq__ {[ [1] := Rone ]} (Element zero) = false.
Proof.
  apply (proj2 (eq_compares_constant_coefficient (R := list Z) ∅ Rzero 0)).
  reflexivity.
Defined.

(** The two orders in which a dictionary can be enumerated here. *)
Definition items_forward (d : gmap (list nat) (list Z))
  : list (list nat * list Z) := map_to_list d.

Definition items_backward (d : gmap (list nat) (list Z))
  : list (list nat * list Z) := reverse (map_to_list d).

(** [dx^2 * x^2]: [2 + 4*x*dx + x^2*dx^2] in one order of the
    dictionary, [2 + 2*x*dx + (x^2 + 2*x)*dx^2] in the other. *)
Lemma expand_derivative_square_witness :
  expand_derivative items_backward [0; 0; 1]%Z (square_exps 0)
  = Some (put [0] [2%Z]
            (<[ [1] := [0; 4]%Z ]> {[ [2] := [0; 0; 1]%Z ]})) ∧
  expand_derivative items_forward [0; 0; 1]%Z (square_exps 0)
  = Some (put [0] [2%Z]
            (<[ [1] := [0; 2]%Z ]> {[ [2] := [0; 2; 1]%Z ]})).
Proof.
  refine (expand_derivative_square (R := list Z) items_backward items_forward
            0 [0; 0; 1]%Z _ _ _ _ _ _ _ _).
  - intros d. apply reverse_Permutation.
  - intros d. reflexivity.
  - simpl. lia.
  - reflexivity.
  - reflexivity.
  - discriminate.
  - vm_compute. reflexivity.
  - vm_compute. reflexivity.
Defined.

Lemma add_neg_witness :
  _add_ map_to_list x2_plus_3_dx (__neg__ (map Z.opp) x2_plus_3_dx) = zero ∧
  _add_ map_to_list x2_plus_3_dx zero = x2_plus_3_dx ∧
  _add_ map_to_list zero x2_plus_3_dx = x2_plus_3_dx.
Proof.
  apply (add_neg (R := list Z) map_to_list (λ d, reflexivity _)
           (map Z.opp) Zx_add_opp
           x2_plus_3_dx x2_plus_3_dx_well_formed).
Defined.

End Weyl.

(* ===================================================================== *)
(** * sage/combinat/finite_state_machine_generators.py: the transducers
      given by a transition function *)
(* ===================================================================== *)

Module Transducers.

(** Modelled from the spec: the class [Transducer] is not among these
    sources. By the docstrings of the generators, the transducer that
    [Transducer] builds from a transition function reads a word by
    applying the function letter by letter, starting in the initial state,
    and writes the outputs in this order. The result is the state reached
    and the word written. *)
Fixpoint process {S A B : Type} (transition : S → A → S * B) (state : S)
  (word : list A) : S * list B :=
  match word with
  | [] => (state, [])
  | input :: word' =>
      let '(state', output) := transition state input in
      let '(final, outputs) := process transition state' word' in
      (final, output :: outputs)
  end.

Lemma take_S_length_app {A : Type} (w : list A) (a : A) (rest : list A) :
  take (S (length w)) (w ++ a :: rest) = w ++ [a].
Proof.
  induction w as [|x w IH]; simpl; [by rewrite take_0|]. by rewrite <- IH.
Qed.

(** ** [CountSubblockOccurrences] *)

Section CountSubblockOccurrences.

Context {A : Type} `{EqDecision A}.
Variable block : list A.

(** [len(what) >= len(pattern) and what[:len(pattern)] == pattern] *)
Definition starts_with (what pattern : list A) : bool :=
  bool_decide (length pattern ≤ length what)
  && bool_decide (take (length pattern) what = pattern).

(** [while not starts_with(block_as_tuple, current[k:]): k += 1]; the
    number of iterations is bounded by [fuel]. *)
Fixpoint while_not_starts_with (fuel k : nat) (current : list A) : nat :=
  if starts_with block (drop k current) then k
  else match fuel with
       | O => k
       | S fuel' => while_not_starts_with fuel' (S k) current
       end.

Definition transition_function (read : list A) (input : A)
  : list A * Z :=
  let current := read ++ [input] in
  if starts_with block current
     && bool_decide (length current < length block)
  then (current, 0%Z)
  else
    let k := while_not_starts_with (length current) 1 current in
    (drop k current, if bool_decide (block = current) then 1%Z else 0%Z).

(** The output that [T(word)] writes, and the state that it reaches. *)
Definition CountSubblockOccurrences (word : list A) : list A * list Z :=
  process transition_function [] word.

(** The output the docstring describes: [o_j = 1] if and only if the
    block ends at position [j] of the input. *)
Definition occurrences (word : list A) : list Z :=
  map (λ j, if bool_decide (block `suffix_of` take (S j) word)
            then 1%Z else 0%Z)
      (seq 0 (length word)).

Lemma starts_with_prefix (what pattern : list A) :
  starts_with what pattern = true ↔ pattern `prefix_of` what.
Proof.
  unfold starts_with. rewrite andb_true_iff, !bool_decide_eq_true. split.
  - intros [_ <-]. apply prefix_take.
  - intros [k ->]. rewrite length_app. split; [lia|].
    by rewrite take_app_length.
Qed.

(** The loop stops, at the first [k] for which [current[k:]] is the
    beginning of the block. *)
Lemma while_not_starts_with_spec (fuel k0 : nat) (current : list A) :
  length current ≤ k0 + fuel →
  let k := while_not_starts_with fuel k0 current in
  k0 ≤ k ∧
  drop k current `prefix_of` block ∧
  ∀ j, k0 ≤ j < k → ¬ drop j current `prefix_of` block.
Proof.
  revert k0. induction fuel as [|fuel IH]; intros k0 Hlen; simpl.
  - destruct (starts_with block (drop k0 current)) eqn:Hs.
    + split; [lia|]. split; [by apply starts_with_prefix|]. lia.
    + exfalso. rewrite drop_ge in Hs by lia.
      assert (starts_with block [] = true); [|congruence].
      apply starts_with_prefix, prefix_nil.
  - destruct (starts_with block (drop k0 current)) eqn:Hs.
    + split; [lia|]. split; [by apply starts_with_prefix|]. lia.
    + destruct (IH (S k0)) as (Hle & Hex & Hmin); [lia|].
      split; [lia|]. split; [done|]. intros j Hj.
      destruct (decide (j = k0)) as [->|Hne]; [|apply Hmin; lia].
      intros Hp. apply starts_with_prefix in Hp. congruence.
Qed.

(** The state after reading [w]: the longest end of [w] that is a
    proper beginning of the block. *)
Definition tracks (w read : list A) : Prop :=
  read `suffix_of` w ∧ read `prefix_of` block ∧
  length read < length block ∧
  ∀ s, s `suffix_of` w → s `prefix_of` block → length s < length block →
       length s ≤ length read.

Lemma suffix_is_drop (s l : list A) :
  s `suffix_of` l → s = drop (length l - length s) l.
Proof.
  intros [k ->]. rewrite length_app.
  replace (length k + length s - length s) with (length k) by lia.
  by rewrite drop_app_length.
Qed.

(** An end of [w ++ [a]] that begins the block is an end of
    [read ++ [a]]. *)
Lemma tracks_suffix (w read s : list A) (a : A) :
  tracks w read → s `suffix_of` w ++ [a] → s `prefix_of` block →
  s `suffix_of` read ++ [a].
Proof.
  intros (Hsuf & Hpre & Hlen & Hmax) Hs Hp.
  destruct s as [|x s _] using rev_ind; [apply suffix_nil|].
  pose proof (suffix_snoc_inv_1 _ _ _ _ Hs) as ->.
  apply suffix_snoc_inv_2 in Hs. apply suffix_snoc.
  assert (Hle : length s ≤ length read).
  { apply Hmax; [done|by eapply prefix_app_l|].
    apply prefix_length in Hp. rewrite length_app in Hp. simpl in Hp. lia. }
  destruct (suffix_weak_total _ _ _ Hs Hsuf) as [?|Hrs]; [done|].
  apply suffix_length_eq in Hrs; [by subst|done].
Qed.

(** When the block ends at the letter just read, the letters read and
    kept are the block. *)
Lemma tracks_block (w read : list A) (a : A) :
  tracks w read → block `suffix_of` w ++ [a] → block = read ++ [a].
Proof.
  intros Ht Hb. pose proof Ht as (_ & _ & Hlen & _).
  apply suffix_length_eq.
  - by eapply tracks_suffix.
  - rewrite length_app. simpl. lia.
Qed.

Lemma transition_function_tracks (w read : list A) (a : A) :
  tracks w read →
  tracks (w ++ [a]) (transition_function read a).1 ∧
  (transition_function read a).2
  = if bool_decide (block `suffix_of` w ++ [a]) then 1%Z else 0%Z.
Proof.
  intros Ht. pose proof Ht as (Hsuf & Hpre & Hlen & Hmax).
  unfold transition_function.
  set (current := read ++ [a]).
  assert (Hcur : current `suffix_of` w ++ [a]) by by apply suffix_snoc.
  destruct (starts_with block current
            && bool_decide (length current < length block)) eqn:Hcase.
  - apply andb_true_iff in Hcase as [Hp Hl].
    apply starts_with_prefix in Hp. apply bool_decide_eq_true in Hl.
    simpl. split.
    + split; [done|]. split; [done|]. split; [done|].
      intros s Hs Hsp _. apply suffix_length. by eapply tracks_suffix.
    + rewrite bool_decide_eq_false_2; [done|]. intros Hb.
      apply (tracks_block _ _ _ Ht) in Hb. fold current in Hb.
      rewrite Hb in Hl. lia.
  - destruct (while_not_starts_with_spec (length current) 1 current)
      as (Hk & Hexit & Hmin); [lia|].
    set (k := while_not_starts_with (length current) 1 current) in *.
    assert (Hlc : length current = S (length read))
      by (unfold current; rewrite length_app; simpl; lia).
    simpl. split.
    + split; [|split; [done|split]].
      * etrans; [apply suffix_drop|done].
      * rewrite length_drop. lia.
      * intros s Hs Hsp Hsl. rewrite length_drop.
        pose proof (tracks_suffix _ _ _ _ Ht Hs Hsp) as Hsc.
        fold current in Hsc.
        pose proof (suffix_length _ _ Hsc) as Hle.
        pose proof (suffix_is_drop _ _ Hsc) as Hdrop.
        destruct (decide (length current - length s < k)) as [Hlt|]; [|lia].
        exfalso.
        destruct (decide (length current - length s = 0)) as [H0|Hpos].
        -- rewrite H0, drop_0 in Hdrop. subst s.
           apply andb_false_iff in Hcase as [Hc|Hc].
           ++ apply starts_with_prefix in Hsp. congruence.
           ++ apply bool_decide_eq_false in Hc. lia.
        -- apply (Hmin (length current - length s)); [lia|].
           by rewrite <- Hdrop.
    + destruct (decide (block = current)) as [Heq|Hneq].
      * rewrite (bool_decide_eq_true_2 (block = current)) by done.
        rewrite bool_decide_eq_true_2; [done|]. by rewrite Heq.
      * rewrite (bool_decide_eq_false_2 (block = current)) by done.
        rewrite bool_decide_eq_false_2; [done|]. intros Hb. apply Hneq.
        by apply (tracks_block w).
Qed.

Lemma process_tracks (rest w read : list A) :
  tracks w read →
  tracks (w ++ rest) (process transition_function read rest).1 ∧
  (process transition_function read rest).2
  = map (λ j, if bool_decide (block `suffix_of` take (S j) (w ++ rest))
              then 1%Z else 0%Z)
        (seq (length w) (length rest)).
Proof.
  revert w read. induction rest as [|a rest IH]; intros w read Ht.
  - simpl. by rewrite app_nil_r.
  - destruct (transition_function_tracks w read a Ht) as [Ht' Ho].
    cbn [process length seq map].
    destruct (transition_function read a) as [read' o]. simpl in Ht', Ho.
    destruct (IH _ _ Ht') as [Hfin Hout].
    destruct (process transition_function read' rest) as [final outs].
    simpl in *. rewrite <- app_assoc in Hfin, Hout. simpl in Hfin, Hout.
    split; [done|]. f_equal.
    + by rewrite Ho, take_S_length_app.
    + rewrite Hout, length_app. simpl.
      by replace (length w + 1) with (S (length w)) by lia.
Qed.

(** X21: For a block that is not empty, [T(word)] writes [1] exactly at the
    positions where the block ends (overlapping occurrences included) and
    [0] elsewhere; the state reached is the longest end of the word that
    is a proper beginning of the block, so that the transducer has at
    most [len(block)] states. *)
Theorem CountSubblockOccurrences_spec (word : list A) :
  block ≠ [] →
  (CountSubblockOccurrences word).2 = occurrences word ∧
  tracks word (CountSubblockOccurrences word).1.
Proof.
  intros Hne. unfold CountSubblockOccurrences, occurrences.
  destruct (process_tracks word [] []) as [Ht Ho]; [|by split].
  split; [apply suffix_nil|]. split; [apply prefix_nil|]. split.
  - destruct block; [done|simpl; lia].
  - intros s Hs _ _. apply suffix_nil_inv in Hs. by subst.
Qed.

End CountSubblockOccurrences.

(** X22: With the empty block the transducer stays in its initial state and
    writes [0] for every letter, although the empty block ends at every
    position. *)
Theorem CountSubblockOccurrences_empty_block {A : Type} `{EqDecision A}
  (word : list A) :
  CountSubblockOccurrences [] word = ([], replicate (length word) 0%Z).
Proof.
  unfold CountSubblockOccurrences.
  induction word as [|a word IH]; [done|].
  cbn [process length replicate].
  assert (Hstep : transition_function [] [] a = ([], 0%Z)).
  { unfold transition_function. simpl. by unfold starts_with. }
  by rewrite Hstep, IH.
Qed.

(** ** [Wait] *)

Section Wait.

(** The letters with Python's conversion of a letter to a boolean. *)
Context {A : Type}.
Variable truth : A → bool.
Variable threshold : Z.

Definition transition (state : Z) (input : A) : Z * bool :=
  if bool_decide (state = threshold) then (threshold, true)
  else if negb (truth input) then (state, false)
  else ((state + 1)%Z, bool_decide (state + 1 = threshold)%Z).

Definition Wait (word : list A) : Z * list bool := process transition 0%Z word.

(** The number of true letters of a word. *)
Definition count_true (word : list A) : Z :=
  Z.of_nat (length (List.filter truth word)).

Lemma count_true_snoc (w : list A) (a : A) :
  count_true (w ++ [a])
  = (count_true w + if truth a then 1 else 0)%Z.
Proof.
  unfold count_true. rewrite List.filter_app, length_app. simpl.
  destruct (truth a); simpl; lia.
Qed.

Lemma process_wait (rest w : list A) :
  (0 ≤ threshold)%Z →
  (process transition (Z.min threshold (count_true w)) rest).1
  = Z.min threshold (count_true (w ++ rest)) ∧
  (process transition (Z.min threshold (count_true w)) rest).2
  = map (λ j, bool_decide (threshold ≤ count_true (take (S j) (w ++ rest)))%Z)
        (seq (length w) (length rest)).
Proof.
  intros Hth. revert w. induction rest as [|a rest IH]; intros w.
  - simpl. by rewrite app_nil_r.
  - cbn [process length seq map].
    assert (Hc : (0 ≤ count_true w)%Z) by (unfold count_true; lia).
    assert (Hstep : transition (Z.min threshold (count_true w)) a
                    = (Z.min threshold (count_true (w ++ [a])),
                       bool_decide (threshold ≤ count_true (w ++ [a]))%Z)).
    { unfold transition. rewrite count_true_snoc.
      destruct (truth a); simpl; case_bool_decide as Hfull;
        (f_equal; [lia|]);
        first [ symmetry; apply bool_decide_eq_true; lia
              | symmetry; apply bool_decide_eq_false; lia
              | apply bool_decide_ext; lia ]. }
    rewrite Hstep. destruct (IH (w ++ [a])) as [Hfin Hout].
    destruct (process transition _ rest) as [final outs].
    simpl in *. rewrite <- app_assoc in Hfin, Hout. simpl in Hfin, Hout.
    split; [done|]. f_equal.
    + by rewrite take_S_length_app.
    + rewrite Hout, length_app. simpl.
      by replace (length w + 1) with (S (length w)) by lia.
Qed.

(** X23: [Wait] writes [True] at the positions from the [threshold]-th true
    letter on and [False] before it; its state counts the true letters
    read, up to the threshold. With the threshold 0 it writes [True]
    from the first letter on. *)
Theorem Wait_spec (word : list A) :
  (0 ≤ threshold)%Z →
  (Wait word).2
  = map (λ j, bool_decide (threshold ≤ count_true (take (S j) word))%Z)
        (seq 0 (length word)) ∧
  (Wait word).1 = Z.min threshold (count_true word).
Proof.
  intros Hth. destruct (process_wait word [] Hth) as [Hfin Hout].
  unfold Wait. simpl in *.
  replace (Z.min threshold (count_true [])) with 0%Z in *
    by (unfold count_true; simpl; lia).
  by split.
Qed.

End Wait.

(** ** The docstrings' examples *)

Example doctest_count_10 :
  (CountSubblockOccurrences [1; 0] [0; 1; 0; 1; 1; 0]).2
  = [0; 0; 1; 0; 0; 1]%Z.
Proof. reflexivity. Qed.

Example doctest_count_11 :
  (CountSubblockOccurrences [1; 1] [0; 1; 0; 1; 1; 0]).2
  = [0; 0; 0; 0; 1; 0]%Z.
Proof. reflexivity. Qed.

Example doctest_count_1010 :
  (CountSubblockOccurrences [1; 0; 1; 0]
     [0; 1; 0; 1; 0; 1; 0; 0; 1; 0; 1; 0; 2]).2
  = [0; 0; 0; 0; 1; 0; 1; 0; 0; 0; 0; 1; 0]%Z.
Proof. reflexivity. Qed.

Example doctest_count_transitions :
  map (λ '(read, input), transition_function [1; 0; 1; 0] read input)
      [ ([1; 0; 1], 0); ([1; 0; 1], 1); ([1; 0; 1], 2); ([1; 0], 0) ]
  = [ ([1; 0], 1%Z); ([1], 0%Z); ([], 0%Z); ([], 0%Z) ].
Proof. reflexivity. Qed.

Definition nonzero (letter : Z) : bool := negb (letter =? 0)%Z.

Example doctest_wait :
  (Wait nonzero 1 [0; 0; 1; 0; 1; 0]%Z).2
  = [false; false; true; true; true; true].
Proof. reflexivity. Qed.

Example doctest_wait_2 :
  (Wait nonzero 2 [0; 0; 1; 0; 1; 0]%Z).2
  = [false; false; false; false; true; true].
Proof. reflexivity. Qed.

Lemma CountSubblockOccurrences_spec_witness :
  (CountSubblockOccurrences [1; 0] [0; 1; 0; 1; 1; 0]).2
  = occurrences [1; 0] [0; 1; 0; 1; 1; 0] ∧
  tracks [1; 0] [0; 1; 0; 1; 1; 0]
    (CountSubblockOccurrences [1; 0] [0; 1; 0; 1; 1; 0]).1.
Proof.
  apply (CountSubblockOccurrences_spec [1; 0] [0; 1; 0; 1; 1; 0]). done.
Defined.

Lemma Wait_spec_witness :
  (Wait nonzero 2 [0; 0; 1; 0; 1; 0]%Z).2
  = map (λ j, bool_decide
                (2 ≤ count_true nonzero (take (S j) [0; 0; 1; 0; 1; 0]%Z))%Z)
        (seq 0 (length [0; 0; 1; 0; 1; 0]%Z)) ∧
  (Wait nonzero 2 [0; 0; 1; 0; 1; 0]%Z).1
  = Z.min 2 (count_true nonzero [0; 0; 1; 0; 1; 0]%Z).
Proof.
  apply (Wait_spec nonzero 2 [0; 0; 1; 0; 1; 0]%Z). lia.
Defined.

(** ** [GrayCode] *)

(** A transducer given by its list of transitions
    [[from, to, word_in, word_out]], where [word_out] is [None] when
    nothing is written. *)
Definition transition_list : Type := list (nat * nat * Z * option Z).

Definition GrayCode_transitions : transition_list :=
  [ (0, 1, 0%Z, None);
    (0, 2, 1%Z, None);
    (1, 1, 0%Z, Some 0%Z);
    (1, 2, 1%Z, Some 1%Z);
    (2, 1, 0%Z, Some 1%Z);
    (2, 2, 1%Z, Some 0%Z) ].

(** Modelled from the spec: the transition that leaves [state] with the
    letter [input], the state reached and the word written. *)
Definition step (transitions : transition_list) (state : nat) (input : Z)
  : option (nat * list Z) :=
  match List.find (λ t, (t.1.1.1 =? state) && (t.1.2 =? input)%Z)
                  transitions with
  | Some (_, to, _, Some output) => Some (to, [output])
  | Some (_, to, _, None) => Some (to, [])
  | None => None
  end.

(** Modelled from the spec: reading a word from a state; [None] is an
    invalid input sequence. *)
Fixpoint read (transitions : transition_list) (state : nat) (word : list Z)
  : option (nat * list Z) :=
  match word with
  | [] => Some (state, [])
  | input :: word' =>
      match step transitions state input with
      | None => None
      | Some (state', output) =>
          match read transitions state' word' with
          | None => None
          | Some (final, outputs) => Some (final, output ++ outputs)
          end
      end
  end.

(** Modelled from the spec: [with_final_word_out=letters], by which the
    final output of a state is what is written while the letters are
    read, again and again, until a final state is reached. *)
Fixpoint final_word_out (fuel : nat) (transitions : transition_list)
  (final_states : list nat) (letters : list Z) (state : nat)
  : option (list Z) :=
  if bool_decide (state ∈ final_states) then Some []
  else
    match fuel, letters with
    | S fuel', letter :: letters' =>
        match step transitions state letter with
        | None => None
        | Some (state', output) =>
            match final_word_out fuel' transitions final_states
                    (letters' ++ [letter]) state' with
            | None => None
            | Some outputs => Some (output ++ outputs)
            end
        end
    | _, _ => None
    end.

(** [G(word)] for [G = transducers.GrayCode()]: initial state [0],
    final state [1], final output by reading [0]. *)
Definition GrayCode (word : list Z) : option (list Z) :=
  match read GrayCode_transitions 0 word with
  | None => None
  | Some (state, outputs) =>
      match final_word_out 3 GrayCode_transitions [1] [0%Z] state with
      | None => None
      | Some final => Some (outputs ++ final)
      end
  end.

(** [v.digits(base=2)]: the binary digits, least significant first. *)
Fixpoint pos_digits (p : positive) : list Z :=
  match p with
  | xH => [1%Z]
  | xO q => 0%Z :: pos_digits q
  | xI q => 1%Z :: pos_digits q
  end.

Definition digits (v : Z) : list Z :=
  match v with
  | Zpos p => pos_digits p
  | _ => []
  end.

Example doctest_GrayCode :
  map (λ v, GrayCode (digits v)) [0; 1; 2; 3; 4; 5; 6; 7; 8; 9]%Z
  = map Some
      [ []; [1]; [1; 1]; [0; 1]; [0; 1; 1]; [1; 1; 1]; [1; 0; 1];
        [0; 0; 1]; [0; 0; 1; 1]; [1; 0; 1; 1] ]%Z.
Proof. reflexivity. Qed.

(** The state after a digit [b] is [1 + b]; from there every digit is
    written as its sum modulo 2 with the digit before. *)
Lemma read_GrayCode (b : Z) (word : list Z) :
  (b = 0 ∨ b = 1)%Z → Forall (λ d, d = 0 ∨ d = 1)%Z word →
  read GrayCode_transitions (Z.to_nat (1 + b)) word
  = Some (Z.to_nat (1 + default b (last word)),
          zip_with Z.lxor (b :: word) word).
Proof.
  intros Hb Hw. revert b Hb. induction Hw as [|d word Hd _ IH]; intros b Hb.
  - done.
  - cbn [read].
    assert (Hstep : step GrayCode_transitions (Z.to_nat (1 + b)) d
                    = Some (Z.to_nat (1 + d), [Z.lxor b d])).
    { by destruct Hb as [-> | ->], Hd as [-> | ->]. }
    rewrite Hstep, (IH d Hd). simpl. do 3 f_equal.
    destruct word as [|d' word]; [done|].
    rewrite (last_cons_cons d). clear.
    by destruct (last (d' :: word)) eqn:E; [|apply last_None in E].
Qed.

Lemma GrayCode_word (word : list Z) :
  Forall (λ d, d = 0 ∨ d = 1)%Z word →
  GrayCode word
  = Some (zip_with Z.lxor word (tail word)
          ++ match last word with Some 1%Z => [1%Z] | _ => [] end).
Proof.
  intros Hw. unfold GrayCode. destruct Hw as [|b word Hb Hw]; [done|].
  cbn [read tail].
  assert (Hstep : step GrayCode_transitions 0 b = Some (Z.to_nat (1 + b), []))
    by by destruct Hb as [-> | ->].
  rewrite Hstep, (read_GrayCode b word Hb Hw). cbn [app].
  assert (Hlast : last (b :: word) = Some (default b (last word))).
  { destruct word as [|d word]; [done|]. rewrite last_cons_cons.
    by destruct (last (d :: word)) eqn:E;
      [|apply last_None in E]. }
  rewrite Hlast.
  assert (Hl : (default b (last word) = 0 ∨ default b (last word) = 1)%Z).
  { destruct (last word) as [d|] eqn:E; [|done]. simpl.
    apply last_Some in E as [l' ->].
    apply Forall_app in Hw as [_ Hd]. by inversion Hd. }
  by destruct Hl as [-> | ->].
Qed.

(** X24: [GrayCode] writes, for each binary digit of its input but the first,
    the sum modulo 2 of this digit and the digit before it, and a final
    [1] after a last digit [1]. *)
Theorem GrayCode_digits (word : list Z) :
  Forall (λ d, d = 0 ∨ d = 1)%Z word →
  GrayCode word
  = Some (zip_with Z.lxor word (tail word)
          ++ match last word with Some 1%Z => [1%Z] | _ => [] end).
Proof. apply GrayCode_word. Qed.

(** The binary digits of a natural number [n], and of the numbers
    [2*n] and [2*n + 1]. *)
Definition N_digits (n : N) : list Z :=
  match n with
  | N0 => []
  | Npos p => pos_digits p
  end.

Lemma N_digits_double (n : N) :
  n ≠ 0%N →
  N_digits (Pos.Ndouble n) = 0%Z :: N_digits n ∧
  N_digits (Pos.Nsucc_double n) = 1%Z :: N_digits n.
Proof. by destruct n. Qed.

(** The digits of [(2*q + b) xor q]. *)
Lemma pos_lxor_digits (q : positive) (b : bool) :
  N_digits (Pos.lxor (if b then q~1 else q~0) q)
  = zip_with Z.lxor ((if b then 1%Z else 0%Z) :: pos_digits q) (pos_digits q)
    ++ [1%Z].
Proof.
  revert b. induction q as [q IH|q IH|]; intros b.
  - specialize (IH true). cbv beta iota in IH.
    assert (Hne : Pos.lxor q~1 q ≠ 0%N).
    { intros Hz. rewrite Hz in IH. simpl in IH.
      by destruct (pos_digits q). }
    destruct (N_digits_double _ Hne) as [Hd Hs].
    destruct b.
    + change (Pos.lxor (q~1)~1 q~1) with (Pos.Ndouble (Pos.lxor q~1 q)).
      rewrite Hd, IH. reflexivity.
    + change (Pos.lxor (q~1)~0 q~1) with (Pos.Nsucc_double (Pos.lxor q~1 q)).
      rewrite Hs, IH. reflexivity.
  - specialize (IH false). cbv beta iota in IH.
    assert (Hne : Pos.lxor q~0 q ≠ 0%N).
    { intros Hz. rewrite Hz in IH. simpl in IH.
      by destruct (pos_digits q). }
    destruct (N_digits_double _ Hne) as [Hd Hs].
    destruct b.
    + change (Pos.lxor (q~0)~1 q~0) with (Pos.Nsucc_double (Pos.lxor q~0 q)).
      rewrite Hs, IH. reflexivity.
    + change (Pos.lxor (q~0)~0 q~0) with (Pos.Ndouble (Pos.lxor q~0 q)).
      rewrite Hd, IH. reflexivity.
  - by destruct b.
Qed.

Lemma pos_digits_bits (p : positive) :
  Forall (λ d, d = 0 ∨ d = 1)%Z (pos_digits p) ∧
  last (pos_digits p) = Some 1%Z.
Proof.
  induction p as [p [IH1 IH2]|p [IH1 IH2]|]; simpl.
  - split; [constructor; auto|].
    destruct (pos_digits p); [done|]. by rewrite last_cons_cons.
  - split; [constructor; auto|].
    destruct (pos_digits p); [done|]. by rewrite last_cons_cons.
  - split; [constructor; auto|done].
Qed.

(** X25: [GrayCode] maps the binary expansion of [v >= 0] to the binary
    expansion of its Gray code [v xor (v >> 1)]. *)
Theorem GrayCode_number (v : Z) :
  (0 ≤ v)%Z →
  GrayCode (digits v) = Some (digits (Z.lxor v (Z.shiftr v 1))).
Proof.
  intros Hv. destruct v as [|p|p]; [done| |lia].
  destruct (pos_digits_bits p) as [Hbits Hlast].
  change (digits (Z.pos p)) with (pos_digits p).
  rewrite (GrayCode_word _ Hbits), Hlast. f_equal.
  change (Z.shiftr (Z.pos p) 1) with (Z.div2 (Z.pos p)).
  destruct p as [q|q|]; [| |done].
  - pose proof (pos_lxor_digits q true) as Hq.
    cbv beta iota in Hq.
    change (Z.lxor (Z.pos q~1) (Z.div2 (Z.pos q~1)))
      with (Z.of_N (Pos.lxor q~1 q)).
    destruct (Pos.lxor q~1 q); [by destruct (pos_digits q)|].
    symmetry. exact Hq.
  - pose proof (pos_lxor_digits q false) as Hq.
    cbv beta iota in Hq.
    change (Z.lxor (Z.pos q~0) (Z.div2 (Z.pos q~0)))
      with (Z.of_N (Pos.lxor q~0 q)).
    destruct (Pos.lxor q~0 q); [by destruct (pos_digits q)|].
    symmetry. exact Hq.
Qed.

Lemma GrayCode_digits_witness :
  GrayCode [1; 0; 1]%Z
  = Some (zip_with Z.lxor [1; 0; 1]%Z (tail [1; 0; 1]%Z)
          ++ match last [1; 0; 1]%Z with Some 1%Z => [1%Z] | _ => [] end).
Proof.
  apply (GrayCode_digits [1; 0; 1]%Z).
  repeat (constructor; [by (left + right)|]). constructor.
Defined.

Lemma GrayCode_number_witness :
  GrayCode (digits 9) = Some (digits (Z.lxor 9 (Z.shiftr 9 1))).
Proof. apply (GrayCode_number 9). lia. Defined.

End Transducers.

(* ===================================================================== *)
(** * sage/combinat/finite_state_machine_generators.py:
      [TransducerGenerators.Recursion] *)
(* ===================================================================== *)

Module Recursion.

(** ** Symbolic expressions

    The equations given to [Recursion] are expressions of the symbolic
    ring. Only what the parser inspects is kept: the operator of an
    expression, its operands and its variables. Numeric constants are
    integers ([base] is an integer, so [base_ring] is [ZZ]). *)
#[warnings="-register-all"]
Inductive expr :=
| Int (z : Z)
| Sym (x : string)
| Add (ops : list expr)
| Mul (ops : list expr)
| Pow (b e : expr)
| Call (fn : string) (args : list expr)
| Eq_ (lhs rhs : expr)
| Lt_ (lhs rhs : expr).

(** [expression.operator()] *)
Inductive operator :=
| operator_add
| operator_mul
| operator_pow
| operator_eq
| operator_lt
| function_ (fn : string)
| no_operator.

#[global] Instance operator_eq_dec : EqDecision operator.
Proof. solve_decision. Defined.

Definition operator_of (e : expr) : operator :=
  match e with
  | Int _ | Sym _ => no_operator
  | Add _ => operator_add
  | Mul _ => operator_mul
  | Pow _ _ => operator_pow
  | Call fn _ => function_ fn
  | Eq_ _ _ => operator_eq
  | Lt_ _ _ => operator_lt
  end.

(** [expression.operands()] *)
Definition operands (e : expr) : list expr :=
  match e with
  | Int _ | Sym _ => []
  | Add ops | Mul ops => ops
  | Pow b e => [b; e]
  | Call _ args => args
  | Eq_ l r | Lt_ l r => [l; r]
  end.

(** [expression.variables()] *)
Fixpoint variables (e : expr) : list string :=
  match e with
  | Int _ => []
  | Sym x => [x]
  | Add ops | Mul ops => concat (map variables ops)
  | Pow b e => variables b ++ variables e
  | Call _ args => concat (map variables args)
  | Eq_ l r | Lt_ l r => variables l ++ variables r
  end.

(** The number of evaluations of the function [fn] inside an expression. *)
Fixpoint count_calls (fn : string) (e : expr) : nat :=
  match e with
  | Int _ | Sym _ => 0
  | Add ops | Mul ops => sum_list (map (count_calls fn) ops)
  | Pow b e => count_calls fn b + count_calls fn e
  | Call g args =>
      (if bool_decide (g = fn) then 1 else 0)
      + sum_list (map (count_calls fn) args)
  | Eq_ l r | Lt_ l r => count_calls fn l + count_calls fn r
  end.

(** [R[var](expression)]: the conversion of an expression into a
    polynomial in [var] over [ZZ]; [None] when the conversion raises. *)
Fixpoint to_poly (var : string) (e : expr) : option (list Z) :=
  match e with
  | Int z => Some (Zx.strip [z])
  | Sym x => if bool_decide (x = var) then Some [0%Z; 1%Z] else None
  | Add ops =>
      foldr (λ o acc, match to_poly var o, acc with
                      | Some p, Some q => Some (Zx.add p q)
                      | _, _ => None
                      end) (Some []) ops
  | Mul ops =>
      foldr (λ o acc, match to_poly var o, acc with
                      | Some p, Some q => Some (Zx.mul p q)
                      | _, _ => None
                      end) (Some [1%Z]) ops
  | Pow b (Int n) =>
      match to_poly var b with
      | Some p =>
          if bool_decide (0 ≤ n)%Z
          then Some (Nat.iter (Z.to_nat n) (Zx.mul p) [1%Z])
          else None
      | None => None
      end
  | Pow _ _ | Call _ _ | Eq_ _ _ | Lt_ _ _ => None
  end.

(** [polynomial.degree()], [-1] for the zero polynomial. *)
Definition degree (p : list Z) : Z := (Z.of_nat (length p) - 1)%Z.

(** [polynomial in base_ring]: the polynomial is constant. *)
Definition in_base_ring (p : list Z) : bool := bool_decide (length p ≤ 1).

(** The constant polynomial with value [c]. *)
Definition constant (c : Z) : list Z := Zx.strip [c].

(** [log(c, base=base)] when it is an integer: the exponent [K] with
    [base ^ K = c]; [None] when the logarithm is not in [ZZ]. *)
Definition int_log (base c : Z) : option Z :=
  find (λ K, bool_decide (base ^ K = c)%Z)
       (map Z.of_nat (seq 0 (S (Z.to_nat (Z.log2 c))))).

(** ** Exceptions and the state of the parser *)

(** The messages of the exceptions, with the values they are formatted
    with. *)
Inductive message :=
| not_an_equation (equation : expr)
| not_an_evaluation (e : expr) (function : string)
| not_one_argument (e : expr)
| could_not_convert (e : expr) (var : string)
| not_of_degree_1 (p : list Z)
| not_a_power (c base : Z)
| less_than_base (c base : Z)
| residue_out_of_range (r c : Z)
| not_exactly_one_summand (rhs : expr) (function : string)
| contains_variable (t : expr) (var : string)
| not_exactly_one_argument (e : expr)
| not_a_polynomial (e : expr) (var : string)
| less_than_1 (c : Z)
| greater_or_equal (c_k c_K : Z)
| conflicting_rules (R modulus : Z)
| missing_recursions (Rs : list Z) (modulus : Z)
| max_of_empty_sequence
| not_two_operands (equation : expr)
| parsing_failed (equation : expr).

Inductive exception :=
| ValueError (msg : message)
| AssertionError (msg : message)
| IndexError
| ZeroDivisionError.

Record Rule := mkRule { K : Z; r : Z; k : Z; s : Z; t : expr }.

Record RuleRight := mkRuleRight { k' : Z; s' : Z; t' : expr }.

(** The two variables that [parse_equation] updates. *)
Record state := mkState {
  initial_values : gmap Z expr;
  rules : list Rule
}.

(** A statement either completes with a value or raises; in both cases
    it leaves a state. *)
Definition M (A : Type) : Type := state → (exception + A) * state.

Definition ret {A : Type} (a : A) : M A := λ st, (inr a, st).

Definition raise {A : Type} (e : exception) : M A := λ st, (inl e, st).

Definition bind {A B : Type} (m : M A) (f : A → M B) : M B :=
  λ st, match m st with
        | (inl e, st') => (inl e, st')
        | (inr a, st') => f a st'
        end.

Declare Scope parser_scope.
Delimit Scope parser_scope with parser.
Notation "x <- m ;; f" := (bind m (λ x, f))
  (at level 20, m at level 99, f at level 200, only parsing) : parser_scope.
Notation "m ;; f" := (bind m (λ _, f))
  (at level 100, f at level 200, only parsing, right associativity)
  : parser_scope.

(** [if b: raise e] *)
Definition raise_if (b : bool) (e : exception) : M unit :=
  if b then raise e else ret tt.

(** [assert b, e] *)
Definition assert_ (b : bool) (e : exception) : M unit :=
  if b then ret tt else raise e.

(** [initial_values[key] = value] *)
Definition set_initial_value (key : Z) (value : expr) : M unit :=
  λ st, (inr tt, mkState (<[key := value]> (initial_values st)) (rules st)).

(** [rules.append(rule)] *)
Definition append_rule (rule : Rule) : M unit :=
  λ st, (inr tt, mkState (initial_values st) (rules st ++ [rule])).

(** A ring of [output_rings]: the test [output in ring] and the
    conversion [ring(output)]. *)
Record ring := mkRing {
  contains : expr → bool;
  convert : expr → expr
}.

(** [ZZ] as an output ring. *)
Definition ZZ : ring :=
  mkRing (λ e, match e with Int _ => true | _ => false end) (λ e, e).

Section Recursion.

(** The arguments of [Recursion]: the function [f], the variable [n],
    the base, the output rings. [same_equation] is the comparison [==] of
    two equations of the symbolic ring, which the parser uses to check its
    own result. *)
Variable function : string.
Variable var : string.
Variable base : Z.
Variable output_rings : list ring.
Variable same_equation : expr → expr → bool.

Definition is_scalar (expression : expr) : bool :=
  bool_decide (var ∉ variables expression).

Fixpoint coerce_output_in (rings : list ring) (output : expr) : expr :=
  match rings with
  | [] => output
  | ring :: rings' =>
      if contains ring output then convert ring output
      else coerce_output_in rings' output
  end.

Definition coerce_output (output : expr) : expr :=
  coerce_output_in output_rings output.

(** [sum(terms)] of Python, which starts from [0]. *)
Definition py_sum (terms : list expr) : expr :=
  match terms with
  | [] => Int 0
  | [a] => a
  | _ => Add terms
  end.

(** [R[var](e)] inside [try: ... except: raise ValueError(msg)] *)
Definition polynomial_of (e : expr) (msg : message) : M (list Z) :=
  match to_poly var e with
  | Some p => ret p
  | None => raise (ValueError msg)
  end.

(** [K = log(c, base=base)] followed by [if K not in ZZ: raise] *)
Definition integer_log (c : Z) : M Z :=
  match int_log base c with
  | Some K => ret K
  | None => raise (ValueError (not_a_power c base))
  end.

(** [(left_side, right_side) = equation.operands()] after the assertion
    that there are two operands. *)
Definition two_operands (equation : expr) : M (expr * expr) :=
  match operands equation with
  | [left_side; right_side] => ret (left_side, right_side)
  | _ => raise (AssertionError (not_two_operands equation))
  end.

(** [function(base**K * var + r) == function(base**k * var + s) + t] *)
Definition parsed_equation (K r k s : Z) (t : expr) : expr :=
  Eq_ (Call function [Add [Mul [Pow (Int base) (Int K); Sym var]; Int r]])
      (Add [Call function
              [Add [Mul [Pow (Int base) (Int k); Sym var]; Int s]];
            t]).

(** The right-hand side of a recursion: the evaluation of the function
    and the remaining term. *)
Definition split_right_side (right_side : expr) : M (expr * expr) :=
  (if bool_decide (operator_of right_side = operator_add) then
     let function_calls :=
       List.filter (λ o, bool_decide (operator_of o = function_ function))
                   (operands right_side) in
     let other_terms :=
       List.filter (λ o, bool_decide (operator_of o ≠ function_ function))
                   (operands right_side) in
     raise_if (bool_decide (length function_calls ≠ 1))
       (ValueError (not_exactly_one_summand right_side function)) ;;
     let next_function := nth 0 function_calls (Int 0) in
     let t := py_sum other_terms in
     raise_if (negb (is_scalar t)) (ValueError (contains_variable t var)) ;;
     ret (next_function, t)
   else ret (right_side, Int 0))%parser.

Definition parse_equation (equation : expr) : M unit :=
  (raise_if (bool_decide (operator_of equation ≠ operator_eq))
     (ValueError (not_an_equation equation)) ;;
   sides <- two_operands equation ;;
   let left_side := sides.1 in
   let right_side := sides.2 in
   raise_if (bool_decide (operator_of left_side ≠ function_ function))
     (ValueError (not_an_evaluation left_side function)) ;;
   raise_if (bool_decide (length (operands left_side) ≠ 1))
     (ValueError (not_one_argument left_side)) ;;
   let left_argument := nth 0 (operands left_side) (Int 0) in
   polynomial_left <-
     polynomial_of left_argument (could_not_convert left_argument var) ;;
   if in_base_ring polynomial_left && is_scalar right_side then
     set_initial_value (nth 0 polynomial_left 0%Z) right_side
   else (
     raise_if (bool_decide (degree polynomial_left ≠ 1%Z))
       (ValueError (not_of_degree_1 polynomial_left)) ;;
     let r := nth 0 polynomial_left 0%Z in
     let base_power_K := nth 1 polynomial_left 0%Z in
     K <- integer_log base_power_K ;;
     raise_if (bool_decide (K < 1)%Z)
       (ValueError (less_than_base base_power_K base)) ;;
     raise_if (negb (bool_decide (0 ≤ r < base_power_K)%Z))
       (ValueError (residue_out_of_range r base_power_K)) ;;
     right <- split_right_side right_side ;;
     let next_function := right.1 in
     let t := right.2 in
     raise_if (bool_decide (operator_of next_function ≠ function_ function))
       (ValueError (not_an_evaluation next_function function)) ;;
     raise_if (bool_decide (length (operands next_function) ≠ 1))
       (ValueError (not_exactly_one_argument next_function)) ;;
     let right_argument := nth 0 (operands next_function) (Int 0) in
     polynomial_right <-
       polynomial_of right_argument (not_a_polynomial right_argument var) ;;
     raise_if (bool_decide (degree polynomial_right ≠ 1%Z))
       (ValueError (not_of_degree_1 polynomial_right)) ;;
     let s := nth 0 polynomial_right 0%Z in
     let base_power_k := nth 1 polynomial_right 0%Z in
     k <- integer_log base_power_k ;;
     raise_if (bool_decide (k < 0)%Z)
       (ValueError (less_than_1 base_power_k)) ;;
     raise_if (bool_decide (k >= K)%Z)
       (ValueError (greater_or_equal base_power_k base_power_K)) ;;
     assert_ (same_equation equation (parsed_equation K r k s t))
       (AssertionError (parsing_failed equation)) ;;
     append_rule (mkRule K r k s (coerce_output t))))%parser.

(** [for equation in recursions: parse_equation(equation)] *)
Fixpoint parse_equations (recursions : list expr) : M unit :=
  match recursions with
  | [] => ret tt
  | equation :: recursions' =>
      (parse_equation equation ;; parse_equations recursions')%parser
  end.

(** ** The table of residues *)

(** [range(n)] *)
Definition range (n : Z) : list Z := map Z.of_nat (seq 0 (Z.to_nat n)).

(** [l[i]] and [l[i] = x], where a negative index counts from the end. *)
Definition index_of {A : Type} (l : list A) (i : Z) : option nat :=
  if bool_decide (0 ≤ i)%Z then
    if bool_decide (i < Z.of_nat (length l))%Z then Some (Z.to_nat i) else None
  else
    if bool_decide (- Z.of_nat (length l) ≤ i)%Z
    then Some (Z.to_nat (Z.of_nat (length l) + i)) else None.

Definition getitem {A : Type} (l : list A) (i : Z) : exception + A :=
  match index_of l i with
  | Some j => match l !! j with Some a => inr a | None => inl IndexError end
  | None => inl IndexError
  end.

Definition setitem {A : Type} (l : list A) (i : Z) (a : A)
  : exception + list A :=
  match index_of l i with
  | Some j => inr (<[j := a]> l)
  | None => inl IndexError
  end.

(** [max(rule.K for rule in rules)] *)
Definition max_K_of (rules : list Rule) : exception + Z :=
  match rules with
  | [] => inl (ValueError max_of_empty_sequence)
  | rule :: rules' => inr (foldl Z.max (K rule) (map K rules'))
  end.

(** [[[None for r in range(base**k)] for k in range(max_K + 1)]] *)
Definition empty_residues (max_K : Z) : list (list (option RuleRight)) :=
  map (λ k, map (λ _, None) (range (base ^ k))) (range (max_K + 1)).

(** A loop over a list whose body may raise. *)
Fixpoint loop {A S : Type} (body : A → S → exception + S) (l : list A)
  (st : S) : exception + S :=
  match l with
  | [] => inr st
  | a :: l' =>
      match body a st with
      | inl e => inl e
      | inr st' => loop body l' st'
      end
  end.

(** The body of the innermost loop that fills [residues]. *)
Definition enter_rule (rule : Rule) (m ell : Z)
  (residues : list (list (option RuleRight)))
  : exception + list (list (option RuleRight)) :=
  let R := (r rule + 2 ^ K rule * ell)%Z in
  match getitem residues (K rule + m) with
  | inl e => inl e
  | inr row =>
      match getitem row R with
      | inl e => inl e
      | inr (Some _) =>
          inl (ValueError (conflicting_rules R (base ^ (K rule + m))))
      | inr None =>
          match setitem row R
                  (Some (mkRuleRight (k rule + m) (s rule * base ^ m)
                           (t rule))) with
          | inl e => inl e
          | inr row' => setitem residues (K rule + m) row'
          end
      end
  end.

Definition fill_residues (max_K : Z) (rules : list Rule)
  : exception + list (list (option RuleRight)) :=
  loop (λ rule,
          loop (λ m, loop (enter_rule rule m) (range (base ^ m)))
               (range (max_K - K rule + 1)))
       rules (empty_residues max_K).

(** [[R for R, rule in enumerate(row) if rule is None]] *)
Definition missing_in (row : list (option RuleRight)) : list Z :=
  map (λ Rr, Z.of_nat Rr.1)
      (List.filter (λ Rr, match Rr.2 with None => true | Some _ => false end)
                   (indexed_from 0 row)).

(** The part of [Recursion] between the parsing of the equations and the
    construction of the transducer. *)
Definition residues_of (rules : list Rule)
  : exception + list (list (option RuleRight)) :=
  match max_K_of rules with
  | inl e => inl e
  | inr max_K =>
      match fill_residues max_K rules with
      | inl e => inl e
      | inr residues =>
          match getitem residues max_K with
          | inl e => inl e
          | inr row =>
              match missing_in row with
              | [] => inr residues
              | missing_residues =>
                  inl (ValueError
                         (missing_recursions missing_residues
                            (base ^ max_K)))
              end
          end
      end
  end.

(** ** The transition function *)

(** [d.inverse_mod(m)] *)
Definition inverse_mod (d m : Z) : option Z :=
  find (λ i, bool_decide ((d * i) mod m = 1 mod m)%Z) (range m).

(** [x % m] for a rational [x] and an integer [m]: the numerator times
    the inverse of the denominator modulo [m]. *)
Definition rational_mod (x : Q) (m : Z) : exception + Z :=
  match inverse_mod (Zpos (Qden x) mod m) m with
  | Some d => inr (((Qnum x mod m) * d) mod m)%Z
  | None => inl ZeroDivisionError
  end.

(** A state [(carry, look_ahead)]; the quotient [/] of two integers is a
    rational, so the carry is a rational number, kept in lowest terms. *)
Definition transition_function
  (residues : list (list (option RuleRight)))
  (state : Q * Z) (input : Z) : exception + ((Q * Z) * list expr) :=
  let '(carry, look_ahead) := state in
  let current := Qred (carry + inject_Z (input * base ^ look_ahead)) in
  let K := (look_ahead + 1)%Z in
  match rational_mod current (2 ^ K) with
  | inl e => inl e
  | inr R =>
      match getitem residues K with
      | inl e => inl e
      | inr row =>
          match getitem row R with
          | inl e => inl e
          | inr (Some rule) =>
              let n := Qred ((current - inject_Z R) / inject_Z (base ^ K)) in
              let new_carry :=
                Qred (n * inject_Z (base ^ k' rule) + inject_Z (s' rule)) in
              inr ((new_carry, k' rule), [t' rule])
          | inr None => inr ((current, K), [])
          end
      end
  end.

(** Reading a word of digits from a state: the state reached and the
    output written. *)
Fixpoint run (residues : list (list (option RuleRight)))
  (state : Q * Z) (word : list Z) : exception + ((Q * Z) * list expr) :=
  match word with
  | [] => inr (state, [])
  | input :: word' =>
      match transition_function residues state input with
      | inl e => inl e
      | inr (state', out) =>
          match run residues state' word' with
          | inl e => inl e
          | inr (state'', out') => inr (state'', out ++ out')
          end
      end
  end.

(** The whole of [Recursion] up to the call of [Transducer]: the initial
    values and the table of residues. *)
Definition recursion_setup (recursions : list expr)
  : exception + (gmap Z expr * list (list (option RuleRight))) :=
  match parse_equations recursions (mkState ∅ []) with
  | (inl e, _) => inl e
  | (inr _, st) =>
      match residues_of (rules st) with
      | inl e => inl e
      | inr residues => inr (initial_values st, residues)
      end
  end.

(** ** The admissible shapes of an equation *)

(** [f(c) == t] with a constant argument and [t] free of the variable. *)
Definition initial_condition (equation : expr) : Prop :=
  ∃ argument c t,
    equation = Eq_ (Call function [argument]) t ∧
    to_poly var argument = Some (constant c) ∧
    var ∉ variables t.

Definition is_evaluation (o : expr) : bool :=
  bool_decide (operator_of o = function_ function).

(** [right_side] is [evaluation + t]: either the evaluation alone, with
    [t = 0], or a sum of which exactly one summand is an evaluation of the
    function, [t] being the sum of the other summands. *)
Definition sum_of (right_side evaluation t : expr) : Prop :=
  (right_side = evaluation ∧ t = Int 0) ∨
  (∃ summands,
     right_side = Add summands ∧
     List.filter is_evaluation summands = [evaluation] ∧
     t = py_sum (List.filter (λ o, negb (is_evaluation o)) summands)).

(** [f(base^K*n + r) == f(base^k*n + s) + t] with [0 <= k < K],
    [0 <= r < base^K], both arguments polynomials of degree 1 in the
    variable and [t] free of the variable; [counted] is the condition on
    the number of evaluations of [f] in the right-hand side. *)
Definition recursion_equation (counted : expr → Prop) (equation : expr)
  : Prop :=
  ∃ left_argument right_side right_argument t K r k s,
    equation = Eq_ (Call function [left_argument]) right_side ∧
    to_poly var left_argument = Some [r; (base ^ K)%Z] ∧
    sum_of right_side (Call function [right_argument]) t ∧
    to_poly var right_argument = Some [s; (base ^ k)%Z] ∧
    (0 ≤ k < K)%Z ∧ (0 ≤ r < base ^ K)%Z ∧
    (var ∉ variables t) ∧
    counted right_side.

(** The admissible equations as the claim words them: the right-hand
    side of a recursion contains exactly one evaluation of [f]. *)
Definition admissible_as_stated (equation : expr) : Prop :=
  initial_condition equation ∨
  recursion_equation (λ right_side, count_calls function right_side = 1)
    equation.

(** The admissible equations of the code: exactly one summand of the
    right-hand side is an evaluation of [f]; the remaining term may
    contain further evaluations, as long as it is free of the variable. *)
Definition admissible (equation : expr) : Prop :=
  initial_condition equation ∨ recursion_equation (λ _, True) equation.

(** ** What the parser accepts *)

Lemma int_log_Some c K : int_log base c = Some K → (0 ≤ K)%Z ∧ (base ^ K)%Z = c.
Proof.
  unfold int_log. intros Hf. apply find_some in Hf as [Hin Hb].
  apply bool_decide_eq_true in Hb. split; [|done].
  apply in_map_iff in Hin as (i & <- & _). lia.
Qed.

(** [int_log] finds the exponent of every power of a base [>= 2]. *)
Lemma int_log_power (K : Z) :
  (2 ≤ base)%Z → (0 ≤ K)%Z → int_log base (base ^ K) = Some K.
Proof.
  intros Hbase HK. unfold int_log.
  assert (Hlog : (K ≤ Z.log2 (base ^ K))%Z).
  { rewrite <- (Z.log2_pow2 K HK) at 1. apply Z.log2_le_mono.
    apply Z.pow_le_mono_l. lia. }
  assert (Hlog0 : (0 ≤ Z.log2 (base ^ K))%Z) by apply Z.log2_nonneg.
  replace (S (Z.to_nat (Z.log2 (base ^ K))))
    with (Z.to_nat K + S (Z.to_nat (Z.log2 (base ^ K)) - Z.to_nat K)) by lia.
  rewrite seq_app, map_app. cbn [seq map]. rewrite Nat.add_0_l, Z2Nat.id by done.
  generalize (map Z.of_nat
                (seq (S (Z.to_nat K))
                     (Z.to_nat (Z.log2 (base ^ K)) - Z.to_nat K))).
  intros rest.
  assert (Hbefore : ∀ i, In i (map Z.of_nat (seq 0 (Z.to_nat K))) →
                         bool_decide (base ^ i = base ^ K)%Z = false).
  { intros i Hi. apply in_map_iff in Hi as (j & <- & Hj).
    apply in_seq in Hj. apply bool_decide_eq_false.
    assert (base ^ Z.of_nat j < base ^ K)%Z; [|lia].
    apply Z.pow_lt_mono_r; lia. }
  induction (map Z.of_nat (seq 0 (Z.to_nat K))) as [|i l IH]; simpl.
  - by rewrite bool_decide_eq_true_2.
  - rewrite Hbefore by (by left). apply IH. intros j Hj. apply Hbefore.
    by right.
Qed.

Lemma to_poly_normalized e p : to_poly var e = Some p → Zx.strip p = p.
Proof.
  destruct e as [z| x|ops|ops|b e| | |]; simpl; try done.
  - intros [= <-]. apply (Zx.strip_idemp [z]).
  - case_bool_decide; [|done]. by intros [= <-].
  - destruct ops as [|o ops]; simpl; [by intros [= <-]|].
    destruct (to_poly var o); [|done].
    destruct (foldr _ _ ops); [|done].
    intros [= <-]. apply Zx.strip_idemp.
  - destruct ops as [|o ops]; simpl; [by intros [= <-]|].
    destruct (to_poly var o); [|done].
    destruct (foldr _ _ ops); [|done].
    intros [= <-]. apply Zx.strip_idemp.
  - destruct e; try done. destruct (to_poly var b); [|done].
    case_bool_decide; [|done]. intros [= <-].
    destruct (Z.to_nat z); simpl; [done|]. apply Zx.strip_idemp.
Qed.

Lemma constant_polynomial p :
  Zx.strip p = p → in_base_ring p = true → p = constant (nth 0 p 0%Z).
Proof.
  intros Hp Hc. apply bool_decide_eq_true in Hc.
  destruct p as [|c [|d p]]; [reflexivity| |simpl in Hc; lia].
  unfold constant. cbn [nth]. by rewrite Hp.
Qed.

Lemma degree_1_polynomial p :
  degree p = 1%Z → p = [nth 0 p 0%Z; nth 1 p 0%Z].
Proof.
  unfold degree. intros Hd.
  destruct p as [|c [|d [|e p]]]; simpl in *; try lia. done.
Qed.

(** Stepping through a sequence of statements. *)
Lemma bind_raise_if {A : Type} (b : bool) e (f : unit → M A) st :
  bind (raise_if b e) f st = if b then (inl e, st) else f tt st.
Proof. by destruct b. Qed.

Lemma bind_ret {A B : Type} (a : A) (f : A → M B) st :
  bind (ret a) f st = f a st.
Proof. done. Qed.

Lemma bind_raise {A B : Type} e (f : A → M B) st :
  bind (raise e) f st = (inl e, st).
Proof. done. Qed.

Lemma bind_returns {A B : Type} (m : M A) (f : A → M B) st a st' :
  m st = (inr a, st') → bind m f st = f a st'.
Proof. unfold bind. by intros ->. Qed.

Lemma bind_raises {A B : Type} (m : M A) (f : A → M B) st e st' :
  m st = (inl e, st') → bind m f st = (inl e, st').
Proof. unfold bind. by intros ->. Qed.

(** An expression whose operator is the function is an evaluation. *)
Lemma operator_function e :
  operator_of e = function_ function → ∃ args, e = Call function args.
Proof. destruct e; try done. intros [= ->]. eauto. Qed.

Lemma one_operand (args : list expr) :
  length args = 1 → args = [nth 0 args (Int 0)].
Proof. destruct args as [|a [|b args]]; done. Qed.

Lemma filter_singleton (f : expr → bool) (l : list expr) :
  length (List.filter f l) = 1 →
  List.filter f l = [nth 0 (List.filter f l) (Int 0)].
Proof. apply one_operand. Qed.

(** [split_right_side] either raises [ValueError] or returns an
    evaluation and a remaining term free of the variable that add up to
    the right-hand side. *)
Lemma split_right_side_sound right_side st :
  (∃ msg, split_right_side right_side st = (inl (ValueError msg), st)) ∨
  (∃ next_function t,
     split_right_side right_side st = (inr (next_function, t), st) ∧
     (var ∉ variables t) ∧
     ((right_side = next_function ∧ t = Int 0) ∨
      (∃ summands,
         right_side = Add summands ∧
         List.filter is_evaluation summands = [next_function] ∧
         t = py_sum (List.filter (λ o, negb (is_evaluation o)) summands)))).
Proof.
  unfold split_right_side. case_bool_decide as Hop.
  - destruct right_side as [ | |summands| | | | | ]; try done.
    cbn [operands]. rewrite bind_raise_if.
    case_bool_decide as Hlen; [left; eauto|].
    try apply dec_stable in Hlen. rewrite bind_raise_if.
    destruct (is_scalar _) eqn:Hsc; simpl; [|left; eauto].
    right. eexists _, _. split; [reflexivity|].
    split; [by apply bool_decide_eq_true in Hsc|].
    right. exists summands. split; [done|]. split.
    + by apply filter_singleton.
    + f_equal. apply filter_ext. intros o. unfold is_evaluation.
      by repeat case_bool_decide.
  - right. exists right_side, (Int 0). split; [done|].
    split; [apply not_elem_of_nil|]. by left.
Qed.

Lemma parse_equation_sound equation st :
  (∃ msg, parse_equation equation st = (inl (ValueError msg), st)) ∨
  admissible equation.
Proof.
  destruct equation as [ | | | | | |left_side right_side| ];
    try (left; eexists; reflexivity).
  unfold parse_equation.
  rewrite bind_raise_if. case_bool_decide as H0; [by destruct H0|]. clear H0.
  unfold two_operands. cbn [operands]. rewrite bind_ret. cbn [fst snd].
  rewrite bind_raise_if. case_bool_decide as Hf; [left; eauto|].
  try apply dec_stable in Hf. apply operator_function in Hf as [args ->].
  cbn [operands]. rewrite bind_raise_if.
  case_bool_decide as Hlen; [left; eauto|].
  try apply dec_stable in Hlen. rewrite (one_operand args Hlen).
  cbn [nth]. set (left_argument := nth 0 args (Int 0)).
  unfold polynomial_of at 1.
  destruct (to_poly var left_argument) as [polynomial_left|] eqn:Hleft;
    [rewrite bind_ret|rewrite bind_raise; left; eauto].
  pose proof (to_poly_normalized _ _ Hleft) as Hnorm.
  destruct (in_base_ring polynomial_left && is_scalar right_side)
    eqn:Hinitial.
  { apply andb_prop in Hinitial as [Hconst Hscalar]. right. left.
    exists left_argument, (nth 0 polynomial_left 0%Z), right_side.
    split; [done|]. split.
    - by rewrite <- constant_polynomial.
    - by apply bool_decide_eq_true in Hscalar. }
  clear Hinitial.
  rewrite bind_raise_if. case_bool_decide as Hdeg; [left; eauto|].
  try apply dec_stable in Hdeg. apply degree_1_polynomial in Hdeg.
  set (r := nth 0 polynomial_left 0%Z) in *.
  set (base_power_K := nth 1 polynomial_left 0%Z) in *.
  unfold integer_log at 1.
  destruct (int_log base base_power_K) as [K|] eqn:HK;
    [rewrite bind_ret|rewrite bind_raise; left; eauto].
  apply int_log_Some in HK as [HK0 HK].
  rewrite bind_raise_if. case_bool_decide as HK1; [left; eauto|].
  rewrite bind_raise_if.
  destruct (bool_decide (0 ≤ r < base_power_K)%Z) eqn:Hr; simpl;
    [|left; eauto].
  apply bool_decide_eq_true in Hr.
  destruct (split_right_side_sound right_side st)
    as [[msg Hsplit]|(next_function & t & Hsplit & Ht & Hsum)].
  { rewrite (bind_raises _ _ _ _ _ Hsplit). left; eauto. }
  rewrite (bind_returns _ _ _ _ _ Hsplit). cbn [fst snd].
  rewrite bind_raise_if. case_bool_decide as Hnf; [left; eauto|].
  try apply dec_stable in Hnf. apply operator_function in Hnf as [args' ->].
  cbn [operands]. rewrite bind_raise_if.
  case_bool_decide as Hlen'; [left; eauto|].
  try apply dec_stable in Hlen'. rewrite (one_operand args' Hlen') in *.
  cbn [nth]. set (right_argument := nth 0 args' (Int 0)) in *.
  unfold polynomial_of at 1.
  destruct (to_poly var right_argument) as [polynomial_right|] eqn:Hright;
    [rewrite bind_ret|rewrite bind_raise; left; eauto].
  rewrite bind_raise_if. case_bool_decide as Hdeg'; [left; eauto|].
  try apply dec_stable in Hdeg'. apply degree_1_polynomial in Hdeg'.
  set (s := nth 0 polynomial_right 0%Z) in *.
  set (base_power_k := nth 1 polynomial_right 0%Z) in *.
  unfold integer_log at 1.
  destruct (int_log base base_power_k) as [k|] eqn:Hk;
    [rewrite bind_ret|rewrite bind_raise; left; eauto].
  apply int_log_Some in Hk as [Hk0 Hk].
  rewrite bind_raise_if. case_bool_decide as Hk1; [left; eauto|].
  rewrite bind_raise_if. case_bool_decide as HkK; [left; eauto|].
  right. right.
  exists left_argument, right_side, right_argument, t, K, r, k, s.
  split; [done|]. split; [by rewrite HK, <- Hdeg|].
  split; [exact Hsum|]. split; [by rewrite Hk, <- Hdeg'|].
  split; [lia|]. split; [by rewrite HK|]. done.
Qed.

Lemma parse_equations_app (before after : list expr) st :
  parse_equations (before ++ after) st
  = match parse_equations before st with
    | (inl e, st') => (inl e, st')
    | (inr _, st') => parse_equations after st'
    end.
Proof.
  revert st. induction before as [|equation before IH]; intros st; [done|].
  simpl. unfold bind.
  destruct (parse_equation equation st) as [[e|[]] st']; [done|apply IH].
Qed.

(** C6, as amended: [parse_equation] raises [ValueError], and leaves
    [rules] and [initial_values] as they were, on every equation that is
    neither an initial condition [f(c) == t] (constant argument, [t] free of
    the variable) nor a recursion [f(base^K*n + r) == f(base^k*n + s) + t]
    with [0 <= k < K], [0 <= r < base^K], both arguments polynomials of
    degree 1, exactly one summand of the right-hand side an evaluation of
    [f], and [t] free of the variable. Hence [Recursion] raises this
    [ValueError] when it reaches such an equation in its list. *)
Theorem C6_parse_equation_rejects (equation : expr) (st : state)
  (before after : list expr) :
  ¬ admissible equation →
  (∃ msg, parse_equation equation st = (inl (ValueError msg), st)) ∧
  (parse_equations before (mkState ∅ []) = (inr tt, st) →
   ∃ msg,
     parse_equations (before ++ equation :: after) (mkState ∅ [])
     = (inl (ValueError msg), st) ∧
     recursion_setup (before ++ equation :: after) = inl (ValueError msg)).
Proof.
  intros Hna.
  destruct (parse_equation_sound equation st) as [[msg Hmsg]|?]; [|done].
  split; [by exists msg|].
  intros Hbefore. exists msg.
  assert (Hall : parse_equations (before ++ equation :: after) (mkState ∅ [])
                 = (inl (ValueError msg), st)).
  { rewrite parse_equations_app, Hbefore. simpl. unfold bind.
    by rewrite Hmsg. }
  split; [done|]. unfold recursion_setup. by rewrite Hall.
Qed.

(** Conversely, for a base [>= 2] an admissible equation passes every
    check that raises [ValueError]. *)
Lemma parse_equation_accepts (equation : expr) (st : state) :
  (2 ≤ base)%Z → admissible equation →
  ∀ msg st', parse_equation equation st ≠ (inl (ValueError msg), st').
Proof.
  intros Hbase [(argument & c & t & -> & Hpoly & Ht)|Hrec] msg st'.
  - unfold parse_equation.
    rewrite bind_raise_if, bool_decide_eq_false_2 by (by intros []).
    unfold two_operands. cbn [operands]. rewrite bind_ret. cbn [fst snd].
    rewrite bind_raise_if, bool_decide_eq_false_2 by (by intros []).
    cbn [operands]. rewrite bind_raise_if.
    rewrite bool_decide_eq_false_2 by (by intros []).
    cbn [nth]. unfold polynomial_of. rewrite Hpoly, bind_ret.
    assert (Hc : in_base_ring (constant c) = true).
    { apply bool_decide_eq_true. unfold constant, Zx.strip.
      case_decide; simpl; lia. }
    rewrite Hc. unfold is_scalar. rewrite bool_decide_eq_true_2 by done.
    done.
  - destruct Hrec as (la & rs & ra & t & K & r & k & s & -> & Hleft & Hsum
                      & Hright & Hk & Hr & Ht & _).
    assert (Hpow : ∀ e, (0 ≤ e)%Z → (0 < base ^ e)%Z).
    { intros e He. apply Z.pow_pos_nonneg; lia. }
    unfold parse_equation.
    rewrite bind_raise_if, bool_decide_eq_false_2 by (by intros []).
    unfold two_operands. cbn [operands]. rewrite bind_ret. cbn [fst snd].
    rewrite bind_raise_if, bool_decide_eq_false_2 by (by intros []).
    cbn [operands]. rewrite bind_raise_if.
    rewrite bool_decide_eq_false_2 by (by intros []).
    cbn [nth]. unfold polynomial_of at 1. rewrite Hleft, bind_ret.
    change (in_base_ring [r; (base ^ K)%Z]) with false. cbn [andb nth].
    rewrite bind_raise_if, bool_decide_eq_false_2 by (by intros []).
    unfold integer_log at 1. rewrite int_log_power by lia.
    rewrite bind_ret, bind_raise_if, bool_decide_eq_false_2 by lia.
    rewrite bind_raise_if, bool_decide_eq_true_2 by done. cbn [negb].
    assert (Hsplit : split_right_side rs st
                     = (inr (Call function [ra], t), st)).
    { unfold split_right_side. destruct Hsum as [[-> ->]|(ops & -> & Hf & ->)].
      - by rewrite bool_decide_eq_false_2.
      - rewrite bool_decide_eq_true_2 by done. cbn [operands].
        fold is_evaluation. rewrite Hf. rewrite bind_raise_if.
        rewrite bool_decide_eq_false_2 by (by intros []).
        rewrite bind_raise_if. unfold is_scalar at 1.
        assert (Hext : List.filter
                         (λ o, bool_decide (operator_of o ≠ function_ function))
                         ops
                       = List.filter (λ o, negb (is_evaluation o)) ops).
        { apply filter_ext. intros o. unfold is_evaluation.
          by repeat case_bool_decide. }
        rewrite Hext. by rewrite bool_decide_eq_true_2. }
    rewrite (bind_returns _ _ _ _ _ Hsplit). cbn [fst snd].
    rewrite bind_raise_if, bool_decide_eq_false_2 by (by intros []).
    cbn [operands]. rewrite bind_raise_if.
    rewrite bool_decide_eq_false_2 by (by intros []).
    cbn [nth]. unfold polynomial_of at 1. rewrite Hright, bind_ret.
    cbn [nth].
    rewrite bind_raise_if, bool_decide_eq_false_2 by (by intros []).
    unfold integer_log at 1. rewrite int_log_power by lia.
    rewrite bind_ret, bind_raise_if, bool_decide_eq_false_2 by lia.
    rewrite bind_raise_if, bool_decide_eq_false_2 by lia.
    unfold bind, assert_. by destruct (same_equation _ _).
Qed.

(** Whatever the parser does, an exception leaves the state untouched. *)
Lemma parse_equation_raises_unchanged equation st e st' :
  parse_equation equation st = (inl e, st') → st' = st.
Proof.
  destruct equation as [ | | | | | |left_side right_side| ];
    try (by intros [= _ <-]).
  unfold parse_equation.
  rewrite bind_raise_if. case_bool_decide as H0; [by destruct H0|]. clear H0.
  unfold two_operands. cbn [operands]. rewrite bind_ret. cbn [fst snd].
  repeat first
    [ rewrite bind_raise_if;
      match goal with
      | |- (if ?b then _ else _) = _ → _ =>
          destruct b; [by intros [= _ <-]|]
      end
    | unfold polynomial_of at 1;
      match goal with
      | |- context [to_poly var ?a] =>
          destruct (to_poly var a);
          [rewrite bind_ret|rewrite bind_raise; by intros [= _ <-]]
      end
    | unfold integer_log at 1;
      match goal with
      | |- context [int_log base ?c] =>
          destruct (int_log base c);
          [rewrite bind_ret|rewrite bind_raise; by intros [= _ <-]]
      end
    | match goal with
      | |- (if ?b then set_initial_value _ _ else _) _ = _ → _ =>
          destruct b; [by intros [= ]|]
      end
    | match goal with
      | |- bind (split_right_side ?rs) _ ?st = _ → _ =>
          destruct (split_right_side_sound rs st)
            as [[msg Hs]|(nf & t & Hs & _)];
          [rewrite (bind_raises _ _ _ _ _ Hs); by intros [= _ <-]
          |rewrite (bind_returns _ _ _ _ _ Hs); cbn [fst snd]]
      end ].
  unfold bind, assert_. destruct (same_equation _ _); by intros [= ].
Qed.

End Recursion.

(** ** The docstrings' examples *)

Definition f (argument : expr) : expr := Call "f" [argument].
Definition n : expr := Sym "n".

(** [c * n + d] *)
Definition linear (c d : Z) : expr := Add [Mul [Int c; n]; Int d].

(** An equation and what the parser reconstructs from it agree. *)
Definition equations_agree (equation parsed : expr) : bool := true.

Definition parse (base : Z) (equation : expr)
  : (exception + unit) * state :=
  parse_equation "f" "n" base [ZZ] equations_agree equation (mkState ∅ []).

Example doctest_not_an_equation :
  parse 2 (f (linear 4 1))
  = (inl (ValueError (not_an_equation (f (linear 4 1)))), mkState ∅ []).
Proof. reflexivity. Qed.

Example doctest_not_an_evaluation :
  parse 2 (Eq_ (Add [f n; Int 1]) (f (Mul [Int 2; n])))
  = (inl (ValueError (not_an_evaluation (Add [f n; Int 1]) "f")),
     mkState ∅ []).
Proof. reflexivity. Qed.

Example doctest_not_one_argument :
  parse 2 (Eq_ (Call "f" [Mul [Int 2; n]; Int 5]) (Int 3))
  = (inl (ValueError (not_one_argument (Call "f" [Mul [Int 2; n]; Int 5]))),
     mkState ∅ []).
Proof. reflexivity. Qed.

Example doctest_could_not_convert :
  parse 2 (Eq_ (f (Pow n (Int (-1)))) (Add [f n; Int 3]))
  = (inl (ValueError (could_not_convert (Pow n (Int (-1))) "n")),
     mkState ∅ []).
Proof. reflexivity. Qed.

Example doctest_not_of_degree_1 :
  parse 2 (Eq_ (f (Add [Pow n (Int 2); Int 5])) (Int 3))
  = (inl (ValueError (not_of_degree_1 [5; 0; 1]%Z)), mkState ∅ []).
Proof. reflexivity. Qed.

Example doctest_not_a_power :
  parse 2 (Eq_ (f (linear 3 5)) (Add [f n; Int 7]))
  = (inl (ValueError (not_a_power 3 2)), mkState ∅ []).
Proof. reflexivity. Qed.

Example doctest_less_than_base :
  parse 2 (Eq_ (f (Add [n; Int 5])) (Add [f n; Int 7]))
  = (inl (ValueError (less_than_base 1 2)), mkState ∅ []).
Proof. reflexivity. Qed.

Example doctest_residue_out_of_range :
  parse 2 (Eq_ (f (linear 2 5)) (Add [f n; Int 7]))
  = (inl (ValueError (residue_out_of_range 5 2)), mkState ∅ []).
Proof. reflexivity. Qed.

Example doctest_not_exactly_one_summand :
  parse 2 (Eq_ (f (linear 2 1)) (Add [f (Add [n; Int 1]); f n; Int 2]))
  = (inl (ValueError
            (not_exactly_one_summand
               (Add [f (Add [n; Int 1]); f n; Int 2]) "f")),
     mkState ∅ []).
Proof. reflexivity. Qed.

Example doctest_contains_variable :
  parse 2 (Eq_ (f (linear 2 1)) (Add [f n; n; Int 2]))
  = (inl (ValueError (contains_variable (Add [n; Int 2]) "n")),
     mkState ∅ []).
Proof. reflexivity. Qed.

Example doctest_greater_or_equal :
  parse 2 (Eq_ (f (linear 2 1)) (f (linear 2 5)))
  = (inl (ValueError (greater_or_equal 2 2)), mkState ∅ []).
Proof. reflexivity. Qed.

Example doctest_recursion_parsed :
  parse 2 (Eq_ (f (linear 4 3)) (Add [f (Add [n; Int 1]); Int 1]))
  = (inr tt, mkState ∅ [mkRule 2 3 0 1 (Int 1)]).
Proof. reflexivity. Qed.

Example doctest_initial_condition_parsed :
  parse 2 (Eq_ (f (Int 0)) (Int 0))
  = (inr tt, mkState {[ 0%Z := Int 0 ]} []).
Proof. reflexivity. Qed.

(** ** C6 *)

(** [f(2*n + 1) == f(n) + 2*f(5)]: the right-hand side evaluates [f]
    twice, once as a summand and once inside the remaining term. *)
Definition nested_evaluation : expr :=
  Eq_ (f (linear 2 1)) (Add [f n; Mul [Int 2; f (Int 5)]]).

Example nested_evaluation_parsed :
  parse 2 nested_evaluation
  = (inr tt, mkState ∅ [mkRule 1 1 0 0 (Mul [Int 2; f (Int 5)])]).
Proof. reflexivity. Qed.

Lemma nested_evaluation_not_as_stated :
  ¬ admissible_as_stated "f" "n" 2 nested_evaluation.
Proof.
  intros [(argument & c & t & Heq & Hpoly & _)|Hrec].
  - injection Heq as <- _.
    change (to_poly "n" (linear 2 1)) with (Some [1%Z; 2%Z]) in Hpoly.
    unfold constant, Zx.strip in Hpoly. case_decide; discriminate.
  - destruct Hrec as (la & rs & ra & t & K & r & k & s & Heq & _ & _ & _
                      & _ & _ & _ & Hcount).
    injection Heq as _ <-. vm_compute in Hcount. discriminate.
Qed.

(** The claim as stated fails on [nested_evaluation]: it is not of an
    admissible shape in the claim's words, yet the parser raises nothing
    and appends a rule. *)
Lemma C6_as_stated_counterexample :
  ¬ (¬ admissible_as_stated "f" "n" 2 nested_evaluation →
     ∃ msg, parse 2 nested_evaluation
            = (inl (ValueError msg), mkState ∅ [])).
Proof.
  intros Hclaim.
  destruct (Hclaim nested_evaluation_not_as_stated) as [msg Hmsg].
  rewrite nested_evaluation_parsed in Hmsg. discriminate.
Qed.

Lemma C6_parse_equation_rejects_witness :
  ¬ admissible "f" "n" 2 (f (linear 4 1)) ∧
  ∃ msg, parse 2 (f (linear 4 1)) = (inl (ValueError msg), mkState ∅ []).
Proof.
  assert (Hna : ¬ admissible "f" "n" 2 (f (linear 4 1))).
  { intros [(? & ? & ? & Heq & _)|(? & ? & ? & ? & ? & ? & ? & ? & Heq & _)];
      discriminate. }
  split; [exact Hna|].
  exact (proj1 (C6_parse_equation_rejects "f" "n" 2 [ZZ] equations_agree
                  (f (linear 4 1)) (mkState ∅ []) [] [] Hna)).
Defined.

(** ** C8: the check of the residue classes *)

(** A rule [f(base^K*n + r) == ...] covers the residue class of [R]
    modulo [base^max_K] when [R] is congruent to [r] modulo [base^K]. *)
Definition covers (base : Z) (rule : Rule) (R : Z) : bool :=
  bool_decide (R mod base ^ K rule = r rule)%Z.

(** The number of rules that cover each residue class modulo
    [base^max_K]. *)
Definition coverage (base max_K : Z) (rules : list Rule) : list nat :=
  map (λ R, length (List.filter (λ rule, covers base rule R) rules))
      (range (base ^ max_K)).

Definition setup (base : Z) (recursions : list expr)
  : exception + (gmap Z expr * list (list (option RuleRight))) :=
  recursion_setup "f" "n" base [ZZ] equations_agree recursions.

Definition parsed_rules (base : Z) (recursions : list expr) : list Rule :=
  rules (parse_equations "f" "n" base [ZZ] equations_agree recursions
           (mkState ∅ [])).2.

(** Base 3: the classes 0 and 1 modulo 3 and the classes 6, 7 and 8
    modulo 9. The classes 2 and 5 modulo 9 have no rule and the classes 6
    and 7 have two. *)
Definition uncovered_base_3 : list expr :=
  [ Eq_ (f (Mul [Int 3; n])) (f n);
    Eq_ (f (linear 3 1)) (f n);
    Eq_ (f (linear 9 6)) (f n);
    Eq_ (f (linear 9 7)) (f n);
    Eq_ (f (linear 9 8)) (f n) ].

(** Base 3: the classes 0 and 1 modulo 3 and the classes 2, 5 and 8
    modulo 9. Every class modulo 9 has exactly one rule. *)
Definition partition_base_3 : list expr :=
  [ Eq_ (f (Mul [Int 3; n])) (f n);
    Eq_ (f (linear 3 1)) (f n);
    Eq_ (f (linear 9 2)) (f n);
    Eq_ (f (linear 9 5)) (f n);
    Eq_ (f (linear 9 8)) (f n) ].

(** C8 fails for base 3: the entries of the table are computed with
    [2**K] where the residue classes need [base**K]. Rules that leave
    classes uncovered and cover others twice pass the check, and rules
    that cover every class exactly once are reported as conflicting. *)
Theorem C8_residue_check_base_3 :
  (coverage 3 2 (parsed_rules 3 uncovered_base_3)
   = [1; 1; 0; 1; 1; 0; 2; 2; 1] ∧
   ∃ residues, setup 3 uncovered_base_3 = inr (∅, residues)) ∧
  (coverage 3 2 (parsed_rules 3 partition_base_3)
   = [1; 1; 1; 1; 1; 1; 1; 1; 1] ∧
   setup 3 partition_base_3 = inl (ValueError (conflicting_rules 2 9))).
Proof.
  split; (split; [reflexivity|]).
  - eexists. vm_compute. reflexivity.
  - vm_compute. reflexivity.
Qed.

(** Every residue class modulo [base^max_K] is covered by exactly one
    rule. *)
Definition covered_exactly_once (base : Z) (rules : list Rule) : bool :=
  match max_K_of rules with
  | inr max_K => forallb (λ c, Nat.eqb c 1) (coverage base max_K rules)
  | inl _ => false
  end.

(** All the lists of rules with [K <= 3] and base 2, the rules taken in
    increasing or in decreasing order of [(K, r)]. *)
Fixpoint sublists {A : Type} (l : list A) : list (list A) :=
  match l with
  | [] => [[]]
  | a :: l' => map (cons a) (sublists l') ++ sublists l'
  end.

Definition rules_up_to_3 : list Rule :=
  flat_map (λ K, map (λ r, mkRule K r 0 0 (Int 0)) (range (2 ^ K)))
           [1; 2; 3]%Z.

Definition passes_check (base : Z) (rules : list Rule) : bool :=
  match residues_of base rules with
  | inr _ => true
  | inl _ => false
  end.

(** For base 2 the check passes exactly when every class is covered
    once, on each of these 32768 lists of rules. *)
Example residue_check_base_2_bounded :
  forallb (λ rules, eqb (passes_check 2 rules) (covered_exactly_once 2 rules))
          (sublists rules_up_to_3 ++ sublists (rev rules_up_to_3))
  = true.
Proof. vm_compute. reflexivity. Qed.

(** For base 2 the docstring's examples behave as the claim says. *)
Example doctest_conflicting_rules :
  setup 2 [ Eq_ (f (linear 2 1)) (f n);
            Eq_ (f (Mul [Int 4; n])) (Add [f (Mul [Int 2; n]); Int 1]);
            Eq_ (f (Mul [Int 2; n])) (Add [f n; Int 1]) ]
  = inl (ValueError (conflicting_rules 0 4)).
Proof. vm_compute. reflexivity. Qed.

Example doctest_missing_recursions :
  setup 2 [ Eq_ (f (Mul [Int 2; n])) (f n) ]
  = inl (ValueError (missing_recursions [1%Z] 2)).
Proof. vm_compute. reflexivity. Qed.

(** ** C1: the transducer of a recursion *)

(** The function [f] that the recursions and initial conditions define,
    evaluated at [m] by unfolding the rule of the residue class of [m]
    until an initial condition applies. *)
Fixpoint f_defined (fuel : nat) (base : Z) (rules : list Rule)
  (initial : gmap Z expr) (m : Z) : option Z :=
  match fuel with
  | O => None
  | S fuel' =>
      match initial !! m with
      | Some (Int v) => Some v
      | Some _ => None
      | None =>
          match find (λ rule, covers base rule m) rules with
          | Some rule =>
              let m' := (base ^ k rule * ((m - r rule) / base ^ K rule)
                         + s rule)%Z in
              match t rule, f_defined fuel' base rules initial m' with
              | Int c, Some v => Some (v + c)%Z
              | _, _ => None
              end
          | None => None
          end
      end
  end.

(** The sum of the digits in base 3. *)
Definition ternary_digit_sum : list expr :=
  [ Eq_ (f (Mul [Int 3; n])) (f n);
    Eq_ (f (linear 3 1)) (Add [f n; Int 1]);
    Eq_ (f (linear 3 2)) (Add [f n; Int 2]);
    Eq_ (f (Int 0)) (Int 0) ].

(** The sum of the binary digits, the first example of the docstring. *)
Definition binary_digit_sum : list expr :=
  [ Eq_ (f (linear 2 1)) (Add [f n; Int 1]);
    Eq_ (f (Mul [Int 2; n])) (f n);
    Eq_ (f (Int 0)) (Int 0) ].

Definition residues_table (base : Z) (recursions : list expr)
  : list (list (option RuleRight)) :=
  match setup base recursions with
  | inr (_, residues) => residues
  | inl _ => []
  end.

(** Base 2: reading [1101] (13, least significant digit first) writes the
    digits back and returns to the initial state. *)
Example binary_digit_sum_13 :
  run 2 (residues_table 2 binary_digit_sum) (0%Q, 0%Z) [1; 0; 1; 1]%Z
  = inr ((0%Q, 0%Z), [Int 1; Int 0; Int 1; Int 1]).
Proof. vm_compute. reflexivity. Qed.

(** The Hamming weight of the non-adjacent form, with the transitions
    that the docstring lists. *)
Definition naf_weight : list expr :=
  [ Eq_ (f (linear 4 1)) (Add [f n; Int 1]);
    Eq_ (f (linear 4 3)) (Add [f (Add [n; Int 1]); Int 1]);
    Eq_ (f (Mul [Int 2; n])) (f n);
    Eq_ (f (Int 0)) (Int 0) ].

Example doctest_naf_transitions :
  map (λ '(state, input),
         transition_function 2 (residues_table 2 naf_weight) state input)
      [ ((0%Q, 0%Z), 0%Z); ((0%Q, 0%Z), 1%Z);
        ((1%Q, 1%Z), 0%Z); ((1%Q, 1%Z), 1%Z);
        ((1%Q, 0%Z), 0%Z); ((1%Q, 0%Z), 1%Z) ]
  = [ inr ((0%Q, 0%Z), [Int 0]); inr ((1%Q, 1%Z), []);
      inr ((0%Q, 0%Z), [Int 1]); inr ((1%Q, 0%Z), [Int 1]);
      inr ((1%Q, 1%Z), []); inr ((1%Q, 0%Z), [Int 0]) ].
Proof. vm_compute. reflexivity. Qed.

(** The table of the ternary sum of digits. *)
Definition ternary_table : list (list (option RuleRight)) :=
  [ [None];
    [ Some (mkRuleRight 0 0 (Int 0));
      Some (mkRuleRight 0 0 (Int 1));
      Some (mkRuleRight 0 0 (Int 2)) ] ].

Lemma ternary_table_eq : residues_table 3 ternary_digit_sum = ternary_table.
Proof. vm_compute. reflexivity. Qed.

Lemma Qred_odd_denominator (d : positive) :
  (Zpos d mod 2 = 1)%Z → Qred (2 # d) = 2 # d.
Proof.
  intros Hodd. apply Qred_identity. simpl.
  rewrite (Z.div_mod (Zpos d) 2) by lia. rewrite Hodd.
  rewrite Z.add_comm, Z.mul_comm, Z.gcd_add_mult_diag_r. reflexivity.
Qed.

Lemma odd_times_3 (d : positive) :
  (Zpos d mod 2 = 1)%Z → (Zpos (d * 3) mod 2 = 1)%Z.
Proof.
  intros Hodd. rewrite Pos2Z.inj_mul.
  rewrite <- Z.mul_mod_idemp_l by lia. by rewrite Hodd.
Qed.

(** In a state with carry [2/d], [d] odd, the digit [0] writes [0] and
    leads to the carry [2/(3*d)]. *)
Lemma ternary_zero_step (d : positive) :
  (Zpos d mod 2 = 1)%Z →
  transition_function 3 ternary_table (2 # d, 0%Z) 0
  = inr ((2 # (d * 3), 0%Z), [Int 0]).
Proof.
  intros Hodd. unfold transition_function.
  assert (Hcurrent : Qred ((2 # d) + inject_Z (0 * 3 ^ 0)) = 2 # d).
  { rewrite <- (Qred_odd_denominator d Hodd) at 2. apply Qred_complete.
    unfold Qeq. simpl. lia. }
  rewrite Hcurrent. unfold rational_mod. cbn [Qden Qnum].
  change (2 ^ (0 + 1))%Z with 2%Z. rewrite Hodd.
  change (inverse_mod 1 2) with (Some 1%Z). cbv beta iota.
  change ((2 mod 2 * 1) mod 2)%Z with 0%Z.
  change (getitem ternary_table (0 + 1)%Z)
    with (@inr exception _
            [ Some (mkRuleRight 0 0 (Int 0));
              Some (mkRuleRight 0 0 (Int 1));
              Some (mkRuleRight 0 0 (Int 2)) ]).
  cbv beta iota.
  change (getitem _ 0%Z)
    with (@inr exception _ (Some (mkRuleRight 0 0 (Int 0)))).
  cbv beta iota. cbn [k' s' t'].
  assert (Hn : Qred (((2 # d) - inject_Z 0) / inject_Z (3 ^ (0 + 1)))
               = 2 # (d * 3)).
  { rewrite <- (Qred_odd_denominator (d * 3) (odd_times_3 d Hodd)).
    apply Qred_complete. unfold Qeq. simpl. lia. }
  rewrite Hn.
  assert (Hcarry : Qred ((2 # (d * 3)) * inject_Z (3 ^ 0) + inject_Z 0)
                   = 2 # (d * 3)).
  { rewrite <- (Qred_odd_denominator (d * 3) (odd_times_3 d Hodd)) at 2.
    apply Qred_complete. unfold Qeq. simpl. lia. }
  by rewrite Hcarry.
Qed.

(** [3^(j+1)] *)
Definition power_of_3 (j : nat) : positive :=
  Nat.iter j (λ d, (d * 3)%positive) 3%positive.

Lemma ternary_zeros (j : nat) (d : positive) :
  (Zpos d mod 2 = 1)%Z →
  run 3 ternary_table (2 # d, 0%Z) (replicate j 0%Z)
  = inr ((2 # Nat.iter j (λ d, (d * 3)%positive) d, 0%Z),
         replicate j (Int 0)).
Proof.
  revert d. induction j as [|j IH]; intros d Hodd; [done|].
  cbn [replicate run]. rewrite (ternary_zero_step d Hodd).
  rewrite (IH (d * 3)%positive (odd_times_3 d Hodd)).
  by rewrite Nat.iter_succ_r.
Qed.

(** The sum of the binary digits again, by rules whose right-hand sides
    keep a factor [2]: [f(4*n + 1) == f(2*n) + 1],
    [f(4*n + 3) == f(2*n + 1) + 1], [f(2*n) == f(n)], [f(0) == 0]. *)
Definition binary_digit_sum_by_4 : list expr :=
  [ Eq_ (f (linear 4 1)) (Add [f (Mul [Int 2; n]); Int 1]);
    Eq_ (f (linear 4 3)) (Add [f (linear 2 1); Int 1]);
    Eq_ (f (Mul [Int 2; n])) (f n);
    Eq_ (f (Int 0)) (Int 0) ].

(** [state.final_word_out = value] for the initial condition
    [f(key) == value] whose [key] is the carry [state.label()[0]]. *)
Definition final_word_out (initial_values : gmap Z expr) (state : Q * Z)
  : option expr :=
  if bool_decide (Qden state.1 = 1%positive)
  then initial_values !! Qnum state.1
  else None.

Example doctest_final_word_out :
  final_word_out {[ 0%Z := Int 0 ]} (0%Q, 0%Z) = Some (Int 0).
Proof. reflexivity. Qed.

(** The rule [f(2*n) == f(n)] at the level of the residues modulo 4: the
    class of 2 gets the right-hand side [f(2*n + 0)], where
    [f(4*n + 2) = f(2*n + 1)]. *)
Example binary_digit_sum_by_4_table :
  residues_table 2 binary_digit_sum_by_4
  = [ [None];
      [ Some (mkRuleRight 0 0 (Int 0)); None ];
      [ Some (mkRuleRight 1 0 (Int 0));
        Some (mkRuleRight 1 0 (Int 1));
        Some (mkRuleRight 1 0 (Int 0));
        Some (mkRuleRight 1 1 (Int 1)) ] ].
Proof. vm_compute. reflexivity. Qed.

Lemma transition_base_3 (j : nat) :
  run 3 (residues_table 3 ternary_digit_sum) (0%Q, 0%Z)
    (2%Z :: replicate j 0%Z)
  = inr ((2 # power_of_3 j, 0%Z), replicate (S j) (Int 0)).
Proof.
  rewrite ternary_table_eq. cbn [run].
  change (transition_function 3 ternary_table (0%Q, 0%Z) 2)
    with (@inr exception _ ((2 # 3, 0%Z), [Int 0])).
  cbv beta iota. by rewrite (ternary_zeros j 3).
Qed.

(** C1 fails, for two reasons.

    Base 2: a rule with [K < max_K] is entered at the higher levels with
    [s = rule.s * base**m], whatever the residue. For
    [binary_digit_sum_by_4], [f(5) = 2]; reading [101] (5, least
    significant digit first) writes [1] and [0] and ends in the state
    [(0, 1)], whose final output is [0]: the transducer writes [1, 0, 0],
    of sum 1.

    Base 3: the transition function reduces modulo [2**K] where the digits
    are in base [base]. For the ternary sum of digits, [f(2) = 2]; but
    reading the digit [2] in the initial state writes [0] and leads to the
    carry [2/3], from which any number [j] of further zeros writes zeros
    and leads to the carry [2/3^(j+1)], never to the state of the initial
    condition. *)
Theorem C1_transducer_differs :
  (setup 2 binary_digit_sum_by_4
   = inr ({[ 0%Z := Int 0 ]}, residues_table 2 binary_digit_sum_by_4) ∧
   f_defined 4 2 (parsed_rules 2 binary_digit_sum_by_4) {[ 0%Z := Int 0 ]} 5
   = Some 2%Z ∧
   run 2 (residues_table 2 binary_digit_sum_by_4) (0%Q, 0%Z) [1; 0; 1]%Z
   = inr ((0%Q, 1%Z), [Int 1; Int 0]) ∧
   final_word_out {[ 0%Z := Int 0 ]} (0%Q, 1%Z) = Some (Int 0)) ∧
  (setup 3 ternary_digit_sum
   = inr ({[ 0%Z := Int 0 ]}, residues_table 3 ternary_digit_sum) ∧
   f_defined 3 3 (parsed_rules 3 ternary_digit_sum) {[ 0%Z := Int 0 ]} 2
   = Some 2%Z ∧
   transition_function 3 (residues_table 3 ternary_digit_sum)
     (0%Q, 0%Z) 2
   = inr ((2 # 3, 0%Z), [Int 0]) ∧
   ∀ j, run 3 (residues_table 3 ternary_digit_sum) (0%Q, 0%Z)
          (2%Z :: replicate j 0%Z)
        = inr ((2 # power_of_3 j, 0%Z), replicate (S j) (Int 0))).
Proof.
  split.
  - repeat split; vm_compute; reflexivity.
  - split; [vm_compute; reflexivity|].
    split; [vm_compute; reflexivity|].
    split; [vm_compute; reflexivity|].
    exact transition_base_3.
Qed.

(** ** What the parser stores *)

Section Parsed.

Variable function : string.
Variable var : string.
Variable base : Z.
Variable output_rings : list ring.
Variable same_equation : expr → expr → bool.

Lemma initial_condition_stored (argument t : expr) (c : Z) (st : state) :
  to_poly var argument = Some (constant c) →
  var ∉ variables t →
  parse_equation function var base output_rings same_equation
    (Eq_ (Call function [argument]) t) st
  = (inr tt, mkState (<[c := t]> (initial_values st)) (rules st)).
Proof.
  intros Hpoly Ht. unfold parse_equation.
  rewrite bind_raise_if, bool_decide_eq_false_2 by (by intros []).
  unfold two_operands. cbn [operands]. rewrite bind_ret. cbn [fst snd].
  rewrite bind_raise_if, bool_decide_eq_false_2 by (by intros []).
  cbn [operands]. rewrite bind_raise_if.
  rewrite bool_decide_eq_false_2 by (by intros []).
  cbn [nth]. unfold polynomial_of. rewrite Hpoly, bind_ret.
  assert (Hc : in_base_ring (constant c) = true).
  { apply bool_decide_eq_true. unfold constant, Zx.strip.
    case_decide; simpl; lia. }
  rewrite Hc. unfold is_scalar. rewrite bool_decide_eq_true_2 by done.
  cbn [andb]. unfold set_initial_value. do 3 f_equal.
  unfold constant, Zx.strip. case_decide as Hz; [|done].
  by destruct Hz as [-> _].
Qed.

(** X26: An initial condition [f(c) == t] is stored as [initial_values[c] = t],
    the rules are left as they are, and a condition for an argument that
    has a value already replaces this value. *)
Theorem parse_initial_condition (argument t : expr) (c : Z) (st : state) :
  to_poly var argument = Some (constant c) →
  var ∉ variables t →
  parse_equation function var base output_rings same_equation
    (Eq_ (Call function [argument]) t) st
  = (inr tt, mkState (<[c := t]> (initial_values st)) (rules st)).
Proof. apply initial_condition_stored. Qed.

(** X27: A recursion [f(base^K*n + r) == f(base^k*n + s) + t] with
    [0 <= k < K] and [0 <= r < base^K] that the parser finds equal to the
    equation it reconstructs is stored as the rule [(K, r, k, s, t)], with
    [t] coerced into the first output ring that contains it, after the
    rules parsed before; the initial values are left as they are. *)
Theorem parse_recursion (left_argument right_side right_argument t : expr)
  (K r k s : Z) (st : state) :
  (2 ≤ base)%Z →
  to_poly var left_argument = Some [r; (base ^ K)%Z] →
  sum_of function right_side (Call function [right_argument]) t →
  to_poly var right_argument = Some [s; (base ^ k)%Z] →
  (0 ≤ k < K)%Z → (0 ≤ r < base ^ K)%Z →
  var ∉ variables t →
  same_equation (Eq_ (Call function [left_argument]) right_side)
    (parsed_equation function var base K r k s t) = true →
  parse_equation function var base output_rings same_equation
    (Eq_ (Call function [left_argument]) right_side) st
  = (inr tt,
     mkState (initial_values st)
       (rules st
        ++ [mkRule K r k s (coerce_output output_rings t)])).
Proof.
  intros Hbase Hleft Hsum Hright Hk Hr Ht Hsame.
  assert (Hpow : ∀ e, (0 ≤ e)%Z → (0 < base ^ e)%Z).
  { intros e He. apply Z.pow_pos_nonneg; lia. }
  unfold parse_equation.
  rewrite bind_raise_if, bool_decide_eq_false_2 by (by intros []).
  unfold two_operands. cbn [operands]. rewrite bind_ret. cbn [fst snd].
  rewrite bind_raise_if, bool_decide_eq_false_2 by (by intros []).
  cbn [operands]. rewrite bind_raise_if.
  rewrite bool_decide_eq_false_2 by (by intros []).
  cbn [nth]. unfold polynomial_of at 1. rewrite Hleft, bind_ret.
  change (in_base_ring [r; (base ^ K)%Z]) with false. cbn [andb nth].
  rewrite bind_raise_if, bool_decide_eq_false_2 by (by intros []).
  unfold integer_log at 1. rewrite int_log_power by lia.
  rewrite bind_ret, bind_raise_if, bool_decide_eq_false_2 by lia.
  rewrite bind_raise_if, bool_decide_eq_true_2 by done. cbn [negb].
  assert (Hsplit : split_right_side function var right_side st
                   = (inr (Call function [right_argument], t), st)).
  { unfold split_right_side.
    destruct Hsum as [[-> ->]|(ops & -> & Hf & ->)].
    - by rewrite bool_decide_eq_false_2.
    - rewrite bool_decide_eq_true_2 by done. cbn [operands].
      fold (is_evaluation function). rewrite Hf. rewrite bind_raise_if.
      rewrite bool_decide_eq_false_2 by (by intros []).
      rewrite bind_raise_if. unfold is_scalar at 1.
      assert (Hext : List.filter
                       (λ o, bool_decide (operator_of o ≠ function_ function))
                       ops
                     = List.filter (λ o, negb (is_evaluation function o)) ops).
      { apply filter_ext. intros o. unfold is_evaluation.
        by repeat case_bool_decide. }
      rewrite Hext. by rewrite bool_decide_eq_true_2. }
  rewrite (bind_returns _ _ _ _ _ Hsplit). cbn [fst snd].
  rewrite bind_raise_if, bool_decide_eq_false_2 by (by intros []).
  cbn [operands]. rewrite bind_raise_if.
  rewrite bool_decide_eq_false_2 by (by intros []).
  cbn [nth]. unfold polynomial_of at 1. rewrite Hright, bind_ret.
  cbn [nth].
  rewrite bind_raise_if, bool_decide_eq_false_2 by (by intros []).
  unfold integer_log at 1. rewrite int_log_power by lia.
  rewrite bind_ret, bind_raise_if, bool_decide_eq_false_2 by lia.
  rewrite bind_raise_if, bool_decide_eq_false_2 by lia.
  unfold bind, assert_. by rewrite Hsame.
Qed.

(** X28: Equations that are all initial conditions give no rule:
    [Recursion] then raises the [ValueError] of [max] on an empty
    sequence. This is the case of an empty list of equations. *)
Theorem no_recursion_raises (recursions : list expr) :
  Forall (initial_condition function var) recursions →
  recursion_setup function var base output_rings same_equation recursions
  = inl (ValueError max_of_empty_sequence).
Proof.
  intros Hall. unfold recursion_setup.
  assert (Hparse : ∀ st, rules st = [] →
            ∃ st', parse_equations function var base output_rings
                     same_equation recursions st = (inr tt, st') ∧
                   rules st' = []).
  { induction Hall as [|equation recursions Heq _ IH]; intros st Hst.
    - exists st. by split.
    - destruct Heq as (argument & c & t & -> & Hpoly & Ht).
      cbn [parse_equations]. unfold bind.
      rewrite (initial_condition_stored argument t c st Hpoly Ht).
      apply IH. done. }
  destruct (Hparse (mkState ∅ []) eq_refl) as (st' & -> & Hrules).
  by rewrite Hrules.
Qed.

End Parsed.

Lemma parse_initial_condition_witness :
  parse 2 (Eq_ (f (Int 0)) (Int 0))
  = (inr tt, mkState (<[0%Z := Int 0]> ∅) []).
Proof.
  apply (parse_initial_condition "f" "n" 2 [ZZ] equations_agree
           (Int 0) (Int 0) 0 (mkState ∅ [])).
  - reflexivity.
  - apply not_elem_of_nil.
Defined.

Lemma parse_recursion_witness :
  parse 2 (Eq_ (f (linear 4 3)) (Add [f (Add [n; Int 1]); Int 1]))
  = (inr tt, mkState ∅ ([] ++ [mkRule 2 3 0 1 (Int 1)])).
Proof.
  apply (parse_recursion "f" "n" 2 [ZZ] equations_agree
           (linear 4 3) (Add [f (Add [n; Int 1]); Int 1]) (Add [n; Int 1])
           (Int 1) 2 3 0 1 (mkState ∅ [])).
  - lia.
  - reflexivity.
  - right. exists [f (Add [n; Int 1]); Int 1]. done.
  - reflexivity.
  - lia.
  - lia.
  - apply not_elem_of_nil.
  - reflexivity.
Defined.

Lemma no_recursion_raises_witness :
  setup 2 [Eq_ (f (Int 0)) (Int 0)] = inl (ValueError max_of_empty_sequence).
Proof.
  apply (no_recursion_raises "f" "n" 2 [ZZ] equations_agree
           [Eq_ (f (Int 0)) (Int 0)]).
  constructor; [|constructor].
  exists (Int 0), 0%Z, (Int 0). split; [done|]. split; [done|].
  apply not_elem_of_nil.
Defined.

(** ** The check of the residue classes in base 2 *)

(** Nested loops are one loop over the pairs of their indices. *)
Lemma loop_app {A S : Type} (body : A → S → exception + S) (l1 l2 : list A)
  (st : S) :
  loop body (l1 ++ l2) st
  = match loop body l1 st with
    | inl e => inl e
    | inr st' => loop body l2 st'
    end.
Proof.
  revert st. induction l1 as [|a l1 IH]; intros st; simpl; [done|].
  destruct (body a st); [done|apply IH].
Qed.

Lemma loop_ext {A S : Type} (body1 body2 : A → S → exception + S)
  (l : list A) (st : S) :
  (∀ a st', body1 a st' = body2 a st') → loop body1 l st = loop body2 l st.
Proof.
  intros Hext. revert st. induction l as [|a l IH]; intros st; simpl; [done|].
  rewrite Hext. destruct (body2 a st); [done|apply IH].
Qed.

Lemma loop_map {A B S : Type} (h : A → B) (body : B → S → exception + S)
  (l : list A) (st : S) :
  loop body (map h l) st = loop (λ a, body (h a)) l st.
Proof.
  revert st. induction l as [|a l IH]; intros st; simpl; [done|].
  destruct (body (h a) st); [done|apply IH].
Qed.

Lemma loop_bind {A B S : Type} (body : A → B → S → exception + S)
  (inner : A → list B) (l : list A) (st : S) :
  loop (λ a, loop (body a) (inner a)) l st
  = loop (λ ab, body ab.1 ab.2) (l ≫= λ a, map (pair a) (inner a)) st.
Proof.
  revert st. induction l as [|a l IH]; intros st; [done|].
  cbn [loop mbind list_bind]. rewrite loop_app, loop_map. simpl.
  destruct (loop (body a) (inner a) st); [done|apply IH].
Qed.

Lemma elem_of_range (n x : Z) : x ∈ range n ↔ (0 ≤ x < n)%Z.
Proof.
  unfold range. rewrite list_elem_of_fmap. split.
  - intros (i & -> & Hi). apply elem_of_seq in Hi. lia.
  - intros Hx. exists (Z.to_nat x). split; [lia|]. apply elem_of_seq. lia.
Qed.

Lemma NoDup_range (n : Z) : NoDup (range n).
Proof.
  unfold range. apply NoDup_fmap_2; [|apply NoDup_seq].
  intros i j. apply Nat2Z.inj.
Qed.

Lemma NoDup_bind_disjoint {A B : Type} (f : A → list B) (l : list A) :
  NoDup l → (∀ a, a ∈ l → NoDup (f a)) →
  (∀ a1 a2 b, a1 ∈ l → a2 ∈ l → b ∈ f a1 → b ∈ f a2 → a1 = a2) →
  NoDup (l ≫= f).
Proof.
  induction 1 as [|a l Ha Hl IH]; intros Hf Hdis; [constructor|].
  cbn [mbind list_bind]. apply NoDup_app. split; [|split].
  - apply Hf. left.
  - intros b Hb Hb'. apply list_elem_of_bind in Hb' as (a' & Hb' & Ha').
    apply Ha. rewrite (Hdis a a' b); [done|left|by right|done|done].
  - apply IH.
    + intros a' Ha'. apply Hf. by right.
    + intros a1 a2 b H1 H2. apply Hdis; by right.
Qed.

(** The entry [residues[j][R]] for indices that are not negative, if
    there is one. *)
Definition cell (residues : list (list (option RuleRight))) (j R : Z)
  : option (option RuleRight) :=
  match residues !! Z.to_nat j with
  | Some row => row !! Z.to_nat R
  | None => None
  end.

Lemma getitem_lookup {A : Type} (l : list A) (i : Z) :
  (0 ≤ i)%Z →
  getitem l i = match l !! Z.to_nat i with
                | Some a => inr a
                | None => inl IndexError
                end.
Proof.
  intros Hi. unfold getitem, index_of. rewrite bool_decide_eq_true_2 by done.
  case_bool_decide as Hlt; [done|].
  rewrite lookup_ge_None_2; [done|lia].
Qed.

Lemma setitem_lookup {A : Type} (l : list A) (i : Z) (a b : A) :
  (0 ≤ i)%Z → l !! Z.to_nat i = Some b →
  setitem l i a = inr (<[Z.to_nat i := a]> l).
Proof.
  intros Hi Hb. apply lookup_lt_Some in Hb. unfold setitem, index_of.
  by rewrite !bool_decide_eq_true_2 by lia.
Qed.

(** The iterations of the three loops that fill the table, each with its
    rule, [m] and [ell], and the entry [(K + m, r + 2^K * ell)] that
    it writes. *)
Definition rule_writes (max_K : Z) (rule : Rule) : list (Rule * (Z * Z)) :=
  map (pair rule)
      (range (max_K - K rule + 1) ≫= λ m, map (pair m) (range (2 ^ m))).

Definition writes (max_K : Z) (rules : list Rule) : list (Rule * (Z * Z)) :=
  rules ≫= rule_writes max_K.

Definition position (w : Rule * (Z * Z)) : Z * Z :=
  (K w.1 + w.2.1, r w.1 + 2 ^ K w.1 * w.2.2)%Z.

Lemma fill_residues_writes (max_K : Z) (rules : list Rule) :
  fill_residues 2 max_K rules
  = loop (λ w, enter_rule 2 w.1 w.2.1 w.2.2) (writes max_K rules)
         (empty_residues 2 max_K).
Proof.
  unfold fill_residues, writes, rule_writes.
  rewrite <- (loop_bind (λ rule mell, enter_rule 2 rule mell.1 mell.2)).
  apply loop_ext. intros rule st.
  by rewrite (loop_bind (enter_rule 2 rule)).
Qed.

(** One iteration: a conflict when the entry is taken, and the entry
    written otherwise. *)
Lemma enter_rule_cell (rule : Rule) (m ell : Z)
  (residues : list (list (option RuleRight))) (c : option RuleRight) :
  (0 ≤ (position (rule, (m, ell))).1)%Z →
  (0 ≤ (position (rule, (m, ell))).2)%Z →
  cell residues (position (rule, (m, ell))).1 (position (rule, (m, ell))).2
  = Some c →
  match enter_rule 2 rule m ell residues with
  | inl e =>
      is_Some c ∧
      e = ValueError (conflicting_rules (position (rule, (m, ell))).2
                        (2 ^ (K rule + m)))
  | inr residues' =>
      c = None ∧
      ∀ j R, (0 ≤ j)%Z → (0 ≤ R)%Z →
        cell residues' j R
        = if decide ((j, R) = position (rule, (m, ell)))
          then Some (Some (mkRuleRight (k rule + m) (s rule * 2 ^ m)
                             (t rule)))
          else cell residues j R
  end.
Proof.
  unfold position, cell. cbn [fst snd]. intros Hj HR Hc.
  unfold enter_rule. rewrite getitem_lookup by done.
  destruct (residues !! Z.to_nat (K rule + m)) as [row|] eqn:Hrow; [|done].
  rewrite getitem_lookup, Hc by done.
  destruct c as [c|]; [by split|].
  rewrite (setitem_lookup _ _ _ _ HR Hc).
  rewrite (setitem_lookup _ _ _ _ Hj Hrow).
  split; [done|]. intros j R Hj' HR'.
  destruct (decide ((j, R) = _)) as [[= -> ->]|Hne].
  - rewrite list_lookup_insert_eq by by eapply lookup_lt_Some.
    rewrite list_lookup_insert_eq by by eapply lookup_lt_Some. done.
  - destruct (decide (Z.to_nat j = Z.to_nat (K rule + m))) as [Heq|Hneq].
    + rewrite Heq, list_lookup_insert_eq by by eapply lookup_lt_Some.
      rewrite Hrow. apply list_lookup_insert_ne.
      intros HeqR. apply Hne. f_equal; lia.
    + by rewrite list_lookup_insert_ne.
Qed.

(** The loop over a list of iterations returns if and only if they write
    distinct entries that are all free; it then has written them all and
    nothing else. Otherwise it raises [ValueError] for a conflict. *)
Lemma loop_writes (ws : list (Rule * (Z * Z))) :
  ∀ residues : list (list (option RuleRight)),
  (∀ w, w ∈ ws → (0 ≤ (position w).1)%Z ∧ (0 ≤ (position w).2)%Z ∧
                  is_Some (cell residues (position w).1 (position w).2)) →
  match loop (λ w, enter_rule 2 w.1 w.2.1 w.2.2) ws residues with
  | inl e =>
      ¬ (NoDup (map position ws) ∧
         ∀ w, w ∈ ws →
              cell residues (position w).1 (position w).2 = Some None) ∧
      ∃ R m, e = ValueError (conflicting_rules R m)
  | inr residues' =>
      NoDup (map position ws) ∧
      (∀ w, w ∈ ws →
            cell residues (position w).1 (position w).2 = Some None) ∧
      ∀ j R, (0 ≤ j)%Z → (0 ≤ R)%Z →
        (is_Some (cell residues' j R) ↔ is_Some (cell residues j R)) ∧
        (cell residues' j R = Some None
         ↔ cell residues j R = Some None ∧ (j, R) ∉ map position ws)
  end.
Proof.
  induction ws as [|w ws IH]; intros residues Hws.
  - simpl. split; [constructor|]. split; [by intros w Hw%elem_of_nil|].
    intros j R _ _. split; [done|]. split; [|by intros []].
    intros Hc. split; [done|apply not_elem_of_nil].
  - destruct (Hws w) as (Hj & HR & [c Hc]); [left|].
    destruct w as [rule [m ell]]. cbn [loop fst snd].
    pose proof (enter_rule_cell rule m ell residues c Hj HR Hc) as Hstep.
    destruct (enter_rule 2 rule m ell residues) as [e|residues1].
    { destruct Hstep as [[c' ->] ->]. split; [|by eexists _, _].
      intros [_ Hfree]. specialize (Hfree (rule, (m, ell))).
      rewrite Hc in Hfree. by specialize (Hfree ltac:(left)). }
    destruct Hstep as [-> Hcells].
    assert (Hws1 : ∀ w, w ∈ ws →
              (0 ≤ (position w).1)%Z ∧ (0 ≤ (position w).2)%Z ∧
              is_Some (cell residues1 (position w).1 (position w).2)).
    { intros w Hw. destruct (Hws w) as (Hj' & HR' & Hs); [by right|].
      split; [done|]. split; [done|].
      rewrite Hcells by done. by case_decide. }
    specialize (IH residues1 Hws1).
    destruct (loop _ ws residues1) as [e|residues'].
    { destruct IH as [Hnot Hex]. split; [|done].
      intros [Hnd Hfree]. apply Hnot. cbn [map] in Hnd.
      apply NoDup_cons in Hnd as [Hni Hnd]. split; [done|].
      intros w Hw. destruct (Hws w) as (Hj' & HR' & _); [by right|].
      rewrite Hcells by done. case_decide as Heq.
      - destruct Hni. rewrite <- Heq, <- surjective_pairing.
        apply list_elem_of_fmap. by exists w.
      - apply Hfree. by right. }
    destruct IH as (Hnd & Hfree & Hres).
    assert (Hni : position (rule, (m, ell)) ∉ map position ws).
    { intros Hin. apply list_elem_of_fmap in Hin as (w & Heq & Hw).
      specialize (Hfree w Hw). destruct (Hws w) as (Hj' & HR' & _); [by right|].
      rewrite Hcells in Hfree by done.
      rewrite decide_True in Hfree; [done|].
      by rewrite <- surjective_pairing. }
    split; [|split].
    + cbn [map]. by apply NoDup_cons.
    + intros w [->|Hw]%elem_of_cons; [done|].
      specialize (Hfree w Hw). destruct (Hws w) as (Hj' & HR' & _); [by right|].
      rewrite Hcells in Hfree by done. by case_decide.
    + intros j R Hj' HR'. destruct (Hres j R Hj' HR') as [Hsome Hnone].
      rewrite Hsome, Hnone, Hcells by done. cbn [map].
      rewrite not_elem_of_cons. case_decide as Heq.
      * split.
        -- split; [|done]. intros _.
           assert (Hjr : j = (position (rule, (m, ell))).1 ∧
                         R = (position (rule, (m, ell))).2)
             by by rewrite <- Heq.
           destruct Hjr as [-> ->]. by rewrite Hc.
        -- split; [by intros [[=] _]|]. by intros [_ [[] _]].
      * split; [done|]. split; [by intros []|]. by intros [? [_ ?]].
Qed.

(** The entries of the table before it is filled. *)
Lemma lookup_range (n : Z) (i : nat) :
  range n !! i = if decide (Z.of_nat i < n)%Z then Some (Z.of_nat i) else None.
Proof.
  unfold range. rewrite list_lookup_fmap. case_decide as Hi.
  - rewrite lookup_seq_lt by lia. done.
  - rewrite lookup_seq_ge by lia. done.
Qed.

Lemma cell_empty_residues (max_K j R : Z) :
  (0 ≤ j)%Z → (0 ≤ R)%Z →
  cell (empty_residues 2 max_K) j R
  = if decide (j ≤ max_K ∧ R < 2 ^ j)%Z then Some None else None.
Proof.
  intros Hj HR. unfold cell, empty_residues.
  rewrite list_lookup_fmap, lookup_range.
  rewrite Z2Nat.id by done.
  destruct (decide (j < max_K + 1)%Z) as [Hlt|Hge]; simpl.
  - rewrite list_lookup_fmap, lookup_range, Z2Nat.id by done.
    destruct (decide (R < 2 ^ j)%Z).
    + by rewrite decide_True by lia.
    + by rewrite decide_False by lia.
  - by rewrite decide_False by lia.
Qed.

(** ** The entries that the rules write *)

Lemma elem_of_rule_writes (max_K : Z) (rule : Rule) (w : Rule * (Z * Z)) :
  w ∈ rule_writes max_K rule
  ↔ w.1 = rule ∧ (0 ≤ w.2.1 ≤ max_K - K rule)%Z ∧ (0 ≤ w.2.2 < 2 ^ w.2.1)%Z.
Proof.
  unfold rule_writes. rewrite list_elem_of_fmap. split.
  - intros (mell & -> & Hin).
    apply list_elem_of_bind in Hin as (m & Hin & Hm).
    apply list_elem_of_fmap in Hin as (ell & -> & Hell).
    apply elem_of_range in Hm, Hell. simpl. split; [done|]. lia.
  - destruct w as [rule' [m ell]]. simpl. intros (-> & Hm & Hell).
    exists (m, ell). split; [done|].
    apply list_elem_of_bind. exists m. split.
    + apply list_elem_of_fmap. exists ell. split; [done|].
      by apply elem_of_range.
    + apply elem_of_range. lia.
Qed.

Lemma position_bounds (rule : Rule) (m ell : Z) :
  (1 ≤ K rule)%Z → (0 ≤ r rule < 2 ^ K rule)%Z →
  (0 ≤ m)%Z → (0 ≤ ell < 2 ^ m)%Z →
  (0 ≤ r rule + 2 ^ K rule * ell < 2 ^ (K rule + m))%Z ∧
  ((r rule + 2 ^ K rule * ell) mod 2 ^ K rule = r rule)%Z ∧
  ((r rule + 2 ^ K rule * ell) / 2 ^ K rule = ell)%Z.
Proof.
  intros HK Hr Hm Hell.
  assert (HpK : (0 < 2 ^ K rule)%Z) by (apply Z.pow_pos_nonneg; lia).
  rewrite Z.pow_add_r by lia. split; [nia|]. split.
  - rewrite Z.mul_comm, Z_mod_plus_full. by apply Z.mod_small.
  - rewrite Z.mul_comm, Z_div_plus_full by lia.
    rewrite Z.div_small by done. lia.
Qed.

Lemma elem_of_rule_positions (max_K : Z) (rule : Rule) (j R : Z) :
  (1 ≤ K rule)%Z → (0 ≤ r rule < 2 ^ K rule)%Z →
  (j, R) ∈ map position (rule_writes max_K rule)
  ↔ (K rule ≤ j ≤ max_K)%Z ∧ (0 ≤ R < 2 ^ j)%Z ∧
    (R mod 2 ^ K rule = r rule)%Z.
Proof.
  intros HK Hr. rewrite list_elem_of_fmap. split.
  - intros ([rule' [m ell]] & Heq & Hw).
    apply elem_of_rule_writes in Hw as (Hrule & Hm & Hell).
    simpl in *. subst rule'. unfold position in Heq. simpl in Heq.
    injection Heq as -> ->.
    destruct (position_bounds rule m ell) as (Hb & Hmod & _); try done; lia.
  - intros (Hj & HR & Hmod).
    assert (HpK : (0 < 2 ^ K rule)%Z) by (apply Z.pow_pos_nonneg; lia).
    exists (rule, (j - K rule, R / 2 ^ K rule)%Z). split.
    + unfold position. simpl. f_equal; [lia|].
      rewrite <- Hmod. rewrite Z.add_comm. apply Z.div_mod. lia.
    + apply elem_of_rule_writes. simpl. split; [done|]. split; [lia|].
      split; [apply Z.div_pos; lia|].
      apply Z.div_lt_upper_bound; [done|].
      rewrite <- Z.pow_add_r by lia.
      replace (K rule + (j - K rule))%Z with j by lia. lia.
Qed.

Lemma NoDup_rule_positions (max_K : Z) (rule : Rule) :
  (1 ≤ K rule)%Z → (0 ≤ r rule < 2 ^ K rule)%Z →
  NoDup (map position (rule_writes max_K rule)).
Proof.
  intros HK Hr. apply NoDup_fmap_2_strong.
  - intros [rule1 [m1 ell1]] [rule2 [m2 ell2]] H1 H2 Heq.
    apply elem_of_rule_writes in H1 as (Hrule1 & Hm1 & Hell1).
    apply elem_of_rule_writes in H2 as (Hrule2 & Hm2 & Hell2).
    simpl in *. subst rule1 rule2.
    unfold position in Heq. simpl in Heq. injection Heq as Hm Hell.
    assert (m1 = m2) as -> by lia.
    destruct (position_bounds rule m2 ell1) as (_ & _ & Hd1); try done; try lia.
    destruct (position_bounds rule m2 ell2) as (_ & _ & Hd2); try done; try lia.
    rewrite Hell, Hd2 in Hd1. by subst.
  - unfold rule_writes. apply NoDup_fmap_2; [by intros ?? [=]|].
    apply NoDup_bind_disjoint.
    + apply NoDup_range.
    + intros m _. apply NoDup_fmap_2; [by intros ?? [=]|apply NoDup_range].
    + intros m1 m2 [m ell] _ _ H1 H2.
      apply list_elem_of_fmap in H1 as (? & [= -> ->] & _).
      by apply list_elem_of_fmap in H2 as (? & [= -> ->] & _).
Qed.

Lemma elem_of_positions (max_K : Z) (rules : list Rule) (j R : Z) :
  Forall (λ rule, (1 ≤ K rule)%Z ∧ (0 ≤ r rule < 2 ^ K rule)%Z) rules →
  (j, R) ∈ map position (writes max_K rules)
  ↔ ∃ rule, rule ∈ rules ∧ (K rule ≤ j ≤ max_K)%Z ∧ (0 ≤ R < 2 ^ j)%Z ∧
            (R mod 2 ^ K rule = r rule)%Z.
Proof.
  intros Hrules. rewrite Forall_forall in Hrules.
  unfold writes. rewrite list_elem_of_fmap. split.
  - intros (w & Heq & Hw). apply list_elem_of_bind in Hw as (rule & Hw & Hin).
    exists rule. split; [done|]. destruct (Hrules rule Hin) as [HK Hr].
    apply (elem_of_rule_positions max_K); [done..|].
    apply list_elem_of_fmap. by exists w.
  - intros (rule & Hin & Hpos). destruct (Hrules rule Hin) as [HK Hr].
    apply (elem_of_rule_positions max_K) in Hpos; [|done..].
    apply list_elem_of_fmap in Hpos as (w & Heq & Hw).
    exists w. split; [done|]. apply list_elem_of_bind. by exists rule.
Qed.

(** The number of rules that cover a residue class. *)
Definition covering (rules : list Rule) (R : Z) : nat :=
  length (List.filter (λ rule, covers 2 rule R) rules).

Lemma covering_pos (rules : list Rule) (R : Z) :
  0 < covering rules R ↔ ∃ rule, rule ∈ rules ∧ (R mod 2 ^ K rule = r rule)%Z.
Proof.
  unfold covering. induction rules as [|rule rules IH]; simpl.
  - split; [lia|]. by intros (? & ?%elem_of_nil & _).
  - unfold covers at 1. case_bool_decide as Hc; simpl.
    + split; [|lia]. intros _. exists rule. split; [left|done].
    + rewrite IH. split.
      * intros (rule' & Hin & Hr). exists rule'. split; [by right|done].
      * intros (rule' & [->|Hin]%elem_of_cons & Hr); [done|].
        by exists rule'.
Qed.

(** The rules write distinct entries if and only if no residue class
    modulo [2^max_K] is covered twice. *)
Lemma NoDup_positions (max_K : Z) (rules : list Rule) :
  Forall (λ rule, (1 ≤ K rule ≤ max_K)%Z ∧ (0 ≤ r rule < 2 ^ K rule)%Z)
         rules →
  NoDup (map position (writes max_K rules))
  ↔ ∀ R, (0 ≤ R < 2 ^ max_K)%Z → covering rules R ≤ 1.
Proof.
  induction 1 as [|rule rules [HK Hr] Hrules IH].
  - split; [by intros _ R _; unfold covering; simpl; lia|]. intros _. constructor.
  - assert (Hrules' : Forall (λ rule, (1 ≤ K rule)%Z ∧
                                       (0 ≤ r rule < 2 ^ K rule)%Z) rules).
    { eapply Forall_impl; [exact Hrules|]. simpl. intros ? [? ?]. lia. }
    unfold writes. cbn [mbind list_bind]. fold (writes max_K rules).
    rewrite map_app, NoDup_app, IH. split.
    + intros (_ & Hdis & Hle) R HR. specialize (Hle R HR).
      unfold covering in *. cbn [List.filter].
      unfold covers at 1. case_bool_decide as Hc; [|done]. cbn [length].
      destruct (decide (0 < covering rules R)) as [Hpos|Hz];
        [|unfold covering in Hz; lia].
      exfalso. apply covering_pos in Hpos as (rule' & Hin & Hr').
      apply (Hdis (max_K, R)).
      * apply elem_of_rule_positions; [lia|done|]. split; [lia|done].
      * apply elem_of_positions; [done|]. exists rule'. split; [done|].
        rewrite Forall_forall in Hrules. destruct (Hrules rule' Hin).
        split; [lia|done].
    + intros Hle. split; [apply NoDup_rule_positions; [lia|done]|]. split.
      * intros [j R] Hin Hin'.
        apply elem_of_rule_positions in Hin as (Hj & HR & Hmod); [|lia|done].
        apply elem_of_positions in Hin' as (rule' & Hin' & Hj' & _ & Hmod');
          [|done].
        assert (HRM : (0 ≤ R < 2 ^ max_K)%Z).
        { split; [lia|]. eapply Z.lt_le_trans; [apply HR|].
          apply Z.pow_le_mono_r; lia. }
        specialize (Hle R HRM). unfold covering in Hle.
        cbn [List.filter] in Hle. unfold covers at 1 in Hle.
        rewrite bool_decide_eq_true_2 in Hle by done. cbn [length] in Hle.
        assert (0 < covering rules R); [|unfold covering in *; lia].
        apply covering_pos. by exists rule'.
      * intros R HR. specialize (Hle R HR). unfold covering in *.
        cbn [List.filter] in Hle. destruct (covers 2 rule R); simpl in Hle; lia.
Qed.

Lemma max_K_of_bound (rules : list Rule) (max_K : Z) :
  max_K_of rules = inr max_K → Forall (λ rule, (K rule ≤ max_K)%Z) rules.
Proof.
  destruct rules as [|rule rules]; [done|]. simpl. intros [= <-].
  assert (Hfold : ∀ (l : list Z) a,
            (a ≤ foldl Z.max a l)%Z ∧ Forall (λ b, (b ≤ foldl Z.max a l)%Z) l).
  { induction l as [|b l IHl]; intros a; simpl; [split; [lia|constructor]|].
    destruct (IHl (Z.max a b)) as [Hle Hall]. split; [lia|].
    constructor; [lia|done]. }
  destruct (Hfold (map K rules) (K rule)) as [Hle Hall].
  constructor; [done|]. rewrite Forall_forall in Hall.
  rewrite Forall_forall. intros rule' Hin.
  apply Hall, list_elem_of_fmap. by exists rule'.
Qed.

Lemma missing_in_nil (row : list (option RuleRight)) :
  missing_in row = [] ↔ ∀ i, row !! i ≠ Some None.
Proof.
  unfold missing_in. split.
  - intros Hnil i Hi.
    assert (Hin : (i, None) ∈ List.filter
                    (λ Rr : nat * option RuleRight,
                       match Rr.2 with None => true | Some _ => false end)
                    (indexed_from 0 row)).
    { apply list_elem_of_In, filter_In. split; [|done].
      apply list_elem_of_In, elem_of_indexed_from. split; [lia|].
      by rewrite Nat.sub_0_r. }
    destruct (List.filter _ (indexed_from 0 row)); [|done].
    by apply elem_of_nil in Hin.
  - intros Hrow.
    destruct (List.filter _ (indexed_from 0 row)) as [|[i c] l] eqn:Hf; [done|].
    assert (Hin : In (i, c) (List.filter
                    (λ Rr : nat * option RuleRight,
                       match Rr.2 with None => true | Some _ => false end)
                    (indexed_from 0 row))) by (rewrite Hf; left; done).
    apply filter_In in Hin as [Hin Hc]. simpl in Hc.
    destruct c; [done|].
    apply list_elem_of_In, elem_of_indexed_from in Hin as [_ Hin].
    by apply Hrow in Hin.
Qed.

Lemma covered_exactly_once_spec (rules : list Rule) (max_K : Z) :
  max_K_of rules = inr max_K →
  covered_exactly_once 2 rules = true
  ↔ ∀ R, (0 ≤ R < 2 ^ max_K)%Z → covering rules R = 1.
Proof.
  intros HM. unfold covered_exactly_once, coverage. rewrite HM.
  rewrite forallb_forall. split.
  - intros Hall R HR. apply Nat.eqb_eq, Hall.
    apply in_map_iff. exists R. split; [done|].
    by apply list_elem_of_In, elem_of_range.
  - intros Hall c Hc. apply in_map_iff in Hc as (R & <- & HR).
    apply list_elem_of_In, elem_of_range in HR.
    apply Nat.eqb_eq. by apply Hall.
Qed.

(** The residue classes modulo [2^max_K] that no rule covers, in
    increasing order. *)
Definition uncovered (rules : list Rule) (max_K : Z) : list Z :=
  List.filter (λ R, Nat.eqb (covering rules R) 0) (range (2 ^ max_K)).

(** The first conflict that the loop meets: an entry that is taken
    already, or that an earlier iteration has written. *)
Lemma loop_writes_conflict (ws : list (Rule * (Z * Z))) :
  ∀ (residues : list (list (option RuleRight))) (written : list (Z * Z)) e,
  (∀ w, w ∈ ws → (0 ≤ (position w).1)%Z ∧ (0 ≤ (position w).2)%Z ∧
                  is_Some (cell residues (position w).1 (position w).2)) →
  (∀ j R c, (0 ≤ j)%Z → (0 ≤ R)%Z →
            cell residues j R = Some (Some c) → (j, R) ∈ written) →
  loop (λ w, enter_rule 2 w.1 w.2.1 w.2.2) ws residues = inl e →
  ∃ ws1 w ws2,
    ws = ws1 ++ w :: ws2 ∧
    e = ValueError (conflicting_rules (position w).2 (2 ^ (position w).1)) ∧
    position w ∈ written ++ map position ws1.
Proof.
  induction ws as [|w ws IH]; intros residues written e Hws Hwritten;
    [done|].
  destruct (Hws w) as (Hj & HR & [c Hc]); [left|].
  destruct w as [rule [m ell]]. cbn [loop fst snd].
  pose proof (enter_rule_cell rule m ell residues c Hj HR Hc) as Hstep.
  destruct (enter_rule 2 rule m ell residues) as [e'|residues1].
  - destruct Hstep as [[c' ->] ->]. intros [= <-].
    exists [], (rule, (m, ell)), ws. split; [done|]. split; [done|].
    rewrite app_nil_r. rewrite (surjective_pairing (position _)).
    by apply (Hwritten _ _ c').
  - destruct Hstep as [-> Hcells]. intros Hloop.
    destruct (IH residues1 (written ++ [position (rule, (m, ell))]) e)
      as (ws1 & w & ws2 & -> & -> & Hin); [| |done|].
    + intros w Hw. destruct (Hws w) as (Hj' & HR' & Hs); [by right|].
      split; [done|]. split; [done|].
      rewrite Hcells by done. by case_decide.
    + intros j R c Hj' HR'. rewrite Hcells by done.
      case_decide as Heq.
      * intros _. rewrite Heq. apply elem_of_app. right. left.
      * intros Hc'. apply elem_of_app. left. by apply (Hwritten _ _ c).
    + exists ((rule, (m, ell)) :: ws1), w, ws2.
      split; [done|]. split; [done|].
      by rewrite <- app_assoc in Hin.
Qed.

(** The number of iterations that write a given entry. *)
Definition hits (p : Z * Z) (ws : list (Rule * (Z * Z))) : nat :=
  length (List.filter (λ w, bool_decide (position w = p)) ws).

Lemma hits_app p ws1 ws2 : hits p (ws1 ++ ws2) = hits p ws1 + hits p ws2.
Proof. unfold hits. by rewrite List.filter_app, length_app. Qed.

Lemma hits_pos p ws : p ∈ map position ws → 0 < hits p ws.
Proof.
  unfold hits. induction ws as [|w ws IH]; simpl.
  - by intros ?%elem_of_nil.
  - intros [->|Hin]%elem_of_cons.
    + rewrite bool_decide_eq_true_2 by done. simpl. lia.
    + specialize (IH Hin). case_bool_decide; simpl; lia.
Qed.

Lemma hits_elem_of p ws : 0 < hits p ws → p ∈ map position ws.
Proof.
  unfold hits. induction ws as [|w ws IH]; simpl; [lia|].
  case_bool_decide as Hp; simpl.
  - intros _. rewrite <- Hp. left.
  - intros Hpos. right. by apply IH.
Qed.

Lemma hits_NoDup p ws : NoDup (map position ws) → hits p ws ≤ 1.
Proof.
  induction ws as [|w ws IH]; simpl; [unfold hits; simpl; lia|].
  intros [Hni Hnd]%NoDup_cons. specialize (IH Hnd). unfold hits in *.
  simpl. case_bool_decide as Hp; simpl; [|done].
  destruct (decide (0 < hits p ws)) as [Hpos|Hz]; [|unfold hits in Hz; lia].
  destruct Hni. rewrite Hp. by apply hits_elem_of.
Qed.

(** An entry [(j, R)] is written at most once for each rule that covers
    the class of [R]. *)
Lemma hits_covering (max_K : Z) (rules : list Rule) (j R : Z) :
  Forall (λ rule, (1 ≤ K rule)%Z ∧ (0 ≤ r rule < 2 ^ K rule)%Z) rules →
  hits (j, R) (writes max_K rules) ≤ covering rules R.
Proof.
  induction 1 as [|rule rules [HK Hr] Hrules IH]; [done|].
  unfold writes. cbn [mbind list_bind]. fold (writes max_K rules).
  rewrite hits_app. unfold covering in *. cbn [List.filter].
  pose proof (hits_NoDup (j, R) _ (NoDup_rule_positions max_K rule HK Hr))
    as Hle.
  unfold covers at 1. case_bool_decide as Hc; cbn [length]; [lia|].
  destruct (decide (0 < hits (j, R) (rule_writes max_K rule)))
    as [Hpos|Hz]; [|lia].
  apply hits_elem_of, elem_of_rule_positions in Hpos as (_ & _ & Hmod);
    done.
Qed.

(** [missing_residues]: the indices of the entries that are [None]. *)
Lemma missing_in_filter (row : list (option RuleRight)) :
  missing_in row
  = List.filter (λ R, match row !! Z.to_nat R with
                      | Some None => true
                      | _ => false
                      end)
                (range (Z.of_nat (length row))).
Proof.
  unfold missing_in, range. rewrite Nat2Z.id.
  assert (Hgen : ∀ k,
            map (λ Rr : nat * option RuleRight, Z.of_nat Rr.1)
              (List.filter
                 (λ Rr : nat * option RuleRight,
                    match Rr.2 with None => true | Some _ => false end)
                 (indexed_from k row))
            = List.filter
                (λ R, match row !! (Z.to_nat R - k) with
                      | Some None => true
                      | _ => false
                      end)
                (map Z.of_nat (seq k (length row)))).
  { induction row as [|c row IH]; intros k; [done|].
    cbn [indexed_from length seq map List.filter snd fst].
    rewrite Nat2Z.id, Nat.sub_diag. cbn [lookup list_lookup].
    assert (Hext : List.filter
                     (λ R, match row !! (Z.to_nat R - S k) with
                           | Some None => true
                           | _ => false
                           end)
                     (map Z.of_nat (seq (S k) (length row)))
                   = List.filter
                       (λ R, match (c :: row) !! (Z.to_nat R - k) with
                             | Some None => true
                             | _ => false
                             end)
                       (map Z.of_nat (seq (S k) (length row)))).
    { apply filter_ext_in. intros R HR.
      apply in_map_iff in HR as (i & <- & Hi). apply in_seq in Hi.
      rewrite Nat2Z.id. by replace (i - k) with (S (i - S k)) by lia. }
    rewrite <- Hext, <- (IH (S k)). by destruct c. }
  rewrite (Hgen 0). apply filter_ext. intros R. by rewrite Nat.sub_0_r.
Qed.

(** The outcome of the check in base 2, for rules as the parser stores
    them. *)
Lemma residues_of_base_2 (rules : list Rule) (max_K : Z) :
  Forall (λ rule, (1 ≤ K rule)%Z ∧ (0 ≤ r rule < 2 ^ K rule)%Z) rules →
  max_K_of rules = inr max_K →
  match residues_of 2 rules with
  | inr residues => ∀ R, (0 ≤ R < 2 ^ max_K)%Z → covering rules R = 1
  | inl e =>
      (∃ R j, e = ValueError (conflicting_rules R (2 ^ j)) ∧
              (j ≤ max_K)%Z ∧ (0 ≤ R < 2 ^ j)%Z ∧ 2 ≤ covering rules R) ∨
      (e = ValueError (missing_recursions (uncovered rules max_K)
                         (2 ^ max_K)) ∧
       uncovered rules max_K ≠ [] ∧
       ∀ R, (0 ≤ R < 2 ^ max_K)%Z → covering rules R ≤ 1)
  end.
Proof.
  intros Hrules HM. unfold residues_of. rewrite HM.
  pose proof (max_K_of_bound _ _ HM) as HKM.
  assert (HM0 : (1 ≤ max_K)%Z).
  { destruct rules as [|rule rules]; [done|].
    apply Forall_cons in Hrules as [[? _] _].
    apply Forall_cons in HKM as [? _]. lia. }
  assert (Hboth : Forall (λ rule, (1 ≤ K rule ≤ max_K)%Z ∧
                                   (0 ≤ r rule < 2 ^ K rule)%Z) rules).
  { rewrite Forall_forall in *. intros rule Hin.
    destruct (Hrules rule Hin). specialize (HKM rule Hin). simpl in HKM. lia. }
  pose proof (NoDup_positions _ _ Hboth) as Hnd.
  rewrite fill_residues_writes.
  assert (Hbounds : ∀ w, w ∈ writes max_K rules →
            ((position w).1 ≤ max_K)%Z ∧ (0 ≤ (position w).1)%Z ∧
            (0 ≤ (position w).2 < 2 ^ (position w).1)%Z).
  { intros w Hw.
    assert (Hpos : ((position w).1, (position w).2)
                   ∈ map position (writes max_K rules)).
    { rewrite <- surjective_pairing. apply list_elem_of_fmap. by exists w. }
    apply elem_of_positions in Hpos as (rule & Hin & Hj & HR & _); [|done].
    rewrite Forall_forall in Hrules. destruct (Hrules _ Hin). lia. }
  assert (Hrange : ∀ w, w ∈ writes max_K rules →
            (0 ≤ (position w).1)%Z ∧ (0 ≤ (position w).2)%Z ∧
            is_Some (cell (empty_residues 2 max_K)
                       (position w).1 (position w).2)).
  { intros w Hw. destruct (Hbounds w Hw) as (? & ? & ?).
    split; [done|]. split; [lia|].
    rewrite cell_empty_residues by lia. rewrite decide_True by lia. eauto. }
  pose proof (loop_writes (writes max_K rules) (empty_residues 2 max_K) Hrange)
    as Hloop.
  pose proof (loop_writes_conflict (writes max_K rules)
                (empty_residues 2 max_K) [] ) as Hconflict.
  destruct (loop _ (writes max_K rules) (empty_residues 2 max_K))
    as [e|residues].
  { left. destruct (Hconflict e Hrange) as (ws1 & w & ws2 & Hws & -> & Hin);
      [|done|].
    { intros j R c Hj HR. rewrite cell_empty_residues by done.
      by case_decide. }
    simpl in Hin.
    assert (Hw : w ∈ writes max_K rules).
    { rewrite Hws. apply elem_of_app. right. left. }
    destruct (Hbounds w Hw) as (? & ? & ?).
    eexists _, _. split; [done|]. split; [done|]. split; [done|].
    eapply Nat.le_trans; [|apply (hits_covering max_K _ (position w).1);
                           exact Hrules].
    rewrite <- surjective_pairing, Hws, hits_app.
    apply hits_pos in Hin. unfold hits at 2. cbn [List.filter].
    rewrite bool_decide_eq_true_2 by done. simpl. lia. }
  clear Hconflict. destruct Hloop as (Hnodup & _ & Hcells).
  rewrite getitem_lookup by lia.
  destruct (Hcells max_K 0%Z) as [Hsome _]; [lia..|].
  rewrite cell_empty_residues in Hsome by lia.
  rewrite decide_True in Hsome by (split; [lia|apply Z.pow_pos_nonneg; lia]).
  destruct (residues !! Z.to_nat max_K) as [row|] eqn:Hrow.
  2: { unfold cell in Hsome. rewrite Hrow in Hsome.
       destruct (proj2 Hsome) as [? ?]; [by eexists|done]. }
  clear Hsome.
  assert (Hpow : (0 < 2 ^ max_K)%Z) by (apply Z.pow_pos_nonneg; lia).
  assert (Hlen : Z.of_nat (length row) = (2 ^ max_K)%Z).
  { destruct (decide (Z.of_nat (length row) < 2 ^ max_K)%Z) as [Hlt|Hge].
    - destruct (Hcells max_K (Z.of_nat (length row))) as [Hs _]; [lia..|].
      unfold cell in Hs at 1. rewrite Hrow, Nat2Z.id in Hs.
      rewrite cell_empty_residues, decide_True in Hs by lia.
      destruct (proj2 Hs) as [c Hc]; [by eexists|].
      apply lookup_lt_Some in Hc. lia.
    - destruct (decide (2 ^ max_K < Z.of_nat (length row))%Z) as [Hgt|]; [|lia].
      destruct (Hcells max_K (2 ^ max_K)%Z) as [Hs _]; [lia..|].
      unfold cell in Hs at 1. rewrite Hrow in Hs.
      rewrite cell_empty_residues, decide_False in Hs by lia.
      destruct (proj1 Hs) as [c Hc]; [apply lookup_lt_is_Some; lia|done]. }
  assert (Hentry : ∀ R, (0 ≤ R < 2 ^ max_K)%Z →
            row !! Z.to_nat R = Some None ↔ covering rules R = 0).
  { intros R HR. destruct (Hcells max_K R) as [_ Hnone]; [lia..|].
    unfold cell in Hnone at 1. rewrite Hrow in Hnone.
    rewrite cell_empty_residues, decide_True in Hnone by lia.
    rewrite Hnone. split.
    - intros [_ Hni].
      destruct (decide (0 < covering rules R)) as [Hpos|]; [|lia].
      destruct Hni. apply covering_pos in Hpos as (rule & Hin & Hmod).
      apply elem_of_positions; [done|]. exists rule.
      rewrite Forall_forall in Hboth. destruct (Hboth rule Hin).
      split; [done|]. split; [lia|]. split; [lia|done].
    - intros Hz. split; [done|]. intros Hin.
      apply elem_of_positions in Hin as (rule & Hin & _ & _ & Hmod); [|done].
      assert (0 < covering rules R); [|lia].
      apply covering_pos. by exists rule. }
  assert (Hmissing : missing_in row = uncovered rules max_K).
  { rewrite missing_in_filter, Hlen. unfold uncovered.
    apply filter_ext_in. intros R HR.
    apply list_elem_of_In, elem_of_range in HR.
    specialize (Hentry R HR).
    destruct (Nat.eqb_spec (covering rules R) 0) as [Hz|Hnz].
    - by rewrite (proj2 Hentry Hz).
    - destruct (row !! Z.to_nat R) as [[c|]|] eqn:Hc; [done| |done].
      by destruct Hnz; apply Hentry. }
  rewrite Hmissing.
  destruct (uncovered rules max_K) as [|R0 Rs] eqn:Hunc.
  - intros R HR. pose proof (proj1 Hnd Hnodup R HR) as Hle.
    destruct (decide (covering rules R = 0)) as [Hz|]; [|lia].
    assert (Hin : R ∈ uncovered rules max_K).
    { unfold uncovered. apply list_elem_of_In, filter_In. split.
      - by apply list_elem_of_In, elem_of_range.
      - by apply Nat.eqb_eq. }
    rewrite Hunc in Hin. by apply elem_of_nil in Hin.
  - right. split; [done|]. split; [done|]. apply Hnd, Hnodup.
Qed.

(** X29: In base 2 the check of the residue classes is right: for rules as the
    parser stores them ([K >= 1] and [0 <= r < 2^K]), the table of
    residues is built if and only if every residue class modulo
    [2^max_K] is covered by exactly one rule. *)
Theorem residue_check_base_2 (rules : list Rule) :
  Forall (λ rule, (1 ≤ K rule)%Z ∧ (0 ≤ r rule < 2 ^ K rule)%Z) rules →
  passes_check 2 rules = covered_exactly_once 2 rules.
Proof.
  intros Hrules. unfold passes_check.
  destruct (max_K_of rules) as [e|max_K] eqn:HM.
  { unfold residues_of, covered_exactly_once. by rewrite HM. }
  pose proof (residues_of_base_2 rules max_K Hrules HM) as Hres.
  pose proof (covered_exactly_once_spec rules max_K HM) as Hspec.
  destruct (residues_of 2 rules) as [e|residues].
  - symmetry. apply not_true_is_false. intros Hcov.
    pose proof (proj1 Hspec Hcov) as Hone.
    destruct Hres as [(R & j & _ & Hj & HR & Htwice)|(_ & Hne & _)].
    + assert (HRM : (0 ≤ R < 2 ^ max_K)%Z).
      { split; [lia|]. eapply Z.lt_le_trans; [apply HR|].
        apply Z.pow_le_mono_r; lia. }
      specialize (Hone R HRM). lia.
    + destruct (uncovered rules max_K) as [|R Rs] eqn:Hunc; [done|].
      assert (Hin : In R (uncovered rules max_K)) by (rewrite Hunc; by left).
      apply filter_In in Hin as [HR Hz].
      apply list_elem_of_In, elem_of_range in HR. apply Nat.eqb_eq in Hz.
      specialize (Hone R HR). lia.
  - symmetry. by apply Hspec.
Qed.

(** X30: What the errors of the check say in base 2. Conflicting rules
    congruent to [R] modulo [2^j] are reported for a class that at least
    two rules cover; missing recursions are reported only when no class is
    covered twice, with exactly the classes modulo [2^max_K] that no rule
    covers, in increasing order. No other error is raised. *)
Theorem residue_check_base_2_errors (rules : list Rule) (max_K : Z)
  (e : exception) :
  Forall (λ rule, (1 ≤ K rule)%Z ∧ (0 ≤ r rule < 2 ^ K rule)%Z) rules →
  max_K_of rules = inr max_K →
  residues_of 2 rules = inl e →
  (∃ R j, e = ValueError (conflicting_rules R (2 ^ j)) ∧
          (j ≤ max_K)%Z ∧ (0 ≤ R < 2 ^ j)%Z ∧ 2 ≤ covering rules R) ∨
  (e = ValueError (missing_recursions (uncovered rules max_K) (2 ^ max_K)) ∧
   uncovered rules max_K ≠ [] ∧
   ∀ R, (0 ≤ R < 2 ^ max_K)%Z → covering rules R ≤ 1).
Proof.
  intros Hrules HM He.
  pose proof (residues_of_base_2 rules max_K Hrules HM) as Hres.
  by rewrite He in Hres.
Qed.

(** The rules of the binary sum of digits pass the check, as they cover
    the classes 0 and 1 modulo 2 once. *)
Lemma residue_check_base_2_witness :
  passes_check 2 (parsed_rules 2 binary_digit_sum)
  = covered_exactly_once 2 (parsed_rules 2 binary_digit_sum).
Proof.
  apply (residue_check_base_2 (parsed_rules 2 binary_digit_sum)).
  repeat constructor; vm_compute; congruence.
Defined.

(** [f(2n) == f(n)] alone: the class 1 modulo 2 is missing. *)
Lemma residue_check_base_2_errors_witness :
  (∃ R j, ValueError (missing_recursions [1%Z] 2)
          = ValueError (conflicting_rules R (2 ^ j)) ∧
          (j ≤ 1)%Z ∧ (0 ≤ R < 2 ^ j)%Z ∧
          2 ≤ covering [mkRule 1 0 0 0 (Int 0)] R) ∨
  (ValueError (missing_recursions [1%Z] 2)
   = ValueError (missing_recursions
                   (uncovered [mkRule 1 0 0 0 (Int 0)] 1) (2 ^ 1)) ∧
   uncovered [mkRule 1 0 0 0 (Int 0)] 1 ≠ [] ∧
   ∀ R, (0 ≤ R < 2 ^ 1)%Z → covering [mkRule 1 0 0 0 (Int 0)] R ≤ 1).
Proof.
  apply (residue_check_base_2_errors [mkRule 1 0 0 0 (Int 0)] 1
           (ValueError (missing_recursions [1%Z] 2))).
  - repeat constructor; vm_compute; congruence.
  - reflexivity.
  - reflexivity.
Defined.

End Recursion.
